(** * Invest-Tracker: the ledger-to-state derivation engine

    A shallow embedding of the pure functions of [utils.ts]
    ([calculateHoldings], [calculatePortfolioHistory],
    [calculateFundingStats], [calculateMonthlyReturns],
    [calculateMaxDrawdown]) together with the properties the specification
    states about them.

    Numbers.  A JavaScript [number] is an IEEE 754 binary64 value, and so is
    Rocq's primitive [float]: [+], [-], [*], [/], [<] and [===] of the source
    are [PrimFloat.add], [sub], [mul], [div], [ltb] and [eqb], with the same
    rounding to nearest, the same signed zeros, infinities and NaN.
    Properties of all inputs are proved through [Prim2SF] and the
    specification of the operations in [SpecFloat].

    Optional fields.  A field declared [f?: T] is an [option T]; [x || d]
    takes the default when the field is absent or falsy.

    Objects.  A [Record<string, T>] filled by assignment is an association
    list in creation order, enumerated the way [Object.values] does.

    Dates.  The source only orders dates and buckets them by local calendar
    month.  A valid [Date] is kept as the pair of its month index
    ([getFullYear() * 12 + getMonth()]) and the time elapsed since the start
    of that month.  The parser [new Date(s)] is a parameter; it answers
    [None] on a text it cannot read, such as the empty date the entry form
    lets through, which is the Invalid Date, whose [getTime()] is [NaN].
    The reading of the clock [new Date()] is a parameter too, taken to be
    the same throughout one call.

    Sorting.  [Array.prototype.sort] is fixed by the language when the
    comparator is consistent, and left to the engine when it is not; the
    engine is a parameter as well. *)

From Stdlib Require Import Reals Lra Psatz.
From Stdlib Require Import ZArith List String Ascii Bool Lia Permutation Sorted.
From Stdlib Require Import Floats DecimalString.
Import ListNotations.

Set Warnings "-inexact-float".
Local Open Scope string_scope.
Local Open Scope Z_scope.

(** ** JavaScript values *)

Module Js.

(** [ToBoolean] on a number: [0], [-0] and [NaN] are falsy. *)
Definition truthy (x : float) : bool :=
  (x =? x)%float && negb (x =? 0)%float.

(** [x || d] where [x] is an optional numeric field. *)
Definition orNum (x : option float) (d : float) : float :=
  match x with
  | Some v => if truthy v then v else d
  | None => d
  end.

(** [s || d] where [s] is an optional string: [undefined] and [""] are
    falsy. *)
Definition truthyStr (s : option string) : bool :=
  match s with
  | Some v => negb (String.eqb v "")
  | None => false
  end.

Definition orStr (s : option string) (d : string) : string :=
  if truthyStr s then match s with Some v => v | None => d end else d.

(** [x !== y] on numbers. *)
Definition neq (x y : float) : bool := negb (x =? y)%float.

(** [x > y] on numbers. *)
Definition gtb (x y : float) : bool := (y <? x)%float.

(** [x >= y] on numbers. *)
Definition geb (x y : float) : bool := (y <=? x)%float.

End Js.

(** ** [Array.prototype.sort]

    The sort is stable.  With a consistent comparator its result is fixed
    by the language: it is the one of a stable insertion sort. *)

Section Sort.
Context {A : Type}.
Variable le : A -> A -> bool.

Fixpoint insertBy (x : A) (l : list A) : list A :=
    match l with
    | [] => [x]
    | y :: l' => if le x y then x :: y :: l' else y :: insertBy x l'
    end.

Definition sortBy (l : list A) : list A := fold_right insertBy [] l.
End Sort.

(** With a comparator that is not consistent the order of the result is
    the engine's own business; the array still holds the same elements.
    The comparator is handed over as the sign of its result, a [NaN]
    counting as [+0]. *)
Record Engine := {
  arrange : forall A : Type, (A -> A -> comparison) -> list A -> list A;
  arrange_perm :
    forall (A : Type) (cmp : A -> A -> comparison) (l : list A),
      Permutation (arrange A cmp l) l
}.

(** An engine that leaves alone the arrays it is not told how to order. *)
Definition inPlace : Engine :=
  {| arrange := fun (A : Type) (_ : A -> A -> comparison) (l : list A) => l;
     arrange_perm :=
       fun (A : Type) (_ : A -> A -> comparison) (l : list A) =>
         Permutation_refl l |}.

(** What V8 (Chrome, Node.js) does to an array of fewer than 64 elements,
    whatever the comparator: the run the array starts with is measured,
    and reversed when it is strictly descending, then the elements that
    follow are placed one by one by binary insertion. *)
Section ShortArray.
Context {A : Type}.
Variable cmp : A -> A -> comparison.

(** [order < 0] *)
Definition negative (order : comparison) : bool :=
  match order with
  | Lt => true
  | _ => false
  end.

(** The elements that prolong the run after [previous]. *)
Fixpoint runAfter (descending : bool) (previous : A) (l : list A) : nat :=
  match l with
  | [] => O
  | current :: l' =>
      let order := cmp current previous in
      if (if descending then negb (negative order) else negative order)
      then O
      else S (runAfter descending current l')
  end.

(** The run once it ascends, and the elements after it. *)
Definition countAndMakeRun (l : list A) : list A * list A :=
  match l with
  | low :: next :: l' =>
      let descending := negative (cmp next low) in
      let runLength := S (S (runAfter descending next l')) in
      let run := firstn runLength l in
      (if descending then rev run else run, skipn runLength l)
  | _ => (l, [])
  end.

(** The binary search for the place of [pivot] between [left] and
    [right]; the interval halves at every step. *)
Fixpoint searchPlace (steps : nat) (sorted : list A) (pivot : A)
  (left right : nat) : nat :=
  match steps with
  | O => left
  | S steps' =>
      if (left <? right)%nat
      then
        let mid := (left + (right - left) / 2)%nat in
        match nth_error sorted mid with
        | Some el =>
            if negative (cmp pivot el)
            then searchPlace steps' sorted pivot left mid
            else searchPlace steps' sorted pivot (S mid) right
        | None => left
        end
      else left
  end.

Definition placePivot (sorted : list A) (pivot : A) : list A :=
  let left :=
    searchPlace (S (List.length sorted)) sorted pivot O (List.length sorted) in
  firstn left sorted ++ pivot :: skipn left sorted.

Definition shortArraySort (l : list A) : list A :=
  let '(run, rest) := countAndMakeRun l in
  fold_left placePivot rest run.

End ShortArray.

(** ** Dates *)

Record JsDate := { monthIdx : Z; sinceMonthStart : N }.



(** [a.getTime() - b.getTime() <= 0]. *)
Definition dateLeb (a b : JsDate) : bool :=
  (monthIdx a <? monthIdx b)
  || ((monthIdx a =? monthIdx b)
      && (sinceMonthStart a <=? sinceMonthStart b)%N).

(** [a < b] on [Date] objects. *)
Definition dateLtb (a b : JsDate) : bool :=
  (monthIdx a <? monthIdx b)
  || ((monthIdx a =? monthIdx b)
      && (sinceMonthStart a <? sinceMonthStart b)%N).

(** The sign of [a.getTime() - b.getTime()]. *)
Definition dateCompare (a b : JsDate) : comparison :=
  if dateLtb a b then Lt else if dateLtb b a then Gt else Eq.

(** [order <= 0] *)
Definition notAfter (order : comparison) : bool :=
  match order with
  | Gt => false
  | _ => true
  end.

(** ** Sorting by date

    [[...xs].sort((a, b) => new Date(a.date).getTime() - new Date(b.date).getTime())].
    The difference is [NaN] as soon as one of the two dates is invalid,
    which the sort reads as a tie.  When every date is valid the
    comparator is consistent and the result is the stable sort by time;
    otherwise the order is the engine's. *)

Section SortByDate.
Context {A : Type}.
Variable engine : Engine.
(** [new Date(x.date)] *)
Variable dateOf : A -> option JsDate.

Definition byDate (a b : A) : comparison :=
  match dateOf a, dateOf b with
  | Some da, Some db => dateCompare da db
  | _, _ => Eq
  end.

(** [!isNaN(new Date(x.date).getTime())] *)
Definition dated (a : A) : bool :=
  match dateOf a with
  | Some _ => true
  | None => false
  end.

Definition sortByDate (l : list A) : list A :=
  if forallb dated l
  then sortBy (fun a b => notAfter (byDate a b)) l
  else arrange engine A byDate l.

End SortByDate.

(** ** The data model ([types.ts]) *)

Inductive TransactionType := BUY | SELL | DEPOSIT | WITHDRAW | DIVIDEND | SPLIT.

Inductive AssetClass :=
  STOCK | CRYPTO | FUND | ETF | BOND | REAL_ESTATE | GOLD | CASH.

Record Transaction := {
  tx_id : string;
  tx_date : string;
  tx_type : TransactionType;
  tx_symbol : option string;
  tx_name : option string;
  tx_assetClass : option AssetClass;
  tx_sector : option string;
  tx_shares : option float;
  tx_price : option float;
  tx_fee : option float;
  tx_exchangeRate : option float;
  tx_notes : option string
}.

Record Holding := {
  h_symbol : string;
  h_name : string;
  h_assetClass : AssetClass;
  h_sector : string;
  h_shares : float;
  h_avgCost : float;
  h_totalCost : float;
  h_currentPrice : float;
  h_marketValue : float;
  h_unrealizedPL : float;
  h_unrealizedPLPercent : float;
  h_realizedPL : float;
  h_totalDividends : float;
  h_totalReturn : float;
  h_targetAllocation : float
}.

Record ChartDataPoint := {
  p_date : string;
  p_invested : float;
  p_value : float
}.

Record MonthlyReturnData := {
  r_yearMonth : string;
  r_value : float;
  r_pnl : float
}.

Definition isType (a b : TransactionType) : bool :=
  match a, b with
  | BUY, BUY | SELL, SELL | DEPOSIT, DEPOSIT
  | WITHDRAW, WITHDRAW | DIVIDEND, DIVIDEND | SPLIT, SPLIT => true
  | _, _ => false
  end.

(** ** Plain objects used as maps

    [Record<string, T>] built by assignment: an association list in
    creation order.  [Object.values] and [Object.keys] enumerate the
    array-index keys first, in ascending numeric order, then the other keys
    in creation order.  Keys are tickers; the names of the members of
    [Object.prototype] are outside the model. *)

Module Obj.
Section Obj.
Context {T : Type}.

Definition t := list (string * T).

Fixpoint get (k : string) (m : t) : option T :=
  match m with
  | [] => None
  | (k', v) :: m' => if String.eqb k k' then Some v else get k m'
  end.

(** [m[k] = v]: overwrite in place, or append a new key. *)
Fixpoint set (k : string) (v : T) (m : t) : t :=
  match m with
  | [] => [(k, v)]
  | (k', v') :: m' =>
      if String.eqb k k' then (k', v) :: m' else (k', v') :: set k v m'
  end.

Definition isDigit (c : ascii) : bool :=
  let n := N_of_ascii c in (48 <=? n)%N && (n <=? 57)%N.

Fixpoint digitsValue (acc : N) (s : string) : option N :=
  match s with
  | EmptyString => Some acc
  | String c s' =>
      if isDigit c
      then digitsValue (acc * 10 + (N_of_ascii c - 48))%N s'
      else None
  end.

(** An array index: the canonical decimal form of an integer below
    [2^32 - 1]. *)
Definition arrayIndex (k : string) : option N :=
  match k with
  | EmptyString => None
  | String c rest =>
      if Ascii.eqb c "0"
      then match rest with EmptyString => Some 0%N | _ => None end
      else match digitsValue 0 k with
           | Some n => if (n <? 4294967295)%N then Some n else None
           | None => None
           end
  end.

Definition indexEntries (m : t) : list (N * (string * T)) :=
  flat_map (fun kv => match arrayIndex (fst kv) with
                      | Some n => [(n, kv)]
                      | None => []
                      end) m.

Definition namedEntries (m : t) : list (string * T) :=
  filter (fun kv => match arrayIndex (fst kv) with
                    | Some _ => false
                    | None => true
                    end) m.

Definition entries (m : t) : list (string * T) :=
  map snd (sortBy (fun a b => (fst a <=? fst b)%N) (indexEntries m))
  ++ namedEntries m.

Definition keys (m : t) : list string := map fst (entries m).
Definition values (m : t) : list T := map snd (entries m).
End Obj.
Arguments t : clear implicits.
End Obj.

(** ** Environment: the date parser and the price and target maps *)

Definition PriceMap := string -> option float.

(** ** [calculateHoldings] *)

Section Holdings.
(** [new Date(s)] on the date strings of the ledger. *)
Variable parseDate : string -> option JsDate.
Variable engine : Engine.

(** [[...transactions].sort((a, b) => new Date(a.date).getTime() - new Date(b.date).getTime())] *)
Definition sortTx (transactions : list Transaction) : list Transaction :=
  sortByDate engine (fun tx => parseDate (tx_date tx)) transactions.

Definition newHolding (prices : PriceMap) (sym : string) (tx : Transaction)
  : Holding :=
  {| h_symbol := sym;
     h_name := Js.orStr (tx_name tx) sym;
     h_assetClass := match tx_assetClass tx with Some c => c | None => STOCK end;
     h_sector := Js.orStr (tx_sector tx) "General";
     h_shares := 0;
     h_avgCost := 0;
     h_totalCost := 0;
     h_currentPrice := Js.orNum (prices sym) 0;
     h_marketValue := 0;
     h_unrealizedPL := 0;
     h_unrealizedPLPercent := 0;
     h_realizedPL := 0;
     h_totalDividends := 0;
     h_totalReturn := 0;
     h_targetAllocation := 0 |}.

(** The fields the replay loop assigns. *)
Definition setPosition (h : Holding) (shares avgCost totalCost : float)
  : Holding :=
  {| h_symbol := h_symbol h; h_name := h_name h;
     h_assetClass := h_assetClass h; h_sector := h_sector h;
     h_shares := shares; h_avgCost := avgCost; h_totalCost := totalCost;
     h_currentPrice := h_currentPrice h; h_marketValue := h_marketValue h;
     h_unrealizedPL := h_unrealizedPL h;
     h_unrealizedPLPercent := h_unrealizedPLPercent h;
     h_realizedPL := h_realizedPL h;
     h_totalDividends := h_totalDividends h;
     h_totalReturn := h_totalReturn h;
     h_targetAllocation := h_targetAllocation h |}.

Definition setRealizedPL (h : Holding) (v : float) : Holding :=
  {| h_symbol := h_symbol h; h_name := h_name h;
     h_assetClass := h_assetClass h; h_sector := h_sector h;
     h_shares := h_shares h; h_avgCost := h_avgCost h;
     h_totalCost := h_totalCost h;
     h_currentPrice := h_currentPrice h; h_marketValue := h_marketValue h;
     h_unrealizedPL := h_unrealizedPL h;
     h_unrealizedPLPercent := h_unrealizedPLPercent h;
     h_realizedPL := v;
     h_totalDividends := h_totalDividends h;
     h_totalReturn := h_totalReturn h;
     h_targetAllocation := h_targetAllocation h |}.

Definition setTotalDividends (h : Holding) (v : float) : Holding :=
  {| h_symbol := h_symbol h; h_name := h_name h;
     h_assetClass := h_assetClass h; h_sector := h_sector h;
     h_shares := h_shares h; h_avgCost := h_avgCost h;
     h_totalCost := h_totalCost h;
     h_currentPrice := h_currentPrice h; h_marketValue := h_marketValue h;
     h_unrealizedPL := h_unrealizedPL h;
     h_unrealizedPLPercent := h_unrealizedPLPercent h;
     h_realizedPL := h_realizedPL h;
     h_totalDividends := v;
     h_totalReturn := h_totalReturn h;
     h_targetAllocation := h_targetAllocation h |}.

(** The body of the replay loop once [h = holdingsMap[tx.symbol]] is
    known: the branch on [tx.type]. *)
Definition applyToHolding (tx : Transaction) (h : Holding) : Holding :=
  let price := Js.orNum (tx_price tx) 0 in
  let shares := Js.orNum (tx_shares tx) 0 in
  let fee := Js.orNum (tx_fee tx) 0 in
  match tx_type tx with
  | BUY =>
      let cost := (price * shares + fee)%float in
      let totalCost := (h_totalCost h + cost)%float in
      let held := (h_shares h + shares)%float in
      setPosition h held (totalCost / held)%float totalCost
  | SELL =>
      let proceeds := (price * shares - fee)%float in
      let costBasis := (h_avgCost h * shares)%float in
      let h1 := setRealizedPL h (h_realizedPL h + (proceeds - costBasis))%float in
      let held := (h_shares h1 - shares)%float in
      let totalCost := (h_totalCost h1 - costBasis)%float in
      if (held <? 0.000001)%float
      then setPosition h1 0 (h_avgCost h1) 0
      else setPosition h1 held (h_avgCost h1) totalCost
  | DIVIDEND =>
      setTotalDividends h (h_totalDividends h + (price - fee))%float
  | SPLIT =>
      let ratio := shares in
      if Js.gtb ratio 0
      then setPosition h (h_shares h * ratio)%float
                         (h_avgCost h / ratio)%float (h_totalCost h)
      else h
  | DEPOSIT | WITHDRAW => h
  end.

(** [if (!holdingsMap[tx.symbol]) holdingsMap[tx.symbol] = {...}] followed
  by [const h = holdingsMap[tx.symbol]]: the accumulator of the symbol,
  created on first sight. *)
Definition holdingFor (prices : PriceMap) (holdingsMap : Obj.t Holding)
(sym : string) (tx : Transaction) : Holding :=
match Obj.get sym holdingsMap with
| Some h => h
| None => newHolding prices sym tx
end.

(** One iteration of [sortedTx.forEach(tx => ...)]. *)
Definition replayTx (prices : PriceMap) (holdingsMap : Obj.t Holding)
  (tx : Transaction) : Obj.t Holding :=
  match tx_symbol tx with
  | None => holdingsMap
  | Some sym =>
      if String.eqb sym "" then holdingsMap
      else
        let h := holdingFor prices holdingsMap sym tx in
        Obj.set sym (applyToHolding tx h) holdingsMap
  end.

(** The [.map(h => ...)] of the final calculations. *)
Definition finalize (prices targets : PriceMap) (h : Holding) : Holding :=
  let currentPrice :=
    match prices (h_symbol h) with
    | Some p => if Js.truthy p then p else h_currentPrice h
    | None => h_currentPrice h
    end in
  let marketValue := (h_shares h * currentPrice)%float in
  let unrealizedPL := (marketValue - h_totalCost h)%float in
  let unrealizedPLPercent :=
    if Js.gtb (h_totalCost h) 0
    then (unrealizedPL / h_totalCost h * 100)%float
    else 0%float in
  {| h_symbol := h_symbol h; h_name := h_name h;
     h_assetClass := h_assetClass h; h_sector := h_sector h;
     h_shares := h_shares h; h_avgCost := h_avgCost h;
     h_totalCost := h_totalCost h;
     h_currentPrice := currentPrice;
     h_marketValue := marketValue;
     h_unrealizedPL := unrealizedPL;
     h_unrealizedPLPercent := unrealizedPLPercent;
     h_realizedPL := h_realizedPL h;
     h_totalDividends := h_totalDividends h;
     h_totalReturn :=
       (unrealizedPL + h_realizedPL h + h_totalDividends h)%float;
     h_targetAllocation := Js.orNum (targets (h_symbol h)) 0 |}.

(** The [.filter] that keeps positions with shares or history. *)
Definition kept (h : Holding) : bool :=
  Js.gtb (h_shares h) 0
  || Js.neq (h_realizedPL h) 0
  || Js.neq (h_totalDividends h) 0.

Definition replay (prices : PriceMap) (txs : list Transaction)
  : Obj.t Holding :=
  fold_left (replayTx prices) txs [].

Definition calculateHoldings (transactions : list Transaction)
  (prices targets : PriceMap) : list Holding :=
  let holdingsMap := replay prices (sortTx transactions) in
  filter kept (map (finalize prices targets) (Obj.values holdingsMap)).

End Holdings.

(** ** [calculatePortfolioHistory] *)

Record Position := { pos_shares : float; pos_lastPrice : float }.

Record Timeline := {
  tl_invested : float;
  tl_cash : float;
  tl_holdings : Obj.t Position;
  tl_points : list ChartDataPoint
}.

Section History.
Variable parseDate : string -> option JsDate.
Variable engine : Engine.

(** The two [if]s of the "Invested Logic". *)
Definition investedAfter (invested : float) (tx : Transaction) : float :=
  let invested1 :=
    if isType (tx_type tx) DEPOSIT
    then (invested + Js.orNum (tx_price tx) 0)%float else invested in
  if isType (tx_type tx) WITHDRAW
  then (invested1 - Js.orNum (tx_price tx) 0)%float else invested1.

(** The "Cash Logic" chain on [DEPOSIT], [WITHDRAW] and [DIVIDEND]. *)
Definition cashAfterFunding (cash : float) (tx : Transaction) : float :=
  let amount := Js.orNum (tx_price tx) 0 in
  match tx_type tx with
  | DEPOSIT => (cash + amount)%float
  | WITHDRAW => (cash - amount)%float
  | DIVIDEND => (cash + amount)%float
  | _ => cash
  end.

(** The "Trade & Split Logic" block, entered when [tx.symbol] is truthy:
    the new cash and the new entry of [holdings[tx.symbol]]. *)
Definition tradeStep (cash : float) (h0 : Position) (tx : Transaction)
  : float * Position :=
  let amount := Js.orNum (tx_price tx) 0 in
  let shares := Js.orNum (tx_shares tx) 0 in
  let fee := Js.orNum (tx_fee tx) 0 in
  let h :=
    if Js.gtb amount 0
       && (isType (tx_type tx) BUY || isType (tx_type tx) SELL)
    then {| pos_shares := pos_shares h0; pos_lastPrice := amount |}
    else h0 in
  let tradeTotal := (amount * shares)%float in
  match tx_type tx with
  | BUY =>
      ((cash - (tradeTotal + fee))%float,
       {| pos_shares := (pos_shares h + shares)%float;
          pos_lastPrice := pos_lastPrice h |})
  | SELL =>
      ((cash + (tradeTotal - fee))%float,
       {| pos_shares := (pos_shares h - shares)%float;
          pos_lastPrice := pos_lastPrice h |})
  | SPLIT =>
      let ratio := if Js.truthy shares then shares else 1%float in
      (cash,
       {| pos_shares := (pos_shares h * ratio)%float;
          pos_lastPrice :=
            if Js.gtb (pos_lastPrice h) 0
            then (pos_lastPrice h / ratio)%float
            else pos_lastPrice h |})
  | _ => (cash, h)
  end.

(** [Object.values(holdings).forEach(h => stockValue += h.shares * h.lastPrice)] *)
Definition stockValueOf (holdings : Obj.t Position) : float :=
  fold_left (fun acc h => (acc + pos_shares h * pos_lastPrice h)%float)
            (Obj.values holdings) 0%float.

(** One iteration of [sortedTx.forEach(tx => ...)]. *)
Definition historyStep (st : Timeline) (tx : Transaction) : Timeline :=
  let invested := investedAfter (tl_invested st) tx in
  let cash1 := cashAfterFunding (tl_cash st) tx in
  let '(cash, holdings) :=
    match tx_symbol tx with
    | None => (cash1, tl_holdings st)
    | Some sym =>
        if String.eqb sym "" then (cash1, tl_holdings st)
        else
          let h0 := match Obj.get sym (tl_holdings st) with
                    | Some h => h
                    | None => {| pos_shares := 0; pos_lastPrice := 0 |}
                    end in
          let '(cash2, h) := tradeStep cash1 h0 tx in
          (cash2, Obj.set sym h (tl_holdings st))
    end in
  {| tl_invested := invested;
     tl_cash := cash;
     tl_holdings := holdings;
     tl_points :=
       tl_points st
       ++ [{| p_date := tx_date tx;
              p_invested := invested;
              p_value := (cash + stockValueOf holdings)%float |}] |}.

Definition timelineStart : Timeline :=
  {| tl_invested := 0; tl_cash := 0; tl_holdings := []; tl_points := [] |}.

Definition replayHistory (txs : list Transaction) : Timeline :=
  fold_left historyStep txs timelineStart.

(** The valuation of the trailing point: live price, else the last
    transaction price. *)
Definition currentStockValueOf (currentPrices : PriceMap)
  (holdings : Obj.t Position) : float :=
  fold_left
    (fun acc kv =>
       let h := snd kv in
       let price :=
         match currentPrices (fst kv) with
         | Some p => if Js.truthy p then p else pos_lastPrice h
         | None => pos_lastPrice h
         end in
       (acc + pos_shares h * price)%float)
    (Obj.entries holdings) 0%float.

Definition nowPoint (currentPrices : PriceMap) (st : Timeline)
  : ChartDataPoint :=
  {| p_date := "Now";
     p_invested := tl_invested st;
     p_value :=
       (tl_cash st + currentStockValueOf currentPrices (tl_holdings st))%float |}.

Definition calculatePortfolioHistory (transactions : list Transaction)
  (currentPrices : PriceMap) : list ChartDataPoint :=
  match transactions with
  | [] => []
  | _ =>
      let st := replayHistory (sortTx parseDate engine transactions) in
      tl_points st ++ [nowPoint currentPrices st]
  end.

End History.

(** ** [calculateFundingStats] *)

Record FundingStats := {
  netFundingUSD : float;
  netFundingLocal : float;
  avgFxCost : float;
  fundingTxs : list Transaction
}.

Record FundingAcc := {
  fa_netUSD : float;
  fa_netLocal : float;
  fa_depUSD : float;
  fa_depLocal : float
}.

Definition isFunding (t : Transaction) : bool :=
  isType (tx_type t) DEPOSIT || isType (tx_type t) WITHDRAW.

(** One iteration of [fundingTxs.forEach(tx => ...)]. *)
Definition fundingStep (a : FundingAcc) (tx : Transaction) : FundingAcc :=
  let amount := Js.orNum (tx_price tx) 0 in
  let rate := Js.orNum (tx_exchangeRate tx) 1 in
  if isType (tx_type tx) DEPOSIT
  then {| fa_netUSD := (fa_netUSD a + amount)%float;
          fa_netLocal := (fa_netLocal a + amount * rate)%float;
          fa_depUSD := (fa_depUSD a + amount)%float;
          fa_depLocal := (fa_depLocal a + amount * rate)%float |}
  else {| fa_netUSD := (fa_netUSD a - amount)%float;
          fa_netLocal := (fa_netLocal a - amount * rate)%float;
          fa_depUSD := fa_depUSD a;
          fa_depLocal := fa_depLocal a |}.

Definition fundingStart : FundingAcc :=
  {| fa_netUSD := 0; fa_netLocal := 0; fa_depUSD := 0; fa_depLocal := 0 |}.

Definition calculateFundingStats (transactions : list Transaction)
  : FundingStats :=
  let txs := filter isFunding transactions in
  let a := fold_left fundingStep txs fundingStart in
  {| netFundingUSD := fa_netUSD a;
     netFundingLocal := fa_netLocal a;
     avgFxCost :=
       if Js.gtb (fa_depUSD a) 0
       then (fa_depLocal a / fa_depUSD a)%float else 0%float;
     fundingTxs := txs |}.

(** ** [calculateMaxDrawdown] *)

Record Drawdown := { dd_peak : float; dd_max : float }.

(** One iteration of [for (const point of chartData)]. *)
Definition drawdownStep (s : Drawdown) (point : ChartDataPoint) : Drawdown :=
  let peak := if Js.gtb (p_value point) (dd_peak s)
              then p_value point else dd_peak s in
  if Js.gtb peak 0
  then
    let dd := ((peak - p_value point) / peak)%float in
    {| dd_peak := peak;
       dd_max := if Js.gtb dd (dd_max s) then dd else dd_max s |}
  else {| dd_peak := peak; dd_max := dd_max s |}.

Definition drawdownStart : Drawdown :=
  {| dd_peak := neg_infinity; dd_max := 0 |}.

Definition calculateMaxDrawdown (chartData : list ChartDataPoint) : float :=
  (dd_max (fold_left drawdownStep chartData drawdownStart) * 100)%float.

(** ** [calculateMonthlyReturns] *)








Section MonthlyReturns.
Variable parseDate : string -> option JsDate.
(** The reading of the clock, [new Date()]. *)
Variable now : JsDate.
Variable engine : Engine.











End MonthlyReturns.

(** ** A concrete date parser for worked examples

    ISO [YYYY-MM-DD] strings read in a UTC environment: the month index is
    [YYYY * 12 + MM - 1] and the offset is [DD - 1] days, for a day that
    exists in its month.  The empty text, and any text of another shape,
    gives an Invalid Date; so does here a day that its month does not
    have, on which the engines differ. *)

Definition digitAt (s : string) (i : nat) : Z :=
  match String.get i s with
  | Some c => Z.of_N (N_of_ascii c) - 48
  | None => 0
  end.

Definition isDigitAt (s : string) (i : nat) : bool :=
  match String.get i s with
  | Some c => Obj.isDigit c
  | None => false
  end.

Definition isDashAt (s : string) (i : nat) : bool :=
  match String.get i s with
  | Some c => Ascii.eqb c "-"
  | None => false
  end.

Definition daysInMonth (year month : Z) : Z :=
  if month =? 2
  then if ((year mod 4 =? 0) && negb (year mod 100 =? 0)) || (year mod 400 =? 0)
       then 29 else 28
  else if (month =? 4) || (month =? 6) || (month =? 9) || (month =? 11)
       then 30 else 31.

Definition isoDate (s : string) : option JsDate :=
  let year := digitAt s 0 * 1000 + digitAt s 1 * 100
              + digitAt s 2 * 10 + digitAt s 3 in
  let month := digitAt s 5 * 10 + digitAt s 6 in
  let day := digitAt s 8 * 10 + digitAt s 9 in
  if (String.length s =? 10)%nat
     && forallb (isDigitAt s) [0; 1; 2; 3; 5; 6; 8; 9]%nat
     && isDashAt s 4 && isDashAt s 7
     && (1 <=? month) && (month <=? 12)
     && (1 <=? day) && (day <=? daysInMonth year month)
  then Some {| monthIdx := year * 12 + (month - 1);
               sinceMonthStart := Z.to_N ((day - 1) * 86400000) |}
  else None.

Definition noPrices : PriceMap := fun _ => None.

(** A ledger record with the optional fields the entry form writes. *)
Definition mkTx (date : string) (type : TransactionType)
  (symbol : option string) (shares price fee : option float) : Transaction :=
  {| tx_id := ""; tx_date := date; tx_type := type; tx_symbol := symbol;
     tx_name := None; tx_assetClass := None; tx_sector := None;
     tx_shares := shares; tx_price := price; tx_fee := fee;
     tx_exchangeRate := None; tx_notes := None |}.

Definition mkPoint (date : string) (invested value : float) : ChartDataPoint :=
  {| p_date := date; p_invested := invested; p_value := value |}.

(** ** The dashboard figures ([App.tsx]) *)

(** [ToNumber] on an optional numeric field read with [!]: [undefined]
    becomes [NaN]. *)
Definition toNumber (x : option float) : float :=
  match x with
  | Some v => v
  | None => nan
  end.

Module App.

(** [transactions.reduce((sum, t) => ..., 0)] *)
Definition investedAmount (transactions : list Transaction) : float :=
  fold_left
    (fun sum t =>
       if isType (tx_type t) DEPOSIT
       then (sum + Js.orNum (tx_price t) 0)%float
       else if isType (tx_type t) WITHDRAW
       then (sum - Js.orNum (tx_price t) 0)%float
       else sum)
    transactions 0%float.

(** One iteration of [transactions.forEach(t => ...)] in [cashBalance]:
    five [if]s on the type, of which at most one fires. *)
Definition cashStep (balance : float) (t : Transaction) : float :=
  let b1 := if isType (tx_type t) DEPOSIT
            then (balance + Js.orNum (tx_price t) 0)%float else balance in
  let b2 := if isType (tx_type t) WITHDRAW
            then (b1 - Js.orNum (tx_price t) 0)%float else b1 in
  let b3 := if isType (tx_type t) BUY
            then (b2 - (toNumber (tx_price t) * toNumber (tx_shares t)
                        + Js.orNum (tx_fee t) 0))%float
            else b2 in
  let b4 := if isType (tx_type t) SELL
            then (b3 + (toNumber (tx_price t) * toNumber (tx_shares t)
                        - Js.orNum (tx_fee t) 0))%float
            else b3 in
  if isType (tx_type t) DIVIDEND
  then (b4 + Js.orNum (tx_price t) 0)%float else b4.

Definition cashBalance (transactions : list Transaction) : float :=
  fold_left cashStep transactions 0%float.

(** [holdings.reduce((sum, h) => sum + h.marketValue, 0)] *)
Definition portfolioValue (holdings : list Holding) : float :=
  fold_left (fun sum h => (sum + h_marketValue h)%float) holdings 0%float.

Definition totalNetWorth (holdings : list Holding)
  (transactions : list Transaction) : float :=
  (portfolioValue holdings + cashBalance transactions)%float.

End App.

(** ** The funding report ([FundingView] of [Reports.tsx]) *)

Record FundingPoint := {
  fp_date : string;
  fp_netInvested : float;
  fp_type : TransactionType;
  fp_amount : float
}.

Module FundingView.
Section FundingView.
Variable parseDate : string -> option JsDate.
Variable engine : Engine.

Definition fundingTxs (transactions : list Transaction) : list Transaction :=
  filter (fun t => isType (tx_type t) DEPOSIT || isType (tx_type t) WITHDRAW)
         transactions.

(** [calculateFundingStats(fundingTxs)] *)
Definition stats (transactions : list Transaction) : FundingStats :=
  calculateFundingStats (fundingTxs transactions).

(** [chronological.map(tx => ...)], which updates [runningTotal] as it
    goes. *)
Fixpoint cumulate (runningTotal : float) (chronological : list Transaction)
  : list FundingPoint :=
  match chronological with
  | [] => []
  | tx :: rest =>
      let amount := Js.orNum (tx_price tx) 0 in
      let runningTotal' :=
        if isType (tx_type tx) DEPOSIT
        then (runningTotal + amount)%float
        else (runningTotal - amount)%float in
      {| fp_date := tx_date tx; fp_netInvested := runningTotal';
         fp_type := tx_type tx; fp_amount := amount |}
      :: cumulate runningTotal' rest
  end.

(** The chart data when [chartTimeRange] is ['ALL']. *)
Definition cumulativeFundingData (transactions : list Transaction)
  : list FundingPoint :=
  cumulate 0%float (sortTx parseDate engine (fundingTxs transactions)).

End FundingView.
End FundingView.

(** ** The return on the net funding ([GrowthView] of [Reports.tsx]) *)

Definition totalROI (netFunding currentPortfolioValue : float) : float :=
  if Js.gtb netFunding 0
  then ((currentPortfolioValue - netFunding) / netFunding * 100)%float
  else 0%float.

(** ** [getYearlyDividends], [getMonthlyDividends]

    The keys of [grouped] are prefixes of date strings; dates are ASCII
    texts, of which [substring] and [length] count the characters.
    [localeLeb a b] stands for [a.localeCompare(b) <= 0]. *)

Record YearlyDividend := { yd_year : string; yd_value : float }.
Record MonthlyDividend := { md_date : string; md_value : float }.

Definition isDividend (t : Transaction) : bool :=
  isType (tx_type t) DIVIDEND.

Section Dividends.
Variable localeLeb : string -> string -> bool.

(** One iteration of [divs.forEach(t => ...)] in [getYearlyDividends]. *)
Definition addYearly (grouped : Obj.t float) (t : Transaction) : Obj.t float :=
  let year := String.substring 0 4 (tx_date t) in
  Obj.set year
    (Js.orNum (Obj.get year grouped) 0 + Js.orNum (tx_price t) 0)%float
    grouped.

Definition getYearlyDividends (transactions : list Transaction)
  : list YearlyDividend :=
  let divs := filter isDividend transactions in
  let grouped := fold_left addYearly divs [] in
  sortBy (fun a b => localeLeb (yd_year a) (yd_year b))
    (map (fun kv => {| yd_year := fst kv; yd_value := snd kv |})
         (Obj.entries grouped)).

(** One iteration of [divs.forEach(t => ...)] in [getMonthlyDividends]. *)
Definition addMonthly (grouped : Obj.t float) (t : Transaction) : Obj.t float :=
  let date := String.substring 0 7 (tx_date t) in
  Obj.set date
    (Js.orNum (Obj.get date grouped) 0 + Js.orNum (tx_price t) 0)%float
    grouped.

Definition getMonthlyDividends (transactions : list Transaction)
  : list MonthlyDividend :=
  let divs := filter isDividend transactions in
  let grouped := fold_left addMonthly divs [] in
  sortBy (fun a b => localeLeb (md_date a) (md_date b))
    (map (fun kv => {| md_date := fst kv; md_value := snd kv |})
         (Obj.entries grouped)).

End Dividends.

(** ** [calculateMonthlyActivity]

    [transactionCount] starts at [0] and is only incremented by one: a
    natural number. *)

Record MonthlyActivity := {
  ma_yearMonth : string;
  ma_buyVolume : float;
  ma_sellVolume : float;
  ma_dividendIncome : float;
  ma_deposit : float;
  ma_withdraw : float;
  ma_transactionCount : N
}.

Definition emptyActivity (ym : string) : MonthlyActivity :=
  {| ma_yearMonth := ym; ma_buyVolume := 0; ma_sellVolume := 0;
     ma_dividendIncome := 0; ma_deposit := 0; ma_withdraw := 0;
     ma_transactionCount := 0 |}.

(** The updates of [g] for one record. *)
Definition addActivity (g : MonthlyActivity) (tx : Transaction)
  : MonthlyActivity :=
  let count := N.succ (ma_transactionCount g) in
  let amt := Js.orNum (tx_price tx) 0 in
  let total := (Js.orNum (tx_price tx) 0 * Js.orNum (tx_shares tx) 0)%float in
  {| ma_yearMonth := ma_yearMonth g;
     ma_buyVolume :=
       if isType (tx_type tx) BUY
       then (ma_buyVolume g + total)%float else ma_buyVolume g;
     ma_sellVolume :=
       if isType (tx_type tx) SELL
       then (ma_sellVolume g + total)%float else ma_sellVolume g;
     ma_dividendIncome :=
       if isType (tx_type tx) DIVIDEND
       then (ma_dividendIncome g + amt)%float else ma_dividendIncome g;
     ma_deposit :=
       if isType (tx_type tx) DEPOSIT
       then (ma_deposit g + amt)%float else ma_deposit g;
     ma_withdraw :=
       if isType (tx_type tx) WITHDRAW
       then (ma_withdraw g + amt)%float else ma_withdraw g;
     ma_transactionCount := count |}.

(** [!tx.date || tx.date.length < 7] *)
Definition undated (tx : Transaction) : bool :=
  (String.length (tx_date tx) <? 7)%nat.

(** One iteration of [transactions.forEach(tx => ...)]. *)
Definition activityStep (groups : Obj.t MonthlyActivity) (tx : Transaction)
  : Obj.t MonthlyActivity :=
  if undated tx then groups
  else
    let ym := String.substring 0 7 (tx_date tx) in
    let g := match Obj.get ym groups with
             | Some g => g
             | None => emptyActivity ym
             end in
    Obj.set ym (addActivity g tx) groups.

Section MonthlyActivity.
Variable localeLeb : string -> string -> bool.

Definition calculateMonthlyActivity (transactions : list Transaction)
  : list MonthlyActivity :=
  sortBy (fun a b => localeLeb (ma_yearMonth b) (ma_yearMonth a))
    (Obj.values (fold_left activityStep transactions [])).

End MonthlyActivity.

(** ** [calculateWinRate] *)

(** [a.length] as a number: exact, an array has fewer than [2^32]
    elements. *)
Definition arrayLength {A : Type} (a : list A) : float :=
  of_uint63 (Uint63.of_Z (Z.of_nat (List.length a))).

Definition calculateWinRate (monthlyReturns : list MonthlyReturnData) : float :=
  match monthlyReturns with
  | [] => 0%float
  | _ =>
      let wins := filter (fun m => Js.gtb (r_value m) 0) monthlyReturns in
      (arrayLength wins / arrayLength monthlyReturns * 100)%float
  end.

(** ** CSV export and import

    A string is the sequence of its code units.  The functions below
    single out the comma, the double quote and the line feed only, which
    are one unit (one byte) each in every encoding in use. *)

Definition dquote : ascii := ascii_of_nat 34.
Definition comma : ascii := ascii_of_nat 44.
Definition newline : ascii := ascii_of_nat 10.

(** [s.includes(c)] for a one-character [c]. *)
Fixpoint includes (c : ascii) (s : string) : bool :=
  match s with
  | EmptyString => false
  | String c' s' => Ascii.eqb c' c || includes c s'
  end.

(** The global [replace] of [escapeCSV]: every double quote is doubled. *)
Fixpoint doubleQuotes (s : string) : string :=
  match s with
  | EmptyString => EmptyString
  | String c s' =>
      if Ascii.eqb c dquote
      then String dquote (String dquote (doubleQuotes s'))
      else String c (doubleQuotes s')
  end.

(** [escapeCSV] on the text [String(str)] of its argument, [None] when the
    argument is [undefined]. *)
Definition escapeCSV (str : option string) : string :=
  match str with
  | None => ""
  | Some stringValue =>
      if includes comma stringValue || includes dquote stringValue
         || includes newline stringValue
      then String dquote (doubleQuotes stringValue ++ String dquote "")
      else stringValue
  end.

(** [a.join(sep)] *)
Fixpoint join (sep : string) (a : list string) : string :=
  match a with
  | [] => ""
  | [s] => s
  | s :: rest => s ++ sep ++ join sep rest
  end.

Definition typeName (t : TransactionType) : string :=
  match t with
  | BUY => "BUY" | SELL => "SELL" | DEPOSIT => "DEPOSIT"
  | WITHDRAW => "WITHDRAW" | DIVIDEND => "DIVIDEND" | SPLIT => "SPLIT"
  end.

Definition assetClassName (c : AssetClass) : string :=
  match c with
  | STOCK => "Stock" | CRYPTO => "Crypto" | FUND => "Fund" | ETF => "ETF"
  | BOND => "Bond" | REAL_ESTATE => "Real Estate" | GOLD => "Gold"
  | CASH => "Cash"
  end.

Definition csvHeaders : list string :=
  ["ID"; "Date"; "Type"; "Symbol"; "Shares"; "Price"; "Fee"; "Asset Class";
   "Exchange Rate"; "Notes"; "Total Value"].

Section CsvExport.
(** [String(n)] on a number. *)
Variable showNumber : float -> string.

Definition totalValue (t : Transaction) : float :=
  if Js.truthy (toNumber (tx_shares t))
     && (isType (tx_type t) BUY || isType (tx_type t) SELL)
  then (toNumber (tx_shares t) * Js.orNum (tx_price t) 0)%float
  else Js.orNum (tx_price t) 0.

(** The arguments of the eleven calls of [escapeCSV] for one record. *)
Definition csvCells (t : Transaction) : list (option string) :=
  [ Some (tx_id t);
    Some (tx_date t);
    Some (typeName (tx_type t));
    tx_symbol t;
    option_map showNumber (tx_shares t);
    option_map showNumber (tx_price t);
    option_map showNumber (tx_fee t);
    option_map assetClassName (tx_assetClass t);
    option_map showNumber (tx_exchangeRate t);
    tx_notes t;
    Some (showNumber (totalValue t)) ].

Definition csvRow (t : Transaction) : string :=
  join "," (map escapeCSV (csvCells t)).

Definition transactionsToCSV (transactions : list Transaction) : string :=
  join (String newline "") (join "," csvHeaders :: map csvRow transactions).

End CsvExport.

(** The loop of [parseCSVLine] from position [i] on: [text] is what is left
    of the line at [i]. *)
Fixpoint parseFrom (text : string) (result : list string) (curVal : string)
  (inQuote : bool) : list string :=
  match text with
  | EmptyString => result ++ [curVal]
  | String char rest =>
      if inQuote then
        if Ascii.eqb char dquote then
          match rest with
          | String next rest' =>
              if Ascii.eqb next dquote
              then parseFrom rest' result (curVal ++ String dquote "") true
              else parseFrom rest result curVal false
          | EmptyString => parseFrom rest result curVal false
          end
        else parseFrom rest result (curVal ++ String char "") true
      else
        if Ascii.eqb char dquote then parseFrom rest result curVal true
        else if Ascii.eqb char comma
        then parseFrom rest (result ++ [curVal]) "" false
        else parseFrom rest result (curVal ++ String char "") false
  end.

Definition parseCSVLine (text : string) : list string :=
  parseFrom text [] "" false.


(** * Notions used to state the properties *)

(** The invested capital recorded by the point emitted before the [i]-th
    one; [0] before the first. *)
Definition investedBefore (pts : list ChartDataPoint) (i : nat) : float :=
  match i with
  | O => 0%float
  | S j => match nth_error pts j with
           | Some p => p_invested p
           | None => 0%float
           end
  end.

(** ** Dates that parse *)

(** The instant a date stands for; the epoch stands in for an Invalid
    Date, which has none. *)
Definition instantOf (d : option JsDate) : JsDate :=
  match d with
  | Some d => d
  | None => {| monthIdx := 0; sinceMonthStart := 0 |}
  end.

(** [a] comes no later than [b]. *)
Definition notLater {A : Type} (dateOf : A -> option JsDate) (a b : A)
  : bool :=
  dateLeb (instantOf (dateOf a)) (instantOf (dateOf b)).

(** The date of a record. *)
Definition txDate (parseDate : string -> option JsDate) (tx : Transaction)
  : option JsDate :=
  parseDate (tx_date tx).

(** Every record of the ledger carries a date that parses. *)
Definition datesValid (parseDate : string -> option JsDate)
  (l : list Transaction) : bool :=
  forallb (dated (txDate parseDate)) l.

(** A list of dated records in non-decreasing date order. *)
Definition chronological (parseDate : string -> option JsDate)
  (l : list Transaction) : Prop :=
  datesValid parseDate l = true
  /\ StronglySorted (fun a b => notLater (txDate parseDate) a b = true) l.

(** The running sum of deposits minus withdrawals over a list of records,
    taken from left to right. *)
Definition netContributed (l : list Transaction) : float :=
  fold_left investedAfter l 0%float.

(** Three deposits entered newest first. *)
Definition depositsNewestFirst : list Transaction :=
  [ mkTx "2024-01-03" DEPOSIT None None (Some 0.3%float) None;
    mkTx "2024-01-02" DEPOSIT None None (Some 0.2%float) None;
    mkTx "2024-01-01" DEPOSIT None None (Some 0.1%float) None ].

(** Scenario 4 of the specification: two deposits in date order. *)
Definition twoDeposits : list Transaction :=
  [ mkTx "2024-01-01" DEPOSIT None None (Some 1000%float) None;
    mkTx "2024-02-01" DEPOSIT None None (Some 500%float) None ].

(** Every accumulator is stored under its own symbol, once. *)
Definition wellKeyed (m : Obj.t Holding) : Prop :=
  NoDup (map fst m) /\ Forall (fun kv => h_symbol (snd kv) = fst kv) m.

(** ** Binary64 values, on the specification side *)

(** A zero, a finite number or an infinity of sign [s]. *)
Definition hasSign (s : bool) (x : spec_float) : Prop :=
  match x with
  | S754_zero s' | S754_infinity s' | S754_finite s' _ _ => s' = s
  | S754_nan => False
  end.

(** Non-negative values: the zeros, the positive finite numbers and
    [+Infinity]. *)
Definition nonnegSF (x : spec_float) : Prop :=
  match x with
  | S754_zero _ | S754_infinity false | S754_finite false _ _ => True
  | _ => False
  end.

(** ** Ledgers used as worked examples *)

(** A BUY recorded without a share count, then a dividend on the same
    symbol. *)
Definition buyWithoutShares : list Transaction :=
  [ mkTx "2024-01-02" BUY (Some "X") None (Some 10%float) None;
    mkTx "2024-01-03" DIVIDEND (Some "X") None (Some 5%float) None ].

(** The same with a share count of 0, as the CSV import writes it, and a
    fee. *)
Definition buyZeroSharesWithFee : list Transaction :=
  [ mkTx "2024-01-02" BUY (Some "X") (Some 0%float) (Some 10%float)
         (Some 1%float);
    mkTx "2024-01-03" DIVIDEND (Some "X") None (Some 5%float) None ].

(** Scenario 3 of the specification: a purchase followed by a 2-for-1
    split. *)
Definition buyThenSplit : list Transaction :=
  [ mkTx "2024-01-02" BUY (Some "X") (Some 10%float) (Some 50%float) None;
    mkTx "2024-02-01" SPLIT (Some "X") (Some 2%float) (Some 0%float) None ].

(** Scenario 2 of the specification, continued by the sale of the five
    remaining shares. *)
Definition buySellAll : list Transaction :=
  [ mkTx "2024-01-01" DEPOSIT None None (Some 2000%float) None;
    mkTx "2024-01-02" BUY (Some "AAPL") (Some 10%float) (Some 100%float) (Some 0%float);
    mkTx "2024-01-03" SELL (Some "AAPL") (Some 5%float) (Some 120%float) (Some 0%float);
    mkTx "2024-01-04" SELL (Some "AAPL") (Some 5%float) (Some 120%float) (Some 0%float) ].



(** ** Monthly snapshots, as the specification words them *)

Section MonthlySpec.
Variable parseDate : string -> option JsDate.
Variable now : JsDate.










End MonthlySpec.




(** ** Real values of binary64 numbers *)

Definition bpow (e : Z) : R := powerRZ 2 e.

(** The value of the mantissa [m] at exponent [e]. *)
Definition F2R (m e : Z) : R := (IZR m * bpow e)%R.

Definition SF2R (x : spec_float) : R :=
  match x with
  | S754_finite s m e => if s then (- F2R (Z.pos m) e)%R else F2R (Z.pos m) e
  | _ => 0%R
  end.

(** A zero or a positive finite number. *)
Definition finNonneg (x : spec_float) : Prop :=
  match x with
  | S754_zero _ | S754_finite false _ _ => True
  | _ => False
  end.

(** A representable zero or positive finite number. *)
Definition validNonneg (prec emax : Z) (x : spec_float) : Prop :=
  SpecFloat.valid_binary prec emax x = true /\ finNonneg x.

(** [r] is a zero or a positive finite number not above [y]. *)
Definition belowSF (r y : spec_float) : Prop :=
  finNonneg r /\ (SF2R r <= SF2R y)%R.

(** Bits were lost on the way to the truncated mantissa. *)
Definition inexact (mrs : shr_record) : bool := shr_r mrs || shr_s mrs.

(** ** Timelines used as worked examples *)

(** Scenario 5 of the specification. *)
Definition peakThenTrough : list ChartDataPoint :=
  [ mkPoint "2024-01-01" 100 100; mkPoint "2024-02-01" 100 150;
    mkPoint "2024-03-01" 100 90; mkPoint "2024-04-01" 100 120 ].

(** A value that falls below zero after a positive peak, as after an
    overdraft. *)
Definition peakThenOverdraft : list ChartDataPoint :=
  [ mkPoint "2024-01-01" 100 100; mkPoint "2024-02-01" 100 (-50) ].

(** A ledger that produces such a timeline: a withdrawal larger than the
    deposit, which the core does not reject. *)
Definition overdraftLedger : list Transaction :=
  [ mkTx "2024-01-01" DEPOSIT None None (Some 100%float) None;
    mkTx "2024-02-01" WITHDRAW None None (Some 150%float) None ].

(** No point of the timeline has a negative value. *)
Definition noNegativeValue (chartData : list ChartDataPoint) : Prop :=
  Forall (fun p => (p_value p <? 0)%float = false) chartData.

(** ** Ledgers and timelines with a date that does not parse *)

(** A sale, then a purchase of an earlier date, with a record without
    symbol and without date entered in between. *)
Definition undatedInBetween : list Transaction :=
  [ mkTx "2024-01-03" SELL (Some "X") (Some 5%float) (Some 12%float) None;
    mkTx "" BUY None (Some 1%float) (Some 1%float) None;
    mkTx "2024-01-01" BUY (Some "X") (Some 5%float) (Some 10%float) None ].

(** The same ledger without the record in between. *)
Definition saleBeforePurchase : list Transaction :=
  [ mkTx "2024-01-03" SELL (Some "X") (Some 5%float) (Some 12%float) None;
    mkTx "2024-01-01" BUY (Some "X") (Some 5%float) (Some 10%float) None ].





(** ** Share counts that are not finite *)

(** A purchase and a sale of an infinite number of shares. *)
Definition infiniteShares : list Transaction :=
  [ mkTx "2024-01-02" BUY (Some "X") (Some infinity) (Some 10%float) None;
    mkTx "2024-01-03" SELL (Some "X") (Some infinity) (Some 10%float) None ].



(** ** The valuation of the trailing point *)

(** The price a position is valued at now: the current price of its
    symbol when one is supplied that is neither 0 nor [NaN], else the
    price of its last trade. *)
Definition quoteOf (currentPrices : PriceMap) (symbol : string)
  (h : Position) : float :=
  match currentPrices symbol with
  | Some p => if Js.truthy p then p else pos_lastPrice h
  | None => pos_lastPrice h
  end.

(** The positions at these prices, in the order of enumeration. *)
Definition positionValues (currentPrices : PriceMap)
  (holdings : Obj.t Position) : list float :=
  map (fun kv => (pos_shares (snd kv)
                  * quoteOf currentPrices (fst kv) (snd kv))%float)
      (Obj.entries holdings).

(** The sum of a list of numbers, from left to right. *)
Definition sumOf (l : list float) : float :=
  fold_left (fun acc x => (acc + x)%float) l 0%float.

(** A deposit followed by the purchase of ten shares of [X] at 50. *)
Definition depositThenPurchase : list Transaction :=
  [ mkTx "2024-01-01" DEPOSIT None None (Some 1000%float) None;
    mkTx "2024-01-02" BUY (Some "X") (Some 10%float) (Some 50%float) None ].

(** A market in which the price of [X] is reported as 0. *)
Definition xReportedAtZero : PriceMap :=
  fun sym => if String.eqb sym "X" then Some 0%float else None.

(** ** Notions used by the further properties *)

(** The records that name the symbol [sym]. *)
Definition ofSymbol (sym : string) (t : Transaction) : bool :=
  match tx_symbol t with
  | Some s => String.eqb s sym
  | None => false
  end.

(** The date and the invested capital of the timeline points of the
    deposits and withdrawals, in the order of the replay. *)
Definition timelineAtFunding (parseDate : string -> option JsDate)
  (engine : Engine) (transactions : list Transaction) (prices : PriceMap)
  : list (string * float) :=
  map (fun tp => (p_date (snd tp), p_invested (snd tp)))
      (filter (fun tp => isFunding (fst tp))
         (combine (sortTx parseDate engine transactions)
            (calculatePortfolioHistory parseDate engine transactions prices))).

(** A BUY or a SELL names a symbol and carries a price and a share count
    that read the same with [!] and with [|| 0]: they are present and are
    neither [NaN] nor [-0]. *)
Definition completeTrade (t : Transaction) : Prop :=
  match tx_type t with
  | BUY | SELL =>
      Js.truthyStr (tx_symbol t) = true
      /\ toNumber (tx_price t) = Js.orNum (tx_price t) 0
      /\ toNumber (tx_shares t) = Js.orNum (tx_shares t) 0
  | DEPOSIT | WITHDRAW | DIVIDEND | SPLIT => True
  end.

(** The text a cell stands for: an absent value is written as the empty
    text. *)
Definition cellText (c : option string) : string :=
  match c with
  | Some s => s
  | None => ""
  end.

(** ** Grouping by a prefix of the date *)

(** The year, [date.substring(0, 4)], and the month,
    [date.substring(0, 7)], a record is filed under. *)
Definition txYear (t : Transaction) : string :=
  String.substring 0 4 (tx_date t).

Definition txMonth (t : Transaction) : string :=
  String.substring 0 7 (tx_date t).

Section Grouping.
Context {T V : Type}.
Variable skip : T -> bool.
Variable key : T -> string.
Variable update : string -> option V -> T -> V.

(** The shape the grouping loops share: a record that is not skipped
    replaces the entry of its key by an update of that entry. *)
Definition groupStep (m : Obj.t V) (t : T) : Obj.t V :=
  if skip t then m
  else Obj.set (key t) (update (key t) (Obj.get (key t) m) t) m.

End Grouping.

(** The loop of [getYearlyDividends] and of [getMonthlyDividends], with
    the prefix of the date as a parameter. *)
Definition dividendStep (key : Transaction -> string)
  : Obj.t float -> Transaction -> Obj.t float :=
  groupStep (fun _ : Transaction => false) key
    (fun (_ : string) (o : option float) (t : Transaction) =>
       (Js.orNum o 0 + Js.orNum (tx_price t) 0)%float).

(** The entry of a month after one more record. *)
Definition activityUpdate (ym : string) (g : option MonthlyActivity)
  (tx : Transaction) : MonthlyActivity :=
  addActivity (match g with Some g => g | None => emptyActivity ym end) tx.

(** The records counted in the month [ym]. *)
Definition inMonth (ym : string) (t : Transaction) : bool :=
  negb (undated t) && String.eqb (txMonth t) ym.

(** The sum of the transaction counts of a report. *)
Definition totalCount (report : list MonthlyActivity) : N :=
  fold_right (fun g s => (ma_transactionCount g + s)%N) 0%N report.

(** ** Timelines *)

(** No point is valued below an earlier one. *)
Definition neverFalls (chartData : list ChartDataPoint) : Prop :=
  StronglySorted (fun a b => (p_value a <=? p_value b)%float = true) chartData.

(** A timeline that only rises or stays. *)
Definition risingTimeline : list ChartDataPoint :=
  [ mkPoint "2024-01-01" 100 100; mkPoint "2024-02-01" 100 150;
    mkPoint "2024-03-01" 100 150; mkPoint "2024-04-01" 100 200 ].

(** ** Funding without exchange rates *)

(** The record carries no exchange rate, or the rate 1: [tx.exchangeRate
    || 1] is 1. *)
Definition noExchangeRate (tx : Transaction) : Prop :=
  Js.orNum (tx_exchangeRate tx) 1 = 1%float.

(** ** Monthly returns used as worked examples *)

Definition twoWinsOneLoss : list MonthlyReturnData :=
  [ {| r_yearMonth := "2024-01"; r_value := 1.5; r_pnl := 15 |};
    {| r_yearMonth := "2024-02"; r_value := (-2); r_pnl := (-20) |};
    {| r_yearMonth := "2024-03"; r_value := 3; r_pnl := 30 |} ].

(** Two deposits and a withdrawal entered without exchange rate. *)
Definition fundingWithoutRates : list Transaction :=
  [ mkTx "2024-01-01" DEPOSIT None None (Some 1000%float) None;
    mkTx "2024-02-01" DEPOSIT None None (Some 0.1%float) None;
    mkTx "2024-03-01" WITHDRAW None None (Some 250.5%float) None ].

(** ** Positions used as worked examples *)

(** The prices of a market in which [X] trades at 20. *)
Definition xAtTwenty : PriceMap :=
  fun sym => if String.eqb sym "X" then Some 20%float else None.

(** ** Months *)


(** The deposits of a ledger. *)
Definition isDeposit (t : Transaction) : bool := isType (tx_type t) DEPOSIT.

(** The amounts of the deposits, added up in ledger order. *)
Definition depositsTotal (txs : list Transaction) : float :=
  fold_left (fun sum t => (sum + Js.orNum (tx_price t) 0)%float)
            (filter isDeposit txs) 0%float.

(** Deposits that add up to [Infinity]. *)
Definition hugeDeposits : list Transaction :=
  [ mkTx "2024-01-01" DEPOSIT None None (Some 1e308%float) None;
    mkTx "2024-02-01" DEPOSIT None None (Some 1e308%float) None ].

(** A ledger without any deposit. *)
Definition withdrawalOnly : list Transaction :=
  [ mkTx "2024-03-01" WITHDRAW None None (Some 250.5%float) None ].

(** ** What the ledger alone determines *)

(** A position without the figures that depend on the current prices and
    on the targets. *)
Definition ledgerPart (h : Holding) : Holding :=
  {| h_symbol := h_symbol h; h_name := h_name h;
     h_assetClass := h_assetClass h; h_sector := h_sector h;
     h_shares := h_shares h; h_avgCost := h_avgCost h;
     h_totalCost := h_totalCost h;
     h_currentPrice := 0; h_marketValue := 0; h_unrealizedPL := 0;
     h_unrealizedPLPercent := 0;
     h_realizedPL := h_realizedPL h;
     h_totalDividends := h_totalDividends h;
     h_totalReturn := 0; h_targetAllocation := 0 |}.

(** The map of the accumulators, each reduced to its ledger part. *)
Definition ledgerParts (m : Obj.t Holding) : Obj.t Holding :=
  map (fun kv => (fst kv, ledgerPart (snd kv))) m.

(** Other prices for the market in which [X] trades at 20. *)
Definition xAtThirty : PriceMap :=
  fun sym => if String.eqb sym "X" then Some 30%float else None.

(** ** The dividend report against the activity report *)

(** A dividend record has a full date and an amount that is not
    negative. *)
Definition soundDividend (t : Transaction) : Prop :=
  isDividend t = true ->
  undated t = false /\ (0 <=? Js.orNum (tx_price t) 0)%float = true.

(** The dividend total [grouped] holds for the month [d] is the dividend
    income [groups] holds for it. *)
Definition incomeAgrees (d : string) (grouped : Obj.t float)
  (groups : Obj.t MonthlyActivity) : Prop :=
  match Obj.get d grouped with
  | None =>
      match Obj.get d groups with
      | None => True
      | Some g => ma_dividendIncome g = 0%float
      end
  | Some v =>
      (0 <=? v)%float = true
      /\ exists g, Obj.get d groups = Some g /\ ma_dividendIncome g = v
  end.

(** Dividends of two months, with a purchase in between. *)
Definition dividendsOfTwoMonths : list Transaction :=
  [ mkTx "2024-01-10" DIVIDEND (Some "X") None (Some 5%float) None;
    mkTx "2024-01-20" BUY (Some "X") (Some 1%float) (Some 50%float) None;
    mkTx "2024-01-25" DIVIDEND (Some "Y") None (Some 0.1%float) None;
    mkTx "2024-02-10" DIVIDEND (Some "X") None (Some 0.2%float) None ].

(** ** Ledgers before the first trade *)

(** A deposit or a withdrawal that names no symbol. *)
Definition plainFunding (t : Transaction) : Prop :=
  isFunding t = true /\ Js.truthyStr (tx_symbol t) = false.

(** Months that are all gains, and months that are all losses. *)
Definition allGains : list MonthlyReturnData :=
  [ {| r_yearMonth := "2024-01"; r_value := 1.5; r_pnl := 15 |};
    {| r_yearMonth := "2024-02"; r_value := 0.1; r_pnl := 1 |};
    {| r_yearMonth := "2024-03"; r_value := 3; r_pnl := 30 |} ].

Definition allLosses : list MonthlyReturnData :=
  [ {| r_yearMonth := "2024-01"; r_value := (-1.5); r_pnl := (-15) |};
    {| r_yearMonth := "2024-02"; r_value := 0; r_pnl := 0 |};
    {| r_yearMonth := "2024-03"; r_value := (-3); r_pnl := (-30) |} ].


(** * Properties *)

Local Open Scope list_scope.

(** ** The stable sort *)

Section SortFacts.
Context {A : Type}.
Variable le : A -> A -> bool.
Hypothesis le_total : forall x y, le x y = false -> le y x = true.
Hypothesis le_trans : forall x y z, le x y = true -> le y z = true -> le x z = true.

Lemma insertBy_perm (x : A) (l : list A) :
  Permutation (insertBy le x l) (x :: l).
Proof.
  induction l as [|y l IH]; simpl; [reflexivity|].
  destruct (le x y); [reflexivity|].
  rewrite IH. apply perm_swap.
Qed.

Lemma sortBy_perm (l : list A) : Permutation (sortBy le l) l.
Proof.
  induction l as [|x l IH]; simpl; [constructor|].
  rewrite insertBy_perm. now constructor.
Qed.

Lemma sortBy_length (l : list A) : List.length (sortBy le l) = List.length l.
Proof. apply Permutation_length, sortBy_perm. Qed.

Lemma insertBy_sorted (x : A) (l : list A) :
  StronglySorted (fun x y => le x y = true) l -> StronglySorted (fun x y => le x y = true) (insertBy le x l).
Proof.
  induction 1 as [|y l Hs IH Hy]; simpl.
  - repeat constructor.
  - destruct (le x y) eqn:E.
    + constructor; [now constructor|].
      constructor; [exact E|].
      rewrite Forall_forall in *. intros z Hz.
      apply (le_trans x y z E). now apply Hy.
    + constructor; [exact IH|].
      rewrite Forall_forall in *. intros z Hz.
      apply (Permutation_in _ (insertBy_perm x l)) in Hz.
      destruct Hz as [<-|Hz]; [now apply le_total | now apply Hy].
Qed.

Lemma sortBy_sorted (l : list A) : StronglySorted (fun x y => le x y = true) (sortBy le l).
Proof.
  induction l as [|x l IH]; simpl; [constructor | now apply insertBy_sorted].
Qed.

(** Inserting in front of a list whose elements all follow [x]. *)
Lemma insertBy_front (x : A) (l : list A) :
  Forall ((fun y => le x y = true)) l -> insertBy le x l = x :: l.
Proof.
  destruct 1 as [|y l Hy _]; simpl; [reflexivity|].
  simpl in Hy. now rewrite Hy.
Qed.

(** A list already in order is left as it is. *)
Lemma sortBy_sorted_id (l : list A) :
  StronglySorted (fun x y => le x y = true) l -> sortBy le l = l.
Proof.
  induction 1 as [|x l Hs IH Hx]; simpl; [reflexivity|].
  rewrite IH. now apply insertBy_front.
Qed.

(** Stability, in the form used below: sorting commutes with dropping
    records. *)
Lemma filter_insertBy (P : A -> bool) (x : A) (l : list A) :
  StronglySorted (fun x y => le x y = true) l ->
  filter P (insertBy le x l)
  = if P x then insertBy le x (filter P l) else filter P l.
Proof.
  induction 1 as [|y l Hs IH Hy]; simpl.
  - now destruct (P x).
  - destruct (le x y) eqn:E; simpl.
    + destruct (P x) eqn:Px, (P y) eqn:Py; simpl; rewrite ?E; try reflexivity.
      symmetry. apply insertBy_front.
      rewrite Forall_forall in *. intros z Hz.
      apply filter_In in Hz. destruct Hz as [Hz _].
      eapply le_trans; [exact E | now apply Hy].
    + rewrite IH.
      destruct (P x) eqn:Px, (P y) eqn:Py; simpl; rewrite ?E; reflexivity.
Qed.

Lemma filter_sortBy (P : A -> bool) (l : list A) :
  filter P (sortBy le l) = sortBy le (filter P l).
Proof.
  induction l as [|x l IH]; simpl; [reflexivity|].
  rewrite filter_insertBy by apply sortBy_sorted.
  destruct (P x); simpl; now rewrite IH.
Qed.

End SortFacts.

(** The order on dates is a total preorder. *)

Lemma dateLeb_total (a b : JsDate) : dateLeb a b = false -> dateLeb b a = true.
Proof.
  unfold dateLeb.
  rewrite orb_false_iff, andb_false_iff, orb_true_iff, andb_true_iff.
  rewrite !Z.ltb_lt, !Z.ltb_ge, !Z.eqb_eq, !Z.eqb_neq, !N.leb_le, !N.leb_gt.
  lia.
Qed.

Lemma dateLeb_trans (a b c : JsDate) :
  dateLeb a b = true -> dateLeb b c = true -> dateLeb a c = true.
Proof.
  unfold dateLeb.
  rewrite !orb_true_iff, !andb_true_iff.
  rewrite !Z.ltb_lt, !Z.eqb_eq, !N.leb_le.
  lia.
Qed.

Lemma notAfter_dateCompare (a b : JsDate) :
  notAfter (dateCompare a b) = dateLeb a b.
Proof.
  unfold dateCompare, dateLtb, dateLeb.
  destruct (Z.ltb_spec (monthIdx a) (monthIdx b));
    destruct (Z.ltb_spec (monthIdx b) (monthIdx a));
    destruct (Z.eqb_spec (monthIdx a) (monthIdx b));
    destruct (Z.eqb_spec (monthIdx b) (monthIdx a));
    destruct (N.ltb_spec (sinceMonthStart a) (sinceMonthStart b));
    destruct (N.ltb_spec (sinceMonthStart b) (sinceMonthStart a));
    destruct (N.leb_spec (sinceMonthStart a) (sinceMonthStart b));
    simpl; try reflexivity; lia.
Qed.

(** Two orders that agree on the elements of a list sort it alike. *)
Lemma sortBy_agree {A : Type} (le le' : A -> A -> bool) (l : list A) :
  (forall a b, In a l -> In b l -> le a b = le' a b) ->
  sortBy le l = sortBy le' l.
Proof.
  induction l as [|x l IH]; intros H; simpl; [reflexivity|].
  rewrite <- IH by (intros a b Ha Hb; apply H; now right).
  assert (Hl : forall y, In y (sortBy le l) -> le x y = le' x y).
  { intros y Hy. apply H; [now left|right].
    exact (Permutation_in _ (sortBy_perm le l) Hy). }
  revert Hl. generalize (sortBy le l). intros s.
  induction s as [|y s IHs]; intros Hl; simpl; [reflexivity|].
  rewrite <- (Hl y) by now left.
  destruct (le x y); [reflexivity|].
  f_equal. apply IHs. intros z Hz. apply Hl. now right.
Qed.

(** Dropping elements from two arrangements of the same elements leaves
    two arrangements of the same elements. *)
Lemma filter_rearranged {A : Type} (keep : A -> bool) (xs ys : list A)
  (Hxy : Permutation xs ys) :
  Permutation (filter keep xs) (filter keep ys).
Proof.
  induction Hxy as [|x xs ys _ IH|x y xs|xs ys zs _ IH1 _ IH2]; simpl.
  - constructor.
  - destruct (keep x); [now constructor | exact IH].
  - destruct (keep x), (keep y); try reflexivity. apply perm_swap.
  - now rewrite IH1.
Qed.

Section SortByDateFacts.
Context {A : Type}.
Variable engine : Engine.
Variable dateOf : A -> option JsDate.

Lemma notLater_total (a b : A) :
  notLater dateOf a b = false -> notLater dateOf b a = true.
Proof. apply dateLeb_total. Qed.

Lemma notLater_trans (a b c : A) :
  notLater dateOf a b = true -> notLater dateOf b c = true ->
  notLater dateOf a c = true.
Proof. apply dateLeb_trans. Qed.

Lemma dated_instant (a : A) :
  dated dateOf a = true -> dateOf a = Some (instantOf (dateOf a)).
Proof. unfold dated. now destruct (dateOf a). Qed.

(** On dated elements the comparator of the source is the order of the
    instants. *)
Lemma byDate_notLater (a b : A) :
  dated dateOf a = true -> dated dateOf b = true ->
  notAfter (byDate dateOf a b) = notLater dateOf a b.
Proof.
  unfold dated, byDate, notLater.
  destruct (dateOf a), (dateOf b); try discriminate.
  intros _ _. apply notAfter_dateCompare.
Qed.

(** When every date parses, the source sorts by instant, stably. *)
Lemma sortByDate_dated (l : list A) :
  forallb (dated dateOf) l = true ->
  sortByDate engine dateOf l = sortBy (notLater dateOf) l.
Proof.
  intros Hl. unfold sortByDate. rewrite Hl.
  apply sortBy_agree. rewrite forallb_forall in Hl.
  intros a b Ha Hb. apply byDate_notLater; now apply Hl.
Qed.

Lemma sortByDate_perm (l : list A) :
  Permutation (sortByDate engine dateOf l) l.
Proof.
  unfold sortByDate. destruct (forallb _ l);
    [apply sortBy_perm | apply arrange_perm].
Qed.

Lemma sortByDate_length (l : list A) :
  List.length (sortByDate engine dateOf l) = List.length l.
Proof. apply Permutation_length, sortByDate_perm. Qed.

Lemma sortByDate_sorted (l : list A) :
  forallb (dated dateOf) l = true ->
  StronglySorted (fun a b => notLater dateOf a b = true)
                 (sortByDate engine dateOf l).
Proof.
  intros Hl. rewrite sortByDate_dated by exact Hl.
  apply sortBy_sorted; [apply notLater_total | apply notLater_trans].
Qed.

Lemma dated_filter (P : A -> bool) (l : list A) :
  forallb (dated dateOf) l = true ->
  forallb (dated dateOf) (filter P l) = true.
Proof.
  rewrite !forallb_forall. intros Hl a Ha.
  apply filter_In in Ha. now apply Hl.
Qed.

Lemma dated_perm (l l' : list A) :
  Permutation l l' ->
  forallb (dated dateOf) l = true -> forallb (dated dateOf) l' = true.
Proof.
  rewrite !forallb_forall. intros Hp Hl a Ha.
  apply Hl. exact (Permutation_in _ (Permutation_sym Hp) Ha).
Qed.

Lemma filter_sortByDate (P : A -> bool) (l : list A) :
  forallb (dated dateOf) l = true ->
  filter P (sortByDate engine dateOf l)
  = sortByDate engine dateOf (filter P l).
Proof.
  intros Hl. rewrite !sortByDate_dated by (try apply dated_filter; exact Hl).
  apply filter_sortBy; [apply notLater_total | apply notLater_trans].
Qed.

Lemma sortByDate_sorted_id (l : list A) :
  forallb (dated dateOf) l = true ->
  StronglySorted (fun a b => notLater dateOf a b = true) l ->
  sortByDate engine dateOf l = l.
Proof.
  intros Hl Hs. rewrite sortByDate_dated by exact Hl.
  now apply sortBy_sorted_id.
Qed.

End SortByDateFacts.

Section LedgerOrder.
Variable parseDate : string -> option JsDate.
Variable engine : Engine.

Lemma sortTx_perm (l : list Transaction) :
  Permutation (sortTx parseDate engine l) l.
Proof. apply sortByDate_perm. Qed.

Lemma sortTx_length (l : list Transaction) :
  List.length (sortTx parseDate engine l) = List.length l.
Proof. apply sortByDate_length. Qed.

Lemma datesValid_filter (P : Transaction -> bool) (l : list Transaction) :
  datesValid parseDate l = true -> datesValid parseDate (filter P l) = true.
Proof. apply dated_filter. Qed.

Lemma datesValid_sortTx (l : list Transaction) :
  datesValid parseDate l = true ->
  datesValid parseDate (sortTx parseDate engine l) = true.
Proof. apply dated_perm, Permutation_sym, sortTx_perm. Qed.

Lemma sortTx_sorted (l : list Transaction) :
  datesValid parseDate l = true ->
  chronological parseDate (sortTx parseDate engine l).
Proof.
  intros Hl. split; [now apply datesValid_sortTx|].
  now apply (sortByDate_sorted engine (txDate parseDate)).
Qed.

Lemma filter_sortTx (P : Transaction -> bool) (l : list Transaction) :
  datesValid parseDate l = true ->
  filter P (sortTx parseDate engine l)
  = sortTx parseDate engine (filter P l).
Proof. apply (filter_sortByDate engine (txDate parseDate)). Qed.

(** A ledger kept in date order is replayed as it stands. *)
Lemma sortTx_chronological (l : list Transaction) :
  chronological parseDate l -> sortTx parseDate engine l = l.
Proof.
  intros [Hl Hs]. now apply (sortByDate_sorted_id engine (txDate parseDate)).
Qed.

End LedgerOrder.

(** ** Binary64 arithmetic through its specification

    [Prim2SF] maps a primitive float to its IEEE description
    ([SpecFloat.spec_float]); the operations are specified on that side. *)

Lemma SFcompare_refl (s : spec_float) :
  s <> S754_nan -> SFcompare s s = Some Eq.
Proof.
  destruct s as [[]|[]| |[] m e]; simpl; try easy;
    now rewrite Z.compare_refl, Pos.compare_cont_refl.
Qed.

Lemma is_nan_spec (x : float) :
  is_nan x = true <-> Prim2SF x = S754_nan.
Proof.
  unfold is_nan. rewrite eqb_spec. unfold SFeqb. split.
  - intros H. destruct (Prim2SF x) eqn:E; try reflexivity;
      rewrite SFcompare_refl in H by discriminate; discriminate.
  - now intros ->.
Qed.

Lemma is_nan_false_spec (x : float) :
  is_nan x = false <-> Prim2SF x <> S754_nan.
Proof.
  rewrite <- is_nan_spec. now destruct (is_nan x).
Qed.

Lemma Prim2SF_zero : Prim2SF 0 = S754_zero false.
Proof. reflexivity. Qed.

Lemma Prim2SF_infinity : Prim2SF infinity = S754_infinity false.
Proof. reflexivity. Qed.

(** [0 <= x], on the specification side. *)
Lemma leb_zero_spec (x : float) :
  (0 <=? x)%float
  = match Prim2SF x with
    | S754_zero _ | S754_infinity false | S754_finite false _ _ => true
    | _ => false
    end.
Proof.
  rewrite leb_spec, Prim2SF_zero.
  now destruct (Prim2SF x) as [[]|[]| |[] m e].
Qed.

(** [0 < x], on the specification side. *)
Lemma ltb_zero_spec (x : float) :
  (0 <? x)%float
  = match Prim2SF x with
    | S754_infinity false | S754_finite false _ _ => true
    | _ => false
    end.
Proof.
  rewrite ltb_spec, Prim2SF_zero.
  now destruct (Prim2SF x) as [[]|[]| |[] m e].
Qed.

Lemma is_finite_spec (x : float) :
  is_finite x
  = match Prim2SF x with
    | S754_zero _ | S754_finite _ _ _ => true
    | _ => false
    end.
Proof.
  unfold is_finite, is_infinity.
  destruct (is_nan x) eqn:En.
  - apply is_nan_spec in En. now rewrite En.
  - apply is_nan_false_spec in En. simpl.
    rewrite eqb_spec, abs_spec, Prim2SF_infinity.
    now destruct (Prim2SF x) as [[]|[]| |[] m e].
Qed.

(** *** Signs through rounding *)

Section Signs.
Variables prec emax : Z.

Lemma iter_pos_invariant {A : Type} (P : A -> Prop) (f : A -> A) :
  (forall x, P x -> P (f x)) ->
  forall (n : positive) (x : A), P x -> P (iter_pos f n x).
Proof.
  intros Hf. induction n as [n IH|n IH|]; intros x Hx; simpl; auto.
Qed.

Lemma shr_1_nonneg (mrs : shr_record) :
  0 <= shr_m mrs -> 0 <= shr_m (shr_1 mrs).
Proof.
  destruct mrs as [m r s]. simpl.
  destruct m as [|[p|p|]|p]; simpl; lia.
Qed.

Lemma shr_nonneg (mrs : shr_record) (e n : Z) :
  0 <= shr_m mrs -> 0 <= shr_m (fst (shr mrs e n)).
Proof.
  intros H. destruct n as [|p|p]; simpl; auto.
  now apply (iter_pos_invariant (fun r => 0 <= shr_m r)), H; apply shr_1_nonneg.
Qed.

Lemma shr_fexp_nonneg (m e : Z) (l : location) :
  0 <= m -> 0 <= shr_m (fst (shr_fexp prec emax m e l)).
Proof.
  intros H. unfold shr_fexp. apply shr_nonneg.
  now destruct l as [|[]].
Qed.

Lemma round_nearest_even_nonneg (m : Z) (l : location) :
  0 <= m -> 0 <= round_nearest_even m l.
Proof.
  destruct l as [|[]]; simpl; try lia.
  destruct (Z.even m); lia.
Qed.

(** The result of rounding a non-negative mantissa carries the requested
    sign. *)
Lemma binary_round_aux_sign (s : bool) (m e : Z) (l : location) :
  0 <= m -> hasSign s (binary_round_aux prec emax s m e l).
Proof.
  intros Hm. unfold binary_round_aux.
  pose proof (shr_fexp_nonneg m e l Hm) as H1.
  destruct (shr_fexp prec emax m e l) as [mrs1 e1]. simpl in H1.
  pose proof (shr_fexp_nonneg _ e1 loc_Exact
                (round_nearest_even_nonneg _ (loc_of_shr_record mrs1) H1)) as H2.
  destruct (shr_fexp prec emax _ e1 loc_Exact) as [mrs2 e2]. simpl in H2.
  destruct (shr_m mrs2) as [|p|p]; simpl; try reflexivity; try lia.
  now destruct (e2 <=? emax - prec).
Qed.

Lemma binary_round_sign (s : bool) (m : positive) (e : Z) :
  hasSign s (binary_round prec emax s m e).
Proof.
  unfold binary_round.
  destruct (shl_align m e _) as [mz ez].
  apply binary_round_aux_sign. lia.
Qed.


Lemma hasSign_nonneg (x : spec_float) : hasSign false x -> nonnegSF x.
Proof. destruct x as [s|s| |s m e]; simpl; try easy; now intros ->. Qed.

Lemma SFmul_nonneg (x y : spec_float) :
  nonnegSF x ->
  match y with S754_finite false _ _ => True | _ => False end ->
  nonnegSF (SFmul prec emax x y).
Proof.
  destruct x as [sx|[]| |[] mx ex]; simpl; try easy;
    destruct y as [sy|sy| |[] my ey]; simpl; try easy; intros _ _.
  apply hasSign_nonneg, binary_round_aux_sign. lia.
Qed.

Lemma SFadd_nonneg (x y : spec_float) :
  nonnegSF x -> nonnegSF y -> nonnegSF (SFadd prec emax x y).
Proof.
  destruct x as [sx|[]| |[] mx ex]; simpl; try easy;
    destruct y as [sy|[]| |[] my ey]; simpl; try easy; intros _ _.
  - now destruct sx, sy.
  - apply hasSign_nonneg, binary_round_sign.
Qed.


(** [x - y] when [x === y] and both are finite. *)
Lemma SFsub_equal (x y : spec_float) :
  SFeqb x y = true ->
  match x with S754_zero _ | S754_finite _ _ _ => True | _ => False end ->
  exists s, SFsub prec emax x y = S754_zero s.
Proof.
  unfold SFeqb.
  destruct x as [sx|sx| |sx mx ex]; simpl; try easy;
    destruct y as [sy|sy| |sy my ey]; simpl; try easy; intros H _;
    try (destruct sx; discriminate); try (destruct sy; discriminate).
  - destruct sx, sy; eauto.
  - assert (E : sx = sy /\ ex = ey /\ mx = my).
    { change (Pos.compare_cont Eq mx my) with (Pos.compare mx my) in H.
      destruct sx, sy; try discriminate;
        destruct (Z.compare_spec ex ey) as [->| |]; try discriminate;
        destruct (Pos.compare_spec mx my) as [->| |]; try discriminate;
        auto. }
    destruct E as (-> & -> & ->).
    rewrite Z.sub_diag. simpl. eauto.
Qed.

End Signs.

(** *** Consequences on primitive floats *)

Lemma leb_zero_nonneg (x : float) :
  (0 <=? x)%float = true <-> nonnegSF (Prim2SF x).
Proof.
  rewrite leb_zero_spec.
  destruct (Prim2SF x) as [[]|[]| |[] m e]; simpl; intuition discriminate.
Qed.

Lemma add_nonneg (x y : float) :
  (0 <=? x)%float = true -> (0 <=? y)%float = true ->
  (0 <=? x + y)%float = true.
Proof.
  rewrite !leb_zero_nonneg, add_spec. apply SFadd_nonneg.
Qed.

Lemma mul_nonneg (x r : float) :
  (0 <=? x)%float = true -> (0 <? r)%float = true -> is_finite r = true ->
  (0 <=? x * r)%float = true.
Proof.
  rewrite !leb_zero_nonneg, mul_spec, ltb_zero_spec, is_finite_spec.
  intros Hx Hr Hf. apply SFmul_nonneg; [exact Hx|].
  destruct (Prim2SF r) as [[]|[]| |[] m e]; try discriminate; exact I.
Qed.

Lemma epsilon_spec :
  exists m e, Prim2SF 0.000001 = S754_finite false m e.
Proof. vm_compute. eauto. Qed.


(** Selling exactly what is held leaves a difference below the epsilon. *)
Lemma sub_equal_below_epsilon (x y : float) :
  (x =? y)%float = true -> is_finite x = true ->
  (x - y <? 0.000001)%float = true.
Proof.
  rewrite eqb_spec, is_finite_spec, ltb_spec, sub_spec.
  intros He Hf.
  destruct (SFsub_equal prec emax (Prim2SF x) (Prim2SF y) He) as [s Hs].
  { destruct (Prim2SF x); try discriminate; exact I. }
  unfold SF64sub. rewrite Hs.
  destruct epsilon_spec as (m & e & ->). reflexivity.
Qed.

Lemma leb_zero_not_nan (x : float) :
  (0 <=? x)%float = true -> is_nan x = false.
Proof.
  rewrite leb_zero_nonneg, is_nan_false_spec.
  now destruct (Prim2SF x).
Qed.

(** ** Rounding to nearest, in real terms

    The binary64 operations round the exact result to the nearest
    representable number; the lemmas below follow the algorithms of
    [SpecFloat] to show that a rounded result never passes a representable
    bound of the exact one. *)

Lemma bpow_gt_0 e : (0 < bpow e)%R.
Proof. apply powerRZ_lt. lra. Qed.

Lemma bpow_plus a b : bpow (a + b) = (bpow a * bpow b)%R.
Proof. apply powerRZ_add. lra. Qed.

Lemma bpow_IZR n : 0 <= n -> bpow n = IZR (2 ^ n).
Proof.
  intros Hn. unfold bpow.
  rewrite <- (Z2Nat.id n Hn) at 1.
  rewrite <- pow_powerRZ, pow_IZR. now rewrite Z2Nat.id.
Qed.

Lemma bpow_ge_1 n : 0 <= n -> (1 <= bpow n)%R.
Proof.
  intros Hn. rewrite bpow_IZR by exact Hn. apply IZR_le.
  pose proof (Z.pow_pos_nonneg 2 n). lia.
Qed.

Lemma bpow_le a b : a <= b -> (bpow a <= bpow b)%R.
Proof.
  intros H. replace b with (a + (b - a)) by lia. rewrite bpow_plus.
  pose proof (bpow_gt_0 a). pose proof (bpow_ge_1 (b - a) ltac:(lia)).
  generalize dependent (bpow a). generalize dependent (bpow (b - a)).
  intros; nra.
Qed.

Lemma bpow_lt a b : a < b -> (bpow a < bpow b)%R.
Proof.
  intros H. replace b with (a + 1 + (b - a - 1)) by lia. rewrite !bpow_plus.
  pose proof (bpow_gt_0 a). pose proof (bpow_ge_1 (b - a - 1) ltac:(lia)).
  replace (bpow 1) with 2%R by (unfold bpow; simpl; lra).
  generalize dependent (bpow a). generalize dependent (bpow (b - a - 1)).
  intros; nra.
Qed.

Lemma bpow_lt_inv a b : (bpow a < bpow b)%R -> a < b.
Proof.
  intros H. destruct (Z_lt_le_dec a b) as [|Hle]; [assumption|].
  apply bpow_le in Hle. lra.
Qed.

Lemma digits2_pos_size p : digits2_pos p = Pos.size p.
Proof. induction p; simpl; congruence. Qed.

Lemma Zdigits2_log2 m : 0 < m -> Zdigits2 m = Z.log2 m + 1.
Proof.
  destruct m as [|p|p]; try lia. intros _. simpl.
  rewrite digits2_pos_size. destruct p; simpl; lia.
Qed.

Lemma Zdigits2_bounds m :
  0 < m -> 2 ^ (Zdigits2 m - 1) <= m < 2 ^ Zdigits2 m.
Proof.
  intros Hm. rewrite Zdigits2_log2 by exact Hm.
  replace (Z.log2 m + 1 - 1) with (Z.log2 m) by lia.
  apply Z.log2_spec, Hm.
Qed.


Lemma Zdigits2_unique m d :
  0 < m -> 2 ^ (d - 1) <= m < 2 ^ d -> Zdigits2 m = d.
Proof.
  intros Hm [Hlo Hhi]. rewrite Zdigits2_log2 by exact Hm.
  assert (Hd : 0 < d).
  { destruct (Z_lt_le_dec 0 d) as [|Hle]; [assumption|].
    rewrite (Z.pow_neg_r 2 (d - 1)) in Hlo by lia.
    destruct (Z.eq_dec d 0) as [->|]; [simpl in Hhi; lia|].
    rewrite Z.pow_neg_r in Hhi by lia. lia. }
  rewrite (Z.log2_unique m (d - 1)); [lia | lia |].
  now replace (Z.succ (d - 1)) with d by lia.
Qed.

Lemma Zdigits2_nonneg m : 0 <= Zdigits2 m.
Proof. destruct m; simpl; lia. Qed.

Lemma Zdigits2_pos m : 0 < m -> 0 < Zdigits2 m.
Proof. destruct m; simpl; lia. Qed.

Lemma Zdigits2_mono a b : 0 <= a <= b -> Zdigits2 a <= Zdigits2 b.
Proof.
  intros [Ha Hab]. destruct (Z.eq_dec a 0) as [->|Hne].
  - apply Zdigits2_nonneg.
  - rewrite !Zdigits2_log2 by lia.
    pose proof (Z.log2_le_mono a b Hab). lia.
Qed.

(** Dropping [k] low bits drops [k] digits. *)
Lemma Zdigits2_shift m m' k :
  0 < m' -> 0 <= k -> m' * 2 ^ k <= m < (m' + 1) * 2 ^ k ->
  Zdigits2 m = Zdigits2 m' + k.
Proof.
  intros Hm' Hk [Hlo Hhi].
  pose proof (Zdigits2_bounds m' Hm') as [Blo Bhi].
  pose proof (Zdigits2_pos m' Hm') as Hd.
  assert (Hp : 0 < 2 ^ k) by (apply Z.pow_pos_nonneg; lia).
  apply Zdigits2_unique; [nia|].
  replace (Zdigits2 m' + k - 1) with (Zdigits2 m' - 1 + k) by lia.
  rewrite !Z.pow_add_r by lia. nia.
Qed.

Lemma F2R_shift m e k : 0 <= k -> F2R m (e + k) = F2R (m * 2 ^ k) e.
Proof.
  intros Hk. unfold F2R. rewrite bpow_plus, mult_IZR, (bpow_IZR k Hk). ring.
Qed.

Lemma F2R_le a b e : a <= b -> (F2R a e <= F2R b e)%R.
Proof.
  intros H. unfold F2R. apply IZR_le in H. pose proof (bpow_gt_0 e).
  generalize dependent (bpow e). intros; nra.
Qed.

Lemma F2R_lt a b e : a < b -> (F2R a e < F2R b e)%R.
Proof.
  intros H. unfold F2R. apply IZR_lt in H. pose proof (bpow_gt_0 e).
  generalize dependent (bpow e). intros; nra.
Qed.

Lemma F2R_lt_inv a b e : (F2R a e < F2R b e)%R -> a < b.
Proof.
  intros H. destruct (Z_lt_le_dec a b) as [|Hle]; [assumption|].
  apply (F2R_le _ _ e) in Hle. lra.
Qed.

Lemma F2R_le_inv a b e : (F2R a e <= F2R b e)%R -> a <= b.
Proof.
  intros H. destruct (Z_le_gt_dec a b) as [|Hgt]; [assumption|].
  apply Z.gt_lt, (F2R_lt _ _ e) in Hgt. lra.
Qed.

(** The magnitude of a positive mantissa. *)
Lemma F2R_digits m e :
  0 < m ->
  (bpow (Zdigits2 m - 1 + e) <= F2R m e < bpow (Zdigits2 m + e))%R.
Proof.
  intros Hm. pose proof (Zdigits2_bounds m Hm) as [Hlo Hhi].
  pose proof (Zdigits2_pos m Hm) as Hd.
  rewrite !bpow_plus, (bpow_IZR (Zdigits2 m - 1)), (bpow_IZR (Zdigits2 m))
    by lia.
  unfold F2R. apply IZR_le in Hlo. apply IZR_lt in Hhi.
  pose proof (bpow_gt_0 e). split.
  - apply Rmult_le_compat_r; [lra | exact Hlo].
  - apply Rmult_lt_compat_r; [lra | exact Hhi].
Qed.

Lemma iter_pos_nat {A : Type} (f : A -> A) (n : positive) (x : A) :
  iter_pos f n x = Nat.iter (Pos.to_nat n) f x.
Proof.
  revert x. induction n as [n IH|n IH|]; intros x; cbn [iter_pos].
  - rewrite !IH, Pos2Nat.inj_xI.
    replace (S (2 * Pos.to_nat n)) with (Pos.to_nat n + S (Pos.to_nat n))%nat
      by lia.
    now rewrite Nat.iter_add, Nat.iter_succ_r.
  - rewrite !IH, Pos2Nat.inj_xO.
    replace (2 * Pos.to_nat n)%nat with (Pos.to_nat n + Pos.to_nat n)%nat
      by lia.
    now rewrite Nat.iter_add.
  - reflexivity.
Qed.


Lemma shr_1_spec (mrs : shr_record) :
  0 <= shr_m mrs ->
  0 <= shr_m (shr_1 mrs)
  /\ 2 * shr_m (shr_1 mrs) <= shr_m mrs <= 2 * shr_m (shr_1 mrs) + 1
  /\ (inexact (shr_1 mrs) = true ->
      inexact mrs = true \/ 2 * shr_m (shr_1 mrs) < shr_m mrs).
Proof.
  destruct mrs as [m r s]. unfold inexact. simpl. intros Hm.
  destruct m as [|[p|p|]|p]; simpl; try lia;
    (split; [lia|]); (split; [lia|]);
    destruct r, s; simpl; intros H; try discriminate; auto; right; lia.
Qed.

Lemma shr_iter_spec (k : nat) (mrs : shr_record) :
  0 <= shr_m mrs ->
  let mrs' := Nat.iter k shr_1 mrs in
  0 <= shr_m mrs'
  /\ shr_m mrs' * 2 ^ Z.of_nat k <= shr_m mrs
     < (shr_m mrs' + 1) * 2 ^ Z.of_nat k
  /\ (inexact mrs' = true ->
      inexact mrs = true \/ shr_m mrs' * 2 ^ Z.of_nat k < shr_m mrs).
Proof.
  intros Hm. induction k as [|k IH].
  - simpl. repeat split; try lia. now left.
  - cbn [Nat.iter nat_rect]. cbv zeta in IH.
    destruct IH as (H0 & [Hlo Hhi] & Hin).
    change (nat_rect _ mrs (fun _ => shr_1) k) with (Nat.iter k shr_1 mrs) in *.
    destruct (shr_1_spec (Nat.iter k shr_1 mrs) H0) as (H0' & [Hlo' Hhi'] & Hin').
    rewrite Nat2Z.inj_succ, Z.pow_succ_r by lia.
    assert (Hp : 0 < 2 ^ Z.of_nat k) by (apply Z.pow_pos_nonneg; lia).
    repeat split; try nia.
    intros Hi. destruct (Hin' Hi) as [Hprev|Hodd].
    + destruct (Hin Hprev) as [?|?]; [now left | right; nia].
    + right. nia.
Qed.

Lemma shr_spec (mrs : shr_record) (e n : Z) :
  0 <= shr_m mrs ->
  let k := Z.max 0 n in
  let mrs' := fst (shr mrs e n) in
  snd (shr mrs e n) = e + k
  /\ 0 <= shr_m mrs'
  /\ shr_m mrs' * 2 ^ k <= shr_m mrs < (shr_m mrs' + 1) * 2 ^ k
  /\ (inexact mrs' = true ->
      inexact mrs = true \/ shr_m mrs' * 2 ^ k < shr_m mrs).
Proof.
  intros Hm. destruct n as [|p|p]; simpl.
  - repeat split; try lia. now left.
  - rewrite iter_pos_nat.
    pose proof (shr_iter_spec (Pos.to_nat p) mrs Hm) as H.
    cbv zeta in H. rewrite positive_nat_Z in H. tauto.
  - repeat split; try lia. now left.
Qed.

Lemma inexact_of_loc (m : Z) (l : location) :
  shr_m (shr_record_of_loc m l) = m
  /\ (inexact (shr_record_of_loc m l) = true -> l <> loc_Exact).
Proof. destruct l as [|[]]; simpl; split; try reflexivity; easy. Qed.

Lemma round_nearest_even_cases (mrs : shr_record) :
  round_nearest_even (shr_m mrs) (loc_of_shr_record mrs) = shr_m mrs
  \/ (round_nearest_even (shr_m mrs) (loc_of_shr_record mrs) = shr_m mrs + 1
      /\ inexact mrs = true).
Proof.
  destruct mrs as [m [] []]; unfold inexact; simpl; auto.
  destruct (Z.even m); auto.
Qed.

Section RoundToNearest.
Variables prec emax : Z.
Hypothesis Hprec : 0 < prec.
Hypothesis Hemax : prec < emax.

Lemma fexp_mono a b : a <= b -> fexp prec emax a <= fexp prec emax b.
Proof. unfold fexp. lia. Qed.

Lemma fexp_cases a :
  (fexp prec emax a = SpecFloat.emin prec emax /\ a - prec <= SpecFloat.emin prec emax)
  \/ (fexp prec emax a = a - prec /\ SpecFloat.emin prec emax <= a - prec).
Proof. unfold fexp. lia. Qed.

Lemma emin_le_emax : SpecFloat.emin prec emax <= emax - prec.
Proof. unfold emin. lia. Qed.

Lemma bounded_spec (m : positive) (e : Z) :
  bounded prec emax m e = true ->
  fexp prec emax (Zdigits2 (Z.pos m) + e) = e /\ e <= emax - prec.
Proof.
  unfold bounded, canonical_mantissa. rewrite andb_true_iff, Z.eqb_eq, Z.leb_le.
  tauto.
Qed.

(** A canonical number lies below [2 ^ emax]. *)
Lemma bounded_lt_emax (m : positive) (e : Z) :
  bounded prec emax m e = true -> (F2R (Z.pos m) e < bpow emax)%R.
Proof.
  intros Hb. apply bounded_spec in Hb. destruct Hb as [Hc He].
  pose proof (F2R_digits (Z.pos m) e ltac:(lia)) as [_ Hhi].
  eapply Rlt_le_trans; [exact Hhi|]. apply bpow_le.
  destruct (fexp_cases (Zdigits2 (Z.pos m) + e)) as [[? ?]|[? ?]]; lia.
Qed.

(** Rounding to nearest never passes a representable number: if the exact
    value described by [(m, e, l)] is at most the canonical [y], so is its
    rounding, which then does not overflow. *)
Lemma binary_round_aux_le (s : bool) (m e : Z) (l : location) (x : R)
  (my : positive) (ey : Z) :
  0 <= m ->
  e <= fexp prec emax (Zdigits2 m + e) ->
  (F2R m e <= x)%R ->
  (l <> loc_Exact -> (F2R m e < x)%R) ->
  bounded prec emax my ey = true ->
  (x <= F2R (Z.pos my) ey)%R ->
  match binary_round_aux prec emax s m e l with
  | S754_zero _ => True
  | S754_finite _ m2 e2 => (F2R (Z.pos m2) e2 <= F2R (Z.pos my) ey)%R
  | _ => False
  end.
Proof.
  intros Hm Hpre Hlo Hstrict Hy Hxy.
  pose proof (bounded_lt_emax my ey Hy) as Hymax.
  pose proof (bounded_spec my ey Hy) as [Hcy Hey].
  pose proof (F2R_digits (Z.pos my) ey ltac:(lia)) as [Hylo Hyhi].
  unfold binary_round_aux, shr_fexp.
  (* first truncation *)
  set (e1 := fexp prec emax (Zdigits2 m + e)) in *.
  destruct (inexact_of_loc m l) as [Hrm Hrl].
  pose proof (shr_spec (shr_record_of_loc m l) e (e1 - e)
                ltac:(rewrite Hrm; exact Hm)) as H1.
  cbv zeta in H1. rewrite Hrm in H1.
  destruct (shr (shr_record_of_loc m l) e (e1 - e)) as [mrs1 e1'].
  simpl in H1. destruct H1 as (He1 & Hm1 & [Hlo1 Hhi1] & Hin1).
  replace (e + Z.max 0 (e1 - e)) with e1 in He1 by lia. subst e1'.
  replace (Z.max 0 (e1 - e)) with (e1 - e) in * by lia.
  assert (Hk1 : 0 <= e1 - e) by lia.
  assert (Hv1 : (F2R (shr_m mrs1) e1 <= F2R m e)%R).
  { replace e1 with (e + (e1 - e)) at 1 by lia.
    rewrite F2R_shift by exact Hk1. now apply F2R_le. }
  assert (Hs1 : inexact mrs1 = true -> (F2R (shr_m mrs1) e1 < x)%R).
  { intros Hi. destruct (Hin1 Hi) as [Hl|Hlt].
    - apply Hrl in Hl. specialize (Hstrict Hl). lra.
    - replace e1 with (e + (e1 - e)) at 1 by lia.
      rewrite F2R_shift by exact Hk1.
      apply (F2R_lt _ _ e) in Hlt. lra. }
  (* the grid of [e1] contains [y] *)
  assert (Hgrid : inexact mrs1 = true -> e1 <= ey).
  { intros Hi. specialize (Hs1 Hi).
    rewrite <- Hcy. apply fexp_mono.
    destruct (Z.eq_dec m 0) as [->|Hm0].
    - simpl Zdigits2. simpl in e1. fold e1.
      destruct (fexp_cases e) as [[E ?]|[E ?]]; fold e1 in E; [|lia].
      destruct (fexp_cases (Zdigits2 (Z.pos my) + ey)) as [[E' ?]|[E' ?]];
        pose proof (Zdigits2_pos (Z.pos my) ltac:(lia)); lia.
    - pose proof (F2R_digits m e ltac:(lia)) as [Hmlo _].
      assert (Hlt : (bpow (Zdigits2 m - 1 + e)
                     < bpow (Zdigits2 (Z.pos my) + ey))%R) by lra.
      apply bpow_lt_inv in Hlt. lia. }
  (* the rounded mantissa *)
  set (mr := round_nearest_even (shr_m mrs1) (loc_of_shr_record mrs1)).
  assert (Hmr : mr = shr_m mrs1 \/ (mr = shr_m mrs1 + 1 /\ inexact mrs1 = true))
    by apply round_nearest_even_cases.
  assert (Hmr0 : 0 <= mr) by (destruct Hmr as [->|[-> _]]; lia).
  assert (Hvr : (F2R mr e1 <= F2R (Z.pos my) ey)%R).
  { destruct Hmr as [->|[-> Hi]]; [lra|].
    specialize (Hs1 Hi). specialize (Hgrid Hi).
    replace ey with (e1 + (ey - e1)) in * by lia.
    rewrite F2R_shift in * by lia.
    apply F2R_le.
    assert (Hlt : (F2R (shr_m mrs1) e1
                   < F2R (Z.pos my * 2 ^ (ey - e1)) e1)%R) by lra.
    apply F2R_lt_inv in Hlt. lia. }
  (* renormalisation *)
  set (e2t := fexp prec emax (Zdigits2 mr + e1)).
  pose proof (shr_spec (shr_record_of_loc mr loc_Exact) e1 (e2t - e1)
                ltac:(simpl; exact Hmr0)) as H2.
  cbv zeta in H2.
  destruct (shr (shr_record_of_loc mr loc_Exact) e1 (e2t - e1)) as [mrs2 e2].
  simpl in H2. destruct H2 as (He2 & Hm2 & [Hlo2 Hhi2] & _).
  set (k2 := Z.max 0 (e2t - e1)) in *.
  assert (Hk2 : 0 <= k2) by lia.
  assert (Hv2 : (F2R (shr_m mrs2) e2 <= F2R (Z.pos my) ey)%R).
  { rewrite He2, F2R_shift by exact Hk2.
    apply (F2R_le _ _ e1) in Hlo2. lra. }
  destruct (shr_m mrs2) as [|p2|p2] eqn:Em2; [exact I | | lia].
  destruct (Z.leb_spec e2 (emax - prec)) as [Hle|Hgt]; [exact Hv2|].
  (* no overflow *)
  exfalso.
  pose proof (F2R_digits (Z.pos p2) e2 ltac:(lia)) as [Hplo _].
  assert (Hlt : (bpow (Zdigits2 (Z.pos p2) - 1 + e2) < bpow emax)%R) by lra.
  apply bpow_lt_inv in Hlt.
  assert (Hd2 : Zdigits2 mr = Zdigits2 (Z.pos p2) + k2)
    by (apply Zdigits2_shift; lia).
  pose proof emin_le_emax as Hemin.
  destruct (Z.max_spec 0 (e2t - e1)) as [[Hpos Ek]|[Hneg Ek]]; fold k2 in Ek.
  - (* a shift happened: [e2] is the canonical exponent *)
    assert (E2 : e2 = fexp prec emax (Zdigits2 (Z.pos p2) + e2)).
    { replace (Zdigits2 (Z.pos p2) + e2) with (Zdigits2 mr + e1) by lia.
      fold e2t. lia. }
    destruct (fexp_cases (Zdigits2 (Z.pos p2) + e2)) as [[? ?]|[? ?]]; lia.
  - (* no shift: [mr] already fits *)
    assert (Ee : e2 = e1) by lia.
    assert (Hmrp : mr = Z.pos p2)
      by (rewrite Ek, Z.pow_0_r in Hlo2, Hhi2; lia).
    destruct (Z.eq_dec (shr_m mrs1) 0) as [Hz|Hnz].
    + assert (Hdm : Zdigits2 m <= e1 - e).
      { destruct (Z.eq_dec m 0) as [->|Hm0]; [simpl; lia|].
        pose proof (Zdigits2_bounds m ltac:(lia)) as [Blo _].
        rewrite Hz, Z.add_0_l, Z.mul_1_l in Hhi1.
        assert (Hpw : 2 ^ (Zdigits2 m - 1) < 2 ^ (e1 - e)) by lia.
        apply Z.pow_lt_mono_r_iff in Hpw; lia. }
      destruct (fexp_cases (Zdigits2 m + e)) as [[E ?]|[E ?]];
        fold e1 in E; lia.
    + assert (Hd1 : Zdigits2 m = Zdigits2 (shr_m mrs1) + (e1 - e))
        by (apply Zdigits2_shift; lia).
      assert (Hdr : Zdigits2 (shr_m mrs1) <= Zdigits2 mr).
      { apply Zdigits2_mono. destruct Hmr as [->|[-> _]]; lia. }
      assert (Hfe : e1 <= e2t).
      { unfold e1, e2t. apply fexp_mono. lia. }
      assert (E2 : e2 = fexp prec emax (Zdigits2 (Z.pos p2) + e2)).
      { rewrite <- Hmrp, Ee. fold e2t. lia. }
      destruct (fexp_cases (Zdigits2 (Z.pos p2) + e2)) as [[? ?]|[? ?]]; lia.
Qed.

End RoundToNearest.



Lemma F2R_pos (m : positive) (e : Z) : (0 < F2R (Z.pos m) e)%R.
Proof.
  unfold F2R. apply Rmult_lt_0_compat; [apply IZR_lt; lia | apply bpow_gt_0].
Qed.

Lemma shl_align_spec (m : positive) (e e' : Z) :
  let '(m', e1) := shl_align m e e' in
  e1 = Z.min e e' /\ Z.pos m' = Z.pos m * 2 ^ (e - e1).
Proof.
  unfold shl_align. destruct (e' - e) as [|d|d] eqn:E.
  - split; [lia|]. rewrite Z.sub_diag. simpl. lia.
  - split; [lia|]. rewrite Z.sub_diag. simpl. lia.
  - split; [lia|]. replace (e - e') with (Z.pos d) by lia.
    rewrite <- Z.shiftl_mul_pow2 by lia. simpl.
    apply (Pos.iter_swap_gen _ _ Z.pos xO (Z.mul 2)). reflexivity.
Qed.

Lemma F2R_shl_align (m : positive) (e e' : Z) :
  e' <= e ->
  snd (shl_align m e e') = e'
  /\ F2R (Z.pos (fst (shl_align m e e'))) e' = F2R (Z.pos m) e.
Proof.
  intros He. pose proof (shl_align_spec m e e') as H.
  destruct (shl_align m e e') as [m' e1]. destruct H as [E1 Em]. simpl.
  rewrite Z.min_r in E1 by lia. subst e1. split; [reflexivity|].
  rewrite Em. replace e with (e' + (e - e')) at 2 by lia.
  now rewrite F2R_shift by lia.
Qed.

Section BoundedOps.
Variables prec emax : Z.
Hypothesis Hprec : 0 < prec.
Hypothesis Hemax : prec < emax.

Lemma bounded_digits (m : positive) (e : Z) :
  bounded prec emax m e = true ->
  Zdigits2 (Z.pos m) <= prec
  /\ SpecFloat.emin prec emax <= e
  /\ (SpecFloat.emin prec emax < e -> Zdigits2 (Z.pos m) = prec).
Proof.
  intros Hb. apply bounded_spec in Hb. destruct Hb as [Hc _].
  destruct (fexp_cases prec emax (Zdigits2 (Z.pos m) + e)) as [[? ?]|[? ?]];
    lia.
Qed.

(** Canonical numbers compare as their values do. *)
Lemma canonical_lt_exp (m1 : positive) (e1 : Z) (m2 : positive) (e2 : Z) :
  bounded prec emax m1 e1 = true -> bounded prec emax m2 e2 = true ->
  e1 < e2 -> (F2R (Z.pos m1) e1 < F2R (Z.pos m2) e2)%R.
Proof.
  intros H1 H2 He.
  apply bounded_digits in H1, H2.
  destruct H1 as (Hd1 & Hm1 & _), H2 as (Hd2 & Hm2 & Hn2).
  pose proof (F2R_digits (Z.pos m1) e1 ltac:(lia)) as [_ Hhi].
  pose proof (F2R_digits (Z.pos m2) e2 ltac:(lia)) as [Hlo _].
  assert (Hb : (bpow (Zdigits2 (Z.pos m1) + e1)
                <= bpow (Zdigits2 (Z.pos m2) - 1 + e2))%R)
    by (apply bpow_le; lia).
  lra.
Qed.

Lemma SFcompare_pos (m1 : positive) (e1 : Z) (m2 : positive) (e2 : Z) :
  bounded prec emax m1 e1 = true -> bounded prec emax m2 e2 = true ->
  match SFcompare (S754_finite false m1 e1) (S754_finite false m2 e2) with
  | Some Lt => (F2R (Z.pos m1) e1 < F2R (Z.pos m2) e2)%R
  | Some Eq => F2R (Z.pos m1) e1 = F2R (Z.pos m2) e2
  | Some Gt => (F2R (Z.pos m2) e2 < F2R (Z.pos m1) e1)%R
  | None => False
  end.
Proof.
  intros H1 H2. simpl.
  destruct (Z.compare_spec e1 e2) as [->|Hlt|Hgt].
  - change (Pos.compare_cont Eq m1 m2) with (Pos.compare m1 m2).
    destruct (Pos.compare_spec m1 m2) as [->|Hm|Hm].
    + reflexivity.
    + apply F2R_lt. lia.
    + apply F2R_lt. lia.
  - now apply canonical_lt_exp.
  - now apply canonical_lt_exp.
Qed.


Lemma SFcompare_nonneg (x y : spec_float) :
  validNonneg prec emax x -> validNonneg prec emax y ->
  match SFcompare x y with
  | Some Lt => (SF2R x < SF2R y)%R
  | Some Eq => SF2R x = SF2R y
  | Some Gt => (SF2R y < SF2R x)%R
  | None => False
  end.
Proof.
  intros [Vx Fx] [Vy Fy].
  destruct x as [sx|sx| |[] mx ex]; try easy;
    destruct y as [sy|sy| |[] my ey]; try easy; simpl.
  - apply F2R_pos.
  - apply F2R_pos.
  - now apply SFcompare_pos.
Qed.

Lemma SFleb_nonneg (x y : spec_float) :
  validNonneg prec emax x -> validNonneg prec emax y ->
  SFleb x y = true <-> (SF2R x <= SF2R y)%R.
Proof.
  intros Hx Hy. pose proof (SFcompare_nonneg x y Hx Hy) as H.
  unfold SFleb. destruct (SFcompare x y) as [[]|]; try easy;
    split; intros; try reflexivity; try discriminate; lra.
Qed.

Lemma SFltb_nonneg (x y : spec_float) :
  validNonneg prec emax x -> validNonneg prec emax y ->
  SFltb x y = true <-> (SF2R x < SF2R y)%R.
Proof.
  intros Hx Hy. pose proof (SFcompare_nonneg x y Hx Hy) as H.
  unfold SFltb. destruct (SFcompare x y) as [[]|]; try easy;
    split; intros; try reflexivity; try discriminate; lra.
Qed.

(** *** Rounded operations below a representable bound *)

Lemma round_aux_below (m e : Z) (l : location) (x : R)
  (my : positive) (ey : Z) :
  0 <= m ->
  e <= fexp prec emax (Zdigits2 m + e) ->
  (F2R m e <= x)%R ->
  (l <> loc_Exact -> (F2R m e < x)%R) ->
  bounded prec emax my ey = true ->
  (x <= F2R (Z.pos my) ey)%R ->
  belowSF (binary_round_aux prec emax false m e l) (S754_finite false my ey).
Proof.
  intros Hm Hpre Hlo Hst Hy Hxy.
  pose proof (binary_round_aux_le prec emax Hprec Hemax false m e l x my ey
                Hm Hpre Hlo Hst Hy Hxy) as H.
  pose proof (binary_round_aux_sign prec emax false m e l Hm) as Hs.
  unfold belowSF.
  destruct (binary_round_aux prec emax false m e l) as [s|s| |s m2 e2];
    simpl in *; try easy.
  - split; [exact I|]. pose proof (F2R_pos my ey). lra.
  - subst s. now split.
Qed.

Lemma binary_round_below (m : positive) (e : Z) (my : positive) (ey : Z) :
  bounded prec emax my ey = true ->
  (F2R (Z.pos m) e <= F2R (Z.pos my) ey)%R ->
  belowSF (binary_round prec emax false m e) (S754_finite false my ey).
Proof.
  intros Hy Hle. unfold binary_round.
  set (t := fexp prec emax (Z.pos (digits2_pos m) + e)).
  pose proof (shl_align_spec m e t) as H.
  destruct (shl_align m e t) as [mz ez]. destruct H as [Ez Em].
  assert (Hv : F2R (Z.pos mz) ez = F2R (Z.pos m) e).
  { rewrite Em. replace e with (ez + (e - ez)) at 2 by lia.
    now rewrite F2R_shift by lia. }
  apply (round_aux_below _ _ _ (F2R (Z.pos m) e)); try lra; try lia;
    try easy.
  assert (Hd : Zdigits2 (Z.pos mz) + ez = Zdigits2 (Z.pos m) + e).
  { rewrite Em. rewrite (Zdigits2_shift (Z.pos m * 2 ^ (e - ez)) (Z.pos m) (e - ez));
      lia. }
  rewrite Hd. change (Zdigits2 (Z.pos m)) with (Z.pos (digits2_pos m)).
  fold t. lia.
Qed.


Lemma belowSF_self (m : positive) (e : Z) :
  belowSF (S754_finite false m e) (S754_finite false m e).
Proof. split; [exact I | apply Rle_refl]. Qed.

Lemma F2R_minus (a b e : Z) : F2R (a - b) e = (F2R a e - F2R b e)%R.
Proof. unfold F2R. rewrite minus_IZR. ring. Qed.

Lemma F2R_mult (a b e1 e2 : Z) :
  F2R (a * b) (e1 + e2) = (F2R a e1 * F2R b e2)%R.
Proof. unfold F2R. rewrite mult_IZR, bpow_plus. ring. Qed.

(** [p - v] for [0 <= v <= p] stays within [0, p]. *)
Lemma SFsub_below (mp : positive) (ep : Z) (v : spec_float) :
  bounded prec emax mp ep = true ->
  validNonneg prec emax v ->
  (SF2R v <= F2R (Z.pos mp) ep)%R ->
  belowSF (SFsub prec emax (S754_finite false mp ep) v)
          (S754_finite false mp ep).
Proof.
  intros Hp [Vv Fv] Hle.
  destruct v as [sv|sv| |[] mv ev]; try easy; try apply belowSF_self.
  - cbn [SFsub cond_Zopp].
    set (ez := Z.min ep ev).
    destruct (F2R_shl_align mp ep ez ltac:(lia)) as [_ Ep].
    destruct (F2R_shl_align mv ev ez ltac:(lia)) as [_ Ev].
    set (mp' := fst (shl_align mp ep ez)) in *.
    set (mv' := fst (shl_align mv ev ez)) in *.
    simpl in Hle.
    assert (Hd : (F2R (Z.pos mp' - Z.pos mv') ez
                  = F2R (Z.pos mp) ep - F2R (Z.pos mv) ev)%R)
      by (rewrite F2R_minus; lra).
    assert (Hge : 0 <= Z.pos mp' - Z.pos mv').
    { assert (H : Z.pos mv' <= Z.pos mp')
        by (apply (F2R_le_inv _ _ ez); lra).
      lia. }
    destruct (Z.pos mp' - Z.pos mv') as [|d|d] eqn:Ed; [| |lia].
    + split; [exact I|]. simpl. pose proof (F2R_pos mp ep). lra.
    + cbn [binary_normalize]. apply binary_round_below; [exact Hp|].
      pose proof (F2R_pos mv ev). lra.
Qed.

Lemma Zdigits2_pow2 (k : Z) : 0 <= k -> Zdigits2 (2 ^ k) = k + 1.
Proof.
  intros Hk. rewrite Zdigits2_log2 by (apply Z.pow_pos_nonneg; lia).
  now rewrite Z.log2_pow2.
Qed.

Lemma Zdigits2_mul_ge (a b : Z) :
  0 < a -> 0 < b -> Zdigits2 a + Zdigits2 b - 1 <= Zdigits2 (a * b).
Proof.
  intros Ha Hb.
  pose proof (Zdigits2_bounds a Ha) as [Hla _].
  pose proof (Zdigits2_bounds b Hb) as [Hlb _].
  pose proof (Zdigits2_pos a Ha). pose proof (Zdigits2_pos b Hb).
  assert (Hp : 2 ^ (Zdigits2 a - 1 + (Zdigits2 b - 1)) <= a * b).
  { rewrite Z.pow_add_r by lia.
    assert (0 < 2 ^ (Zdigits2 a - 1)) by (apply Z.pow_pos_nonneg; lia).
    assert (0 < 2 ^ (Zdigits2 b - 1)) by (apply Z.pow_pos_nonneg; lia).
    nia. }
  assert (Hm := Zdigits2_mono _ _
                  (conj (Z.lt_le_incl _ _
                           (Z.pow_pos_nonneg 2 (Zdigits2 a - 1 + (Zdigits2 b - 1))
                              ltac:(lia) ltac:(lia))) Hp)).
  rewrite Zdigits2_pow2 in Hm by lia. lia.
Qed.

(** [x * c] for [0 <= x <= 1] and a normal [c] stays within [0, c]. *)
Lemma SFmul_below (x : spec_float) (mc : positive) (ec : Z) :
  bounded prec emax mc ec = true ->
  Zdigits2 (Z.pos mc) = prec ->
  validNonneg prec emax x ->
  (SF2R x <= 1)%R ->
  belowSF (SFmul prec emax x (S754_finite false mc ec))
          (S754_finite false mc ec).
Proof.
  intros Hc Hdc [Vx Fx] Hle.
  destruct x as [sx|sx| |[] mx ex]; try easy.
  - simpl. split; [exact I|]. simpl. pose proof (F2R_pos mc ec). lra.
  - cbn [SFmul xorb]. simpl in Hle.
    pose proof (F2R_pos mc ec) as Hcpos.
    apply (round_aux_below _ _ _ (F2R (Z.pos (mx * mc)) (ex + ec)));
      try lia; try lra; try easy.
    + pose proof (Zdigits2_mul_ge (Z.pos mx) (Z.pos mc) ltac:(lia) ltac:(lia)).
      pose proof (Zdigits2_pos (Z.pos mx) ltac:(lia)).
      rewrite Pos2Z.inj_mul.
      destruct (fexp_cases prec emax
                  (Zdigits2 (Z.pos mx * Z.pos mc) + (ex + ec))) as [[? ?]|[? ?]];
        [|lia].
      apply bounded_digits in Vx, Hc. lia.
    + rewrite Pos2Z.inj_mul, F2R_mult.
      pose proof (F2R_pos mx ex). nra.
Qed.

Lemma new_location_inexact (n k : Z) :
  new_location n k <> loc_Exact -> k <> 0.
Proof.
  unfold new_location, new_location_even, new_location_odd.
  intros H ->. now destruct (Z.even n).
Qed.

(** The digit-recurrence core of the division: a truncated quotient with
    enough digits. *)
Lemma SFdiv_core_spec (m1 : positive) (e1 : Z) (m2 : positive) (e2 : Z) :
  let '(q, e', l) :=
    SFdiv_core_binary prec emax (Z.pos m1) e1 (Z.pos m2) e2 in
  let x := (F2R (Z.pos m1) e1 / F2R (Z.pos m2) e2)%R in
  0 <= q
  /\ e' <= fexp prec emax (Zdigits2 q + e')
  /\ (F2R q e' <= x)%R
  /\ (l <> loc_Exact -> (F2R q e' < x)%R).
Proof.
  unfold SFdiv_core_binary.
  set (d1 := Zdigits2 (Z.pos m1)). set (d2 := Zdigits2 (Z.pos m2)).
  set (e' := Z.min (fexp prec emax (d1 + e1 - (d2 + e2))) (e1 - e2)).
  set (s := e1 - e2 - e').
  assert (Hs : 0 <= s) by (unfold s, e'; lia).
  set (m' := match s with
             | 0 => Z.pos m1
             | Z.pos _ => Z.shiftl (Z.pos m1) s
             | Z.neg _ => 0
             end).
  assert (Em' : m' = Z.pos m1 * 2 ^ s).
  { unfold m'. destruct s as [|p|p] eqn:Es; [simpl; lia| |lia].
    apply Z.shiftl_mul_pow2. lia. }
  pose proof (Z_div_mod m' (Z.pos m2) ltac:(lia)) as Hdiv.
  destruct (Z.div_eucl m' (Z.pos m2)) as [q r]. destruct Hdiv as [Eq Hr].
  assert (Hp : 0 < 2 ^ s) by (apply Z.pow_pos_nonneg; lia).
  assert (Hm' : 0 < m') by nia.
  assert (Hq : 0 <= q) by nia.
  pose proof (F2R_pos m2 e2) as H2pos.
  assert (Ex : (F2R (Z.pos m1) e1 / F2R (Z.pos m2) e2
                = IZR m' / IZR (Z.pos m2) * bpow e')%R).
  { unfold F2R. replace e1 with (e2 + (e' + s)) by (unfold s; lia).
    rewrite Em', mult_IZR, !bpow_plus, (bpow_IZR s Hs).
    pose proof (bpow_gt_0 e2). pose proof (bpow_gt_0 e').
    assert (0 < IZR (Z.pos m2))%R by (apply IZR_lt; lia).
    field. split; lra. }
  assert (H2 : (0 < IZR (Z.pos m2))%R) by (apply IZR_lt; lia).
  assert (Hqle : (IZR q <= IZR m' / IZR (Z.pos m2))%R).
  { apply Rmult_le_reg_r with (IZR (Z.pos m2)); [exact H2|].
    replace (IZR m' / IZR (Z.pos m2) * IZR (Z.pos m2))%R with (IZR m')
      by (field; lra).
    rewrite <- mult_IZR. apply IZR_le. nia. }
  repeat split.
  - exact Hq.
  - (* enough digits in the quotient *)
    assert (Hdq : d1 + s - d2 <= Zdigits2 q).
    { pose proof (Zdigits2_nonneg q).
      destruct (Z_le_gt_dec (d1 + s - d2) 0) as [|Hk]; [lia|].
      pose proof (Zdigits2_bounds (Z.pos m1) ltac:(lia)) as [Hl1 _].
      pose proof (Zdigits2_bounds (Z.pos m2) ltac:(lia)) as [_ Hh2].
      fold d1 in Hl1. fold d2 in Hh2.
      pose proof (Zdigits2_pos (Z.pos m1) ltac:(lia)). fold d1 in H0.
      pose proof (Zdigits2_pos (Z.pos m2) ltac:(lia)). fold d2 in H1.
      assert (Hlow : 2 ^ (d1 + s - d2 - 1) * 2 ^ d2 <= m').
      { rewrite <- Z.pow_add_r by lia.
        replace (d1 + s - d2 - 1 + d2) with (d1 - 1 + s) by lia.
        rewrite Z.pow_add_r by lia. nia. }
      assert (Hpk : 0 < 2 ^ (d1 + s - d2 - 1))
        by (apply Z.pow_pos_nonneg; lia).
      assert (Hqk : 2 ^ (d1 + s - d2 - 1) <= q) by nia.
      pose proof (Zdigits2_mono _ _ (conj (Z.lt_le_incl _ _ Hpk) Hqk)) as Hm.
      rewrite Zdigits2_pow2 in Hm by lia. lia. }
    apply Z.le_trans with (fexp prec emax (d1 + e1 - (d2 + e2)));
      [unfold e'; lia|].
    apply fexp_mono. unfold s in Hdq. lia.
  - rewrite Ex. unfold F2R. pose proof (bpow_gt_0 e').
    apply Rmult_le_compat_r; [lra | exact Hqle].
  - intros Hl. apply new_location_inexact in Hl.
    rewrite Ex. unfold F2R. pose proof (bpow_gt_0 e').
    apply Rmult_lt_compat_r; [lra|].
    apply Rmult_lt_reg_r with (IZR (Z.pos m2)); [exact H2|].
    replace (IZR m' / IZR (Z.pos m2) * IZR (Z.pos m2))%R with (IZR m')
      by (field; lra).
    rewrite <- mult_IZR. apply IZR_lt. nia.
Qed.

(** [a / p] for [0 <= a <= p] stays within [0, 1]. *)
Lemma SFdiv_below (a : spec_float) (mp : positive) (ep : Z)
  (mo : positive) (eo : Z) :
  bounded prec emax mo eo = true -> F2R (Z.pos mo) eo = 1%R ->
  validNonneg prec emax a ->
  (SF2R a <= F2R (Z.pos mp) ep)%R ->
  belowSF (SFdiv prec emax a (S754_finite false mp ep))
          (S754_finite false mo eo).
Proof.
  intros Ho Eo [Va Fa] Hle.
  destruct a as [sa|sa| |[] ma ea]; try easy.
  - simpl. split; [exact I|]. simpl. lra.
  - cbn [SFdiv xorb]. simpl in Hle.
    pose proof (SFdiv_core_spec ma ea mp ep) as H.
    destruct (SFdiv_core_binary prec emax (Z.pos ma) ea (Z.pos mp) ep)
      as [[q e'] l].
    cbv zeta in H. destruct H as (Hq & Hpre & Hlo & Hst).
    apply (round_aux_below _ _ _ (F2R (Z.pos ma) ea / F2R (Z.pos mp) ep));
      try easy.
    rewrite Eo. pose proof (F2R_pos mp ep) as Hp.
    apply Rmult_le_reg_r with (F2R (Z.pos mp) ep); [exact Hp|].
    replace (F2R (Z.pos ma) ea / F2R (Z.pos mp) ep * F2R (Z.pos mp) ep)%R
      with (F2R (Z.pos ma) ea) by (field; lra).
    lra.
Qed.

End BoundedOps.

(** ** Binary64 *)

Lemma prec_pos : 0 < prec. Proof. reflexivity. Qed.
Lemma prec_lt_emax : prec < emax. Proof. reflexivity. Qed.

Lemma Prim2SF_one : Prim2SF 1 = S754_finite false 4503599627370496 (-52).
Proof. reflexivity. Qed.

Lemma Prim2SF_hundred :
  Prim2SF 100 = S754_finite false 7036874417766400 (-46).
Proof. reflexivity. Qed.

Lemma F2R_integer (k n : Z) : 0 <= n -> F2R (k * 2 ^ n) (- n) = IZR k.
Proof.
  intros Hn. rewrite <- F2R_shift by exact Hn.
  replace (- n + n) with 0 by lia. unfold F2R, bpow. simpl. ring.
Qed.

Lemma F2R_one : F2R 4503599627370496 (-52) = 1%R.
Proof. exact (F2R_integer 1 52 ltac:(lia)). Qed.

Lemma F2R_hundred : F2R 7036874417766400 (-46) = 100%R.
Proof. exact (F2R_integer 100 46 ltac:(lia)). Qed.

Lemma prim_validNonneg (x : float) :
  (0 <=? x)%float = true -> is_finite x = true ->
  validNonneg prec emax (Prim2SF x).
Proof.
  rewrite leb_zero_spec, is_finite_spec. intros Hx Hf.
  split; [apply Prim2SF_valid|].
  destruct (Prim2SF x) as [[]|[]| |[] m e]; try discriminate; exact I.
Qed.

Lemma is_nan_ltb_r (a b : float) : is_nan b = true -> (a <? b)%float = false.
Proof.
  rewrite is_nan_spec, ltb_spec. intros ->. unfold SFltb.
  now destruct (Prim2SF a).
Qed.

Lemma ltb_irrefl (x : float) : (x <? x)%float = false.
Proof.
  rewrite ltb_spec. unfold SFltb.
  destruct (Prim2SF x) as [s|s| |s m e] eqn:E; try reflexivity;
    now rewrite SFcompare_refl.
Qed.

Lemma ltb_nonneg_trans (a b : float) :
  (0 <=? a)%float = true -> (a <? b)%float = true -> (0 <=? b)%float = true.
Proof.
  rewrite !leb_zero_spec, ltb_spec. unfold SFltb.
  destruct (Prim2SF a) as [[]|[]| |[] ma ea]; try discriminate;
    destruct (Prim2SF b) as [[]|[]| |[] mb eb]; simpl; try discriminate;
    reflexivity.
Qed.

(** The drawdown of a point against a positive peak it does not exceed is
    a NaN or a ratio between 0 and 1. *)
Lemma drawdown_ratio_bounds (peak v : float) :
  (0 <? peak)%float = true -> (v <? 0)%float = false ->
  (peak <? v)%float = false ->
  is_nan ((peak - v) / peak)%float = true
  \/ ((0 <=? (peak - v) / peak)%float = true
      /\ ((peak - v) / peak <=? 1)%float = true).
Proof.
  intros Hp Hv Hpv.
  rewrite is_nan_spec, leb_zero_spec, leb_spec, Prim2SF_one.
  pose proof (Prim2SF_valid ((peak - v) / peak)) as Vdd.
  pose proof (Prim2SF_valid (peak - v)) as Vsub.
  pose proof (Prim2SF_valid v) as Vv.
  pose proof (Prim2SF_valid peak) as Vp.
  rewrite div_spec in *. rewrite sub_spec in *.
  rewrite ltb_zero_spec in Hp. rewrite ltb_spec, Prim2SF_zero in Hv.
  rewrite ltb_spec in Hpv.
  destruct (Prim2SF peak) as [sp|[]| |[] mp ep]; try discriminate.
  - (* the peak is +Infinity *)
    left. now destruct (Prim2SF v) as [sv|[]| |sv mv ev].
  - (* a finite peak *)
    destruct (Prim2SF v) as [sv|[]| |[] mv ev] eqn:Ev;
      try discriminate; try (left; reflexivity).
    + (* v is a zero *)
      right.
      assert (Hb : belowSF (SF64div (SF64sub (S754_finite false mp ep)
                                       (S754_zero sv))
                              (S754_finite false mp ep))
                     (S754_finite false 4503599627370496 (-52))).
      { apply (SFdiv_below prec emax prec_pos prec_lt_emax);
          [reflexivity | exact F2R_one | | ].
        - split; [exact Vsub | exact I].
        - simpl. apply Rle_refl. }
      destruct Hb as [Hf Hle]. split.
      * destruct (SF64div _ _) as [[]|[]| |[] m e]; try easy.
      * apply (SFleb_nonneg prec emax);
          [split; assumption | split; [reflexivity | exact I] | exact Hle].
    + (* v is a positive finite number *)
      right.
      assert (Hvp : (F2R (Z.pos mv) ev <= F2R (Z.pos mp) ep)%R).
      { pose proof (SFltb_nonneg prec emax
                      (S754_finite false mp ep) (S754_finite false mv ev)
                      (conj Vp I) (conj Vv I)) as H.
        rewrite Hpv in H. simpl in H.
        destruct (Rle_or_lt (F2R (Z.pos mv) ev) (F2R (Z.pos mp) ep)) as [|Hlt];
          [assumption|].
        apply H in Hlt. discriminate. }
      assert (Ha : belowSF (SF64sub (S754_finite false mp ep)
                              (S754_finite false mv ev))
                     (S754_finite false mp ep)).
      { apply (SFsub_below prec emax prec_pos prec_lt_emax);
          [exact Vp | split; [exact Vv | exact I] | exact Hvp]. }
      destruct Ha as [Haf Hale].
      assert (Hb : belowSF (SF64div (SF64sub (S754_finite false mp ep)
                                       (S754_finite false mv ev))
                              (S754_finite false mp ep))
                     (S754_finite false 4503599627370496 (-52))).
      { apply (SFdiv_below prec emax prec_pos prec_lt_emax);
          [reflexivity | exact F2R_one | split; assumption | exact Hale]. }
      destruct Hb as [Hf Hle]. split.
      * destruct (SF64div _ _) as [[]|[]| |[] m e]; try easy.
      * apply (SFleb_nonneg prec emax);
          [split; assumption | split; [reflexivity | exact I] | exact Hle].
Qed.

(** A ratio between 0 and 1, as a percentage, lies between 0 and 100. *)
Lemma percent_bounds (m : float) :
  (0 <=? m)%float = true -> (m <=? 1)%float = true ->
  (m * 100 <=? 100)%float = true.
Proof.
  intros H0 H1.
  pose proof (Prim2SF_valid (m * 100)) as Vr.
  pose proof (Prim2SF_valid m) as Vm.
  rewrite leb_zero_spec in H0. rewrite leb_spec, Prim2SF_one in H1.
  rewrite leb_spec. rewrite mul_spec in *. rewrite Prim2SF_hundred in *.
  assert (Hm : validNonneg prec emax (Prim2SF m)).
  { split; [exact Vm|].
    destruct (Prim2SF m) as [[]|[]| |[] mm em]; try discriminate; exact I. }
  assert (Hle : (SF2R (Prim2SF m) <= 1)%R).
  { rewrite <- F2R_one.
    apply (SFleb_nonneg prec emax (Prim2SF m)
             (S754_finite false 4503599627370496 (-52)));
      [exact Hm | split; [reflexivity | exact I] | exact H1]. }
  assert (Hb : belowSF (SF64mul (Prim2SF m)
                          (S754_finite false 7036874417766400 (-46)))
                 (S754_finite false 7036874417766400 (-46))).
  { apply (SFmul_below prec emax prec_pos prec_lt_emax);
      [reflexivity | reflexivity | exact Hm | exact Hle]. }
  destruct Hb as [Hf Hl].
  apply (SFleb_nonneg prec emax);
    [split; assumption | split; [reflexivity | exact I] | exact Hl].
Qed.

(** ** The valuation timeline *)

Lemma fold_left_snoc {A B : Type} (f : A -> B -> A) (l : list B) (x : B) (a : A) :
  fold_left f (l ++ [x]) a = f (fold_left f l a) x.
Proof. now rewrite fold_left_app. Qed.

Lemma historyStep_invested (st : Timeline) (tx : Transaction) :
  tl_invested (historyStep st tx) = investedAfter (tl_invested st) tx.
Proof.
  unfold historyStep.
  destruct (match tx_symbol tx with Some _ => _ | None => _ end) as [cash holdings].
  reflexivity.
Qed.

Lemma historyStep_points (st : Timeline) (tx : Transaction) :
  exists pt,
    tl_points (historyStep st tx) = tl_points st ++ [pt]
    /\ p_date pt = tx_date tx
    /\ p_invested pt = investedAfter (tl_invested st) tx
    /\ p_value pt = (tl_cash (historyStep st tx)
                     + stockValueOf (tl_holdings (historyStep st tx)))%float.
Proof.
  unfold historyStep.
  destruct (match tx_symbol tx with Some _ => _ | None => _ end) as [cash holdings].
  eexists. simpl. repeat split.
Qed.

Lemma replayHistory_snoc (l : list Transaction) (tx : Transaction) :
  replayHistory (l ++ [tx]) = historyStep (replayHistory l) tx.
Proof. apply fold_left_snoc. Qed.

Lemma replayHistory_length (l : list Transaction) :
  List.length (tl_points (replayHistory l)) = List.length l.
Proof.
  induction l as [|tx l IH] using rev_ind; [reflexivity|].
  rewrite replayHistory_snoc.
  destruct (historyStep_points (replayHistory l) tx) as (pt & -> & _).
  rewrite !length_app, IH. reflexivity.
Qed.

Lemma investedBefore_app (pts more : list ChartDataPoint) (i : nat) :
  (i <= List.length pts)%nat ->
  investedBefore (pts ++ more) i = investedBefore pts i.
Proof.
  destruct i as [|j]; simpl; [reflexivity|]. intros Hj.
  now rewrite nth_error_app1 by lia.
Qed.

(** The running [invested] is the one recorded by the last emitted point. *)
Lemma replayHistory_invested (l : list Transaction) :
  tl_invested (replayHistory l)
  = investedBefore (tl_points (replayHistory l)) (List.length l).
Proof.
  induction l as [|tx l IH] using rev_ind; [reflexivity|].
  rewrite replayHistory_snoc, historyStep_invested.
  destruct (historyStep_points (replayHistory l) tx) as (pt & -> & _ & Hi & _).
  rewrite length_app. simpl. rewrite Nat.add_1_r. simpl.
  rewrite nth_error_app2 by (rewrite replayHistory_length; lia).
  rewrite replayHistory_length, Nat.sub_diag. simpl. now rewrite Hi.
Qed.

Lemma replayHistory_point (l : list Transaction) (i : nat) (tx : Transaction) :
  nth_error l i = Some tx ->
  exists pt,
    nth_error (tl_points (replayHistory l)) i = Some pt
    /\ p_date pt = tx_date tx
    /\ p_invested pt
       = investedAfter (investedBefore (tl_points (replayHistory l)) i) tx.
Proof.
  revert i tx. induction l as [|x l IH] using rev_ind; intros i tx Hi.
  - now destruct i.
  - rewrite replayHistory_snoc.
    destruct (historyStep_points (replayHistory l) x) as (pt & -> & Hd & Hv & _).
    assert (Hlen := replayHistory_length l).
    destruct (Nat.lt_ge_cases i (List.length l)) as [Hlt|Hge].
    + rewrite nth_error_app1 in Hi by exact Hlt.
      destruct (IH i tx Hi) as (q & Hq & Hqd & Hqi).
      exists q. rewrite nth_error_app1 by lia.
      rewrite investedBefore_app by lia. auto.
    + rewrite nth_error_app2 in Hi by exact Hge.
      destruct (i - List.length l)%nat as [|k] eqn:Ek;
        [|destruct k; discriminate].
      injection Hi as <-. assert (i = List.length l) by lia. subst i.
      exists pt. rewrite nth_error_app2 by lia.
      rewrite Hlen, Nat.sub_diag. simpl.
      rewrite investedBefore_app by lia.
      now rewrite <- replayHistory_invested.
Qed.

Lemma replayHistory_dates (l : list Transaction) :
  map p_date (tl_points (replayHistory l)) = map tx_date l.
Proof.
  induction l as [|tx l IH] using rev_ind; [reflexivity|].
  rewrite replayHistory_snoc.
  destruct (historyStep_points (replayHistory l) tx) as (pt & -> & Hd & _).
  rewrite !map_app, IH. simpl. now rewrite Hd.
Qed.

(** The case analysis the source makes on [tx.type] for [invested]. *)
Lemma investedAfter_cases (invested : float) (tx : Transaction) :
  investedAfter invested tx
  = match tx_type tx with
    | DEPOSIT => (invested + Js.orNum (tx_price tx) 0)%float
    | WITHDRAW => (invested - Js.orNum (tx_price tx) 0)%float
    | BUY | SELL | DIVIDEND | SPLIT => invested
    end.
Proof. unfold investedAfter. now destruct (tx_type tx). Qed.

Lemma history_nonempty (parseDate : string -> option JsDate) (engine : Engine)
  (txs : list Transaction) (prices : PriceMap) :
  txs <> [] ->
  calculatePortfolioHistory parseDate engine txs prices
  = tl_points (replayHistory (sortTx parseDate engine txs))
    ++ [nowPoint prices (replayHistory (sortTx parseDate engine txs))].
Proof. now destruct txs. Qed.

(** C5.  In the timeline of [calculatePortfolioHistory], the point emitted
    for the [i]-th transaction of the replay carries that transaction's date
    and an [invested] that is the previous point's [invested] ([0] before
    the first point) plus the amount on a DEPOSIT, minus the amount on a
    WITHDRAW, and unchanged on a BUY, SELL, DIVIDEND or SPLIT; the trailing
    point repeats the [invested] of the point before it. *)
Theorem invested_changes_only_on_funding
  (parseDate : string -> option JsDate) (engine : Engine) (txs : list Transaction) (prices : PriceMap) :
  let pts := calculatePortfolioHistory parseDate engine txs prices in
  (forall i tx,
      nth_error (sortTx parseDate engine txs) i = Some tx ->
      exists pt,
        nth_error pts i = Some pt
        /\ p_date pt = tx_date tx
        /\ p_invested pt
           = match tx_type tx with
             | DEPOSIT =>
                 (investedBefore pts i + Js.orNum (tx_price tx) 0)%float
             | WITHDRAW =>
                 (investedBefore pts i - Js.orNum (tx_price tx) 0)%float
             | BUY | SELL | DIVIDEND | SPLIT => investedBefore pts i
             end)
  /\ (forall pt,
        nth_error pts (List.length txs) = Some pt ->
        p_invested pt = investedBefore pts (List.length txs)).
Proof.
  intros pts. subst pts.
  destruct txs as [|t0 txs']; [split; [intros [|i] tx Hi|intros pt Hp]; discriminate|].
  remember (t0 :: txs') as txs eqn:Etxs.
  assert (Hne : txs <> []) by (subst; discriminate).
  rewrite (history_nonempty parseDate engine txs prices Hne).
  set (sorted := sortTx parseDate engine txs).
  assert (Hlen : List.length (tl_points (replayHistory sorted)) = List.length txs)
    by (rewrite replayHistory_length; apply sortTx_length).
  split.
  - intros i tx Hi.
    assert (Hlt : (i < List.length txs)%nat).
    { rewrite <- (sortTx_length parseDate engine). apply nth_error_Some.
      fold sorted. now rewrite Hi. }
    destruct (replayHistory_point sorted i tx Hi) as (pt & Hp & Hd & Hv).
    exists pt. rewrite nth_error_app1 by lia.
    rewrite investedBefore_app by lia.
    rewrite <- investedAfter_cases. auto.
  - intros pt Hp.
    rewrite nth_error_app2 in Hp by lia.
    rewrite Hlen, Nat.sub_diag in Hp. injection Hp as <-.
    rewrite investedBefore_app by lia. simpl.
    rewrite replayHistory_invested. unfold sorted.
    now rewrite sortTx_length.
Qed.

Lemma stockValue_without_live_prices (prices : PriceMap)
  (holdings : Obj.t Position) :
  (forall s, prices s = None) ->
  currentStockValueOf prices holdings = stockValueOf holdings.
Proof.
  intros Hnone. unfold currentStockValueOf, stockValueOf, Obj.values.
  generalize (Obj.entries holdings) 0%float.
  induction l as [|[k h] l IH]; intros acc; simpl; [reflexivity|].
  now rewrite Hnone, IH.
Qed.

(** The value of the last per-transaction point is the cash and the
    holdings the replay ends with. *)
Lemma replayHistory_last_value (l : list Transaction) (tx : Transaction) :
  exists pt,
    nth_error (tl_points (replayHistory (l ++ [tx]))) (List.length l) = Some pt
    /\ p_value pt
       = (tl_cash (replayHistory (l ++ [tx]))
          + stockValueOf (tl_holdings (replayHistory (l ++ [tx]))))%float.
Proof.
  rewrite replayHistory_snoc.
  destruct (historyStep_points (replayHistory l) tx) as (pt & Hp & _ & _ & Hv).
  exists pt. rewrite Hp, nth_error_app2 by (rewrite replayHistory_length; lia).
  rewrite replayHistory_length, Nat.sub_diag. now split.
Qed.

(** The valuation of the trailing point is the sum of the positions at
    their current quotes. *)
Lemma currentStockValue_quotes (prices : PriceMap) (holdings : Obj.t Position) :
  currentStockValueOf prices holdings
  = sumOf (positionValues prices holdings).
Proof.
  unfold currentStockValueOf, sumOf, positionValues.
  generalize (Obj.entries holdings) 0%float.
  induction l as [|[k h] l IH]; intros acc; simpl; [reflexivity|].
  rewrite IH. unfold quoteOf. simpl. reflexivity.
Qed.

(** C6 (amended).  For every non-empty transaction list,
    [calculatePortfolioHistory] emits one point per transaction, carrying
    the dates of the replayed ledger, which is the ledger in date order
    when every date parses, followed by exactly one trailing point dated
    ["Now"].  The value of the trailing point is the cash plus, position by
    position, the shares times the current price of the symbol, or times
    the price of the last trade of the position when no current price (or
    0, or NaN) is supplied; with no current price at all it repeats the
    value of the point before it. *)
Theorem history_one_point_per_transaction_then_now
  (parseDate : string -> option JsDate) (engine : Engine)
  (txs : list Transaction) (prices : PriceMap) :
  txs <> [] ->
  let sorted := sortTx parseDate engine txs in
  let st := replayHistory sorted in
  let pts := calculatePortfolioHistory parseDate engine txs prices in
  List.length pts = S (List.length txs)
  /\ Permutation sorted txs
  /\ (datesValid parseDate txs = true -> chronological parseDate sorted)
  /\ map p_date (removelast pts) = map tx_date sorted
  /\ exists nowPt,
       nth_error pts (List.length txs) = Some nowPt
       /\ p_date nowPt = "Now"%string
       /\ p_value nowPt
          = (tl_cash st + sumOf (positionValues prices (tl_holdings st)))%float
       /\ ((forall s, prices s = None) ->
           exists pt, nth_error pts (List.length txs - 1) = Some pt
                      /\ p_value nowPt = p_value pt).
Proof.
  intros Hne sorted st pts. subst pts.
  rewrite (history_nonempty parseDate engine txs prices Hne).
  fold sorted. fold st.
  assert (Hlen : List.length (tl_points st) = List.length txs)
    by (unfold st; rewrite replayHistory_length; apply sortTx_length).
  split; [rewrite length_app, Hlen; simpl; lia|].
  split; [apply sortTx_perm|].
  split; [apply sortTx_sorted|].
  split; [rewrite removelast_last; apply replayHistory_dates|].
  exists (nowPoint prices st).
  split; [rewrite nth_error_app2 by lia; now rewrite Hlen, Nat.sub_diag|].
  split; [reflexivity|].
  split; [simpl; now rewrite currentStockValue_quotes|].
  intros Hnone.
  assert (Hs : sorted <> []).
  { intros E. apply Hne. apply length_zero_iff_nil.
    rewrite <- (sortTx_length parseDate engine). fold sorted. now rewrite E. }
  destruct (exists_last Hs) as (l & tx & El).
  assert (Hl : List.length txs = S (List.length l)).
  { rewrite <- (sortTx_length parseDate engine). fold sorted.
    rewrite El, length_app. simpl. lia. }
  destruct (replayHistory_last_value l tx) as (pt & Hp & Hv).
  rewrite <- El in Hp, Hv. fold st in Hp, Hv.
  exists pt. split.
  - rewrite nth_error_app1 by lia.
    replace (List.length txs - 1)%nat with (List.length l) by lia. exact Hp.
  - simpl. rewrite stockValue_without_live_prices by exact Hnone.
    now rewrite Hv.
Qed.

Lemma history_one_point_per_transaction_then_now_witness :
  depositThenPurchase <> []
  /\ map p_value
       (calculatePortfolioHistory isoDate inPlace depositThenPurchase xAtTwenty)
     = [1000; 1000; 700]%float
  /\ map p_value
       (calculatePortfolioHistory isoDate inPlace depositThenPurchase
          xReportedAtZero)
     = [1000; 1000; 1000]%float
  /\ List.length
       (calculatePortfolioHistory isoDate inPlace depositThenPurchase xAtTwenty)
     = 3%nat
  /\ exists nowPt,
       nth_error
         (calculatePortfolioHistory isoDate inPlace depositThenPurchase
            xAtTwenty) 2
       = Some nowPt
       /\ p_date nowPt = "Now"%string
       /\ p_value nowPt = (500 + sumOf [(10 * 20)%float])%float.
Proof.
  assert (Hne : depositThenPurchase <> []) by discriminate.
  split; [exact Hne|]. split; [reflexivity|]. split; [reflexivity|].
  destruct (history_one_point_per_transaction_then_now isoDate inPlace
              depositThenPurchase xAtTwenty Hne)
    as (Hlen & _ & _ & _ & nowPt & Hn & Hd & Hv & _).
  split; [exact Hlen|].
  exists nowPt. split; [exact Hn|]. split; [exact Hd|]. exact Hv.
Defined.

(** C6, as stated, fails on the empty ledger: the early return yields no
    point at all, not the single trailing point.  It also fails on a
    ledger with a date that does not parse: V8 leaves the three records
    of [undatedInBetween] in the order of entry, and the points come out
    of date order. *)
Lemma history_of_empty_ledger_has_no_point :
  (forall engine : Engine,
      calculatePortfolioHistory isoDate engine [] noPrices = [])
  /\ List.length (calculatePortfolioHistory isoDate inPlace [] noPrices)
     <> S (List.length (@nil Transaction))
  /\ shortArraySort (byDate (txDate isoDate)) undatedInBetween
     = undatedInBetween
  /\ map p_date
       (calculatePortfolioHistory isoDate inPlace undatedInBetween noPrices)
     = ["2024-01-03"; ""; "2024-01-01"; "Now"]%string.
Proof.
  split; [reflexivity|]. split; [discriminate|]. split; reflexivity.
Qed.

(** ** Net contributed capital, computed twice *)

Lemma replayHistory_netContributed_from (l : list Transaction) (st : Timeline) :
  tl_invested (fold_left historyStep l st)
  = fold_left investedAfter l (tl_invested st).
Proof.
  revert st. induction l as [|tx l IH]; intros st; simpl; [reflexivity|].
  now rewrite IH, historyStep_invested.
Qed.

Lemma replayHistory_netContributed (l : list Transaction) :
  tl_invested (replayHistory l) = netContributed l.
Proof. apply replayHistory_netContributed_from. Qed.

Lemma investedAfter_not_funding (invested : float) (tx : Transaction) :
  isFunding tx = false -> investedAfter invested tx = invested.
Proof.
  unfold isFunding, investedAfter. now destruct (tx_type tx).
Qed.

Lemma netContributed_funding_only_from (l : list Transaction) (acc : float) :
  fold_left investedAfter l acc
  = fold_left investedAfter (filter isFunding l) acc.
Proof.
  revert acc. induction l as [|tx l IH]; intros acc; simpl; [reflexivity|].
  destruct (isFunding tx) eqn:E; simpl.
  - apply IH.
  - now rewrite investedAfter_not_funding.
Qed.

Lemma netContributed_funding_only (l : list Transaction) :
  netContributed l = netContributed (filter isFunding l).
Proof. apply netContributed_funding_only_from. Qed.

Lemma fundingStep_netUSD (a : FundingAcc) (tx : Transaction) :
  isFunding tx = true ->
  fa_netUSD (fundingStep a tx) = investedAfter (fa_netUSD a) tx.
Proof.
  unfold isFunding, fundingStep, investedAfter.
  now destruct (tx_type tx).
Qed.

Lemma funding_netUSD_from (l : list Transaction) (a : FundingAcc) :
  Forall (fun tx => isFunding tx = true) l ->
  fa_netUSD (fold_left fundingStep l a)
  = fold_left investedAfter l (fa_netUSD a).
Proof.
  intros Hl. revert a. induction Hl as [|tx l Htx _ IH]; intros a; simpl.
  - reflexivity.
  - now rewrite IH, fundingStep_netUSD.
Qed.

Lemma netFundingUSD_netContributed (txs : list Transaction) :
  netFundingUSD (calculateFundingStats txs)
  = netContributed (filter isFunding txs).
Proof.
  unfold calculateFundingStats. simpl.
  apply funding_netUSD_from.
  apply Forall_forall. intros tx Htx. now apply filter_In in Htx.
Qed.

(** C10 (amended).  The [invested] of the trailing point and
    [netFundingUSD] are both the left-to-right sum of the signed
    DEPOSIT/WITHDRAW amounts (price field, a missing price counting as 0):
    the timeline in the order of its replay, which is the date order when
    every date parses, the funding statistics in ledger order.  They are
    sums of the same terms, and they are equal whenever every date parses
    and the DEPOSIT/WITHDRAW records already stand in date order in the
    ledger. *)
Theorem invested_now_and_net_funding
  (parseDate : string -> option JsDate) (engine : Engine)
  (txs : list Transaction) (prices : PriceMap) (pt : ChartDataPoint) :
  nth_error (calculatePortfolioHistory parseDate engine txs prices)
            (List.length txs)
  = Some pt ->
  p_invested pt
  = netContributed (filter isFunding (sortTx parseDate engine txs))
  /\ netFundingUSD (calculateFundingStats txs)
     = netContributed (filter isFunding txs)
  /\ Permutation (filter isFunding (sortTx parseDate engine txs))
                 (filter isFunding txs)
  /\ (datesValid parseDate txs = true ->
      chronological parseDate (filter isFunding (sortTx parseDate engine txs))
      /\ (chronological parseDate (filter isFunding txs) ->
          p_invested pt = netFundingUSD (calculateFundingStats txs))).
Proof.
  intros Hpt.
  assert (Hinv : p_invested pt
                 = netContributed
                     (filter isFunding (sortTx parseDate engine txs))).
  { destruct txs as [|t0 txs']; [discriminate|].
    remember (t0 :: txs') as txs eqn:Etxs.
    assert (Hne : txs <> []) by (subst; discriminate).
    rewrite (history_nonempty parseDate engine txs prices Hne) in Hpt.
    rewrite nth_error_app2 in Hpt
      by (rewrite replayHistory_length, sortTx_length; lia).
    rewrite replayHistory_length, sortTx_length, Nat.sub_diag in Hpt.
    injection Hpt as <-. simpl.
    now rewrite replayHistory_netContributed, netContributed_funding_only. }
  split; [exact Hinv|].
  split; [apply netFundingUSD_netContributed|].
  split.
  { apply filter_rearranged, sortTx_perm. }
  intros Hvalid. split.
  - rewrite filter_sortTx by exact Hvalid.
    apply sortTx_sorted. now apply datesValid_filter.
  - intros Hsorted.
    rewrite Hinv, netFundingUSD_netContributed.
    rewrite filter_sortTx by exact Hvalid.
    now rewrite (sortTx_chronological parseDate engine _ Hsorted).
Qed.

Lemma invested_now_and_net_funding_witness :
  p_invested (mkPoint "Now" 1500 1500)
  = netFundingUSD (calculateFundingStats twoDeposits).
Proof.
  apply (invested_now_and_net_funding isoDate inPlace twoDeposits noPrices).
  - reflexivity.
  - reflexivity.
  - split; [reflexivity|]. repeat constructor.
Defined.

(** C10, as stated, fails on a ledger entered newest first: the timeline
    adds 0.1, 0.2, 0.3 in date order, the funding statistics add 0.3, 0.2,
    0.1 in ledger order, and binary64 addition rounds the two sums
    differently. *)
Lemma invested_now_differs_from_net_funding :
  exists pt,
    nth_error
      (calculatePortfolioHistory isoDate inPlace depositsNewestFirst noPrices)
      (List.length depositsNewestFirst) = Some pt
    /\ p_invested pt = 0.6000000000000001%float
    /\ netFundingUSD (calculateFundingStats depositsNewestFirst) = 0.6%float
    /\ Js.neq (p_invested pt)
              (netFundingUSD (calculateFundingStats depositsNewestFirst))
       = true
    /\ p_invested pt
       <> netFundingUSD (calculateFundingStats depositsNewestFirst).
Proof.
  eexists. split; [reflexivity|]. repeat split.
  intros E. apply (f_equal Prim2SF) in E. vm_compute in E. discriminate.
Qed.

(** ** Objects used as maps *)

Section ObjFacts.
Context {T : Type}.
Implicit Types (m : Obj.t T) (k : string) (v : T).

Lemma get_set_same k v m : Obj.get k (Obj.set k v m) = Some v.
Proof.
  induction m as [|[k' v'] m IH]; simpl.
  - now rewrite String.eqb_refl.
  - destruct (String.eqb k k') eqn:E; simpl; now rewrite E.
Qed.

Lemma get_set_other k k' v m :
  k <> k' -> Obj.get k' (Obj.set k v m) = Obj.get k' m.
Proof.
  intros Hk. induction m as [|[k0 v0] m IH]; simpl.
  - apply String.eqb_neq in Hk. now rewrite String.eqb_sym, Hk.
  - destruct (String.eqb k k0) eqn:E; simpl.
    + apply String.eqb_eq in E. subst k0.
      apply String.eqb_neq in Hk. now rewrite String.eqb_sym, Hk.
    + now rewrite IH.
Qed.

Lemma set_get_id k v m : Obj.get k m = Some v -> Obj.set k v m = m.
Proof.
  induction m as [|[k' v'] m IH]; simpl; [discriminate|].
  destruct (String.eqb k k') eqn:E.
  - now intros [= ->].
  - intros H. now rewrite IH.
Qed.



Lemma get_In k v m : Obj.get k m = Some v -> In (k, v) m.
Proof.
  induction m as [|[k' v'] m IH]; simpl; [discriminate|].
  destruct (String.eqb k k') eqn:E.
  - apply String.eqb_eq in E. subst k'. intros [= ->]. now left.
  - auto.
Qed.

Lemma In_get k v m : NoDup (map fst m) -> In (k, v) m -> Obj.get k m = Some v.
Proof.
  induction m as [|[k' v'] m IH]; simpl; [easy|].
  intros Hnd [E|Hin]; inversion Hnd as [|? ? Hk' Hnd']; subst.
  - injection E as -> ->. now rewrite String.eqb_refl.
  - destruct (String.eqb k k') eqn:E; [|auto].
    apply String.eqb_eq in E. subst k'.
    exfalso. apply Hk'. now apply (in_map fst) in Hin.
Qed.

Lemma set_keys k v m :
  map fst (Obj.set k v m)
  = match Obj.get k m with
    | Some _ => map fst m
    | None => map fst m ++ [k]
    end.
Proof.
  induction m as [|[k' v'] m IH]; simpl; [reflexivity|].
  destruct (String.eqb k k') eqn:E; simpl; [reflexivity|].
  rewrite IH. now destruct (Obj.get k m).
Qed.

Lemma get_None_keys k m : Obj.get k m = None -> ~ In k (map fst m).
Proof.
  induction m as [|[k' v'] m IH]; simpl; [tauto|].
  destruct (String.eqb k k') eqn:E; [discriminate|].
  apply String.eqb_neq in E. intros H [E'|Hin]; [congruence | now apply IH].
Qed.

Lemma set_NoDup k v m : NoDup (map fst m) -> NoDup (map fst (Obj.set k v m)).
Proof.
  intros Hnd. rewrite set_keys.
  destruct (Obj.get k m) eqn:E; [exact Hnd|].
  apply NoDup_app; [exact Hnd | repeat constructor; easy|].
  intros x Hx [<-|[]]. now apply (get_None_keys _ _ E).
Qed.

Lemma entries_perm m : Permutation (Obj.entries m) m.
Proof.
  unfold Obj.entries.
  rewrite (Permutation_map snd (sortBy_perm _ (Obj.indexEntries m))).
  induction m as [|kv m IH]; simpl; [constructor|].
  unfold Obj.indexEntries, Obj.namedEntries in *. simpl.
  destruct (Obj.arrayIndex (fst kv)); simpl.
  - now constructor.
  - rewrite <- Permutation_middle. now constructor.
Qed.

Lemma values_In v m : In v (Obj.values m) -> exists k, In (k, v) m.
Proof.
  unfold Obj.values. intros H. apply in_map_iff in H.
  destruct H as ([k v'] & <- & Hin). exists k.
  now apply (Permutation_in _ (entries_perm m)).
Qed.

End ObjFacts.

(** ** The holdings aggregator *)

Section HoldingsFacts.
Variable parseDate : string -> option JsDate.
Variable engine : Engine.
Variable prices : PriceMap.

Lemma replay_snoc (l : list Transaction) (tx : Transaction) :
  replay prices (l ++ [tx]) = replayTx prices (replay prices l) tx.
Proof. apply fold_left_snoc. Qed.

Lemma replay_app (l l' : list Transaction) :
  replay prices (l ++ l') = fold_left (replayTx prices) l' (replay prices l).
Proof. apply fold_left_app. Qed.

Lemma replayTx_symbol (m : Obj.t Holding) (tx : Transaction) (sym : string) :
  tx_symbol tx = Some sym -> sym <> ""%string ->
  replayTx prices m tx
  = Obj.set sym (applyToHolding tx (holdingFor prices m sym tx)) m.
Proof.
  intros Hs Hne. unfold replayTx. rewrite Hs.
  apply String.eqb_neq in Hne. now rewrite Hne.
Qed.

Lemma replayTx_no_symbol (m : Obj.t Holding) (tx : Transaction) :
  Js.truthyStr (tx_symbol tx) = false -> replayTx prices m tx = m.
Proof.
  unfold replayTx, Js.truthyStr.
  destruct (tx_symbol tx) as [sym|]; [|reflexivity].
  now destruct (String.eqb sym "").
Qed.

(** A record on another symbol leaves the accumulator of [sym] alone. *)
Lemma replayTx_other (m : Obj.t Holding) (tx : Transaction) (sym : string) :
  tx_symbol tx <> Some sym ->
  Obj.get sym (replayTx prices m tx) = Obj.get sym m.
Proof.
  intros Hs. unfold replayTx.
  destruct (tx_symbol tx) as [s|]; [|reflexivity].
  destruct (String.eqb s ""); [reflexivity|].
  apply get_set_other. congruence.
Qed.

Lemma replay_others (l : list Transaction) (m : Obj.t Holding) (sym : string) :
  Forall (fun t => tx_symbol t <> Some sym) l ->
  Obj.get sym (fold_left (replayTx prices) l m) = Obj.get sym m.
Proof.
  intros Hl. revert m. induction Hl as [|tx l Htx _ IH]; intros m; simpl.
  - reflexivity.
  - now rewrite IH, replayTx_other.
Qed.

Lemma applyToHolding_symbol (tx : Transaction) (h : Holding) :
  h_symbol (applyToHolding tx h) = h_symbol h.
Proof.
  unfold applyToHolding.
  destruct (tx_type tx); simpl; try reflexivity.
  - now destruct (_ <? _)%float.
  - now destruct (Js.gtb _ _).
Qed.

Lemma set_wellKeyed (m : Obj.t Holding) (k : string) (h : Holding) :
  wellKeyed m -> h_symbol h = k -> wellKeyed (Obj.set k h m).
Proof.
  intros [Hnd Hk] Hh. split; [now apply set_NoDup|].
  clear Hnd. induction Hk as [|[k' v'] m Hkv Hm IH]; simpl.
  - now repeat constructor.
  - destruct (String.eqb k k') eqn:E; constructor; auto.
    apply String.eqb_eq in E. now subst.
Qed.

Lemma holdingFor_symbol (m : Obj.t Holding) (sym : string) (tx : Transaction) :
  wellKeyed m -> h_symbol (holdingFor prices m sym tx) = sym.
Proof.
  intros [_ Hk]. unfold holdingFor.
  destruct (Obj.get sym m) as [h|] eqn:E; [|reflexivity].
  apply get_In in E. rewrite Forall_forall in Hk. exact (Hk _ E).
Qed.

Lemma replayTx_wellKeyed (m : Obj.t Holding) (tx : Transaction) :
  wellKeyed m -> wellKeyed (replayTx prices m tx).
Proof.
  intros Hm. unfold replayTx.
  destruct (tx_symbol tx) as [sym|]; [|exact Hm].
  destruct (String.eqb sym ""); [exact Hm|].
  apply set_wellKeyed; [exact Hm|].
  rewrite applyToHolding_symbol. now apply holdingFor_symbol.
Qed.

Lemma replay_wellKeyed (l : list Transaction) : wellKeyed (replay prices l).
Proof.
  induction l as [|tx l IH] using rev_ind.
  - split; constructor.
  - rewrite replay_snoc. now apply replayTx_wellKeyed.
Qed.

(** What [calculateHoldings] returns comes from the accumulator stored
    under its symbol. *)
Lemma calculateHoldings_In (targets : PriceMap) (txs : list Transaction)
  (out : Holding) :
  In out (calculateHoldings parseDate engine txs prices targets) ->
  exists h,
    Obj.get (h_symbol out) (replay prices (sortTx parseDate engine txs)) = Some h
    /\ out = finalize prices targets h.
Proof.
  unfold calculateHoldings. intros H.
  apply filter_In in H. destruct H as [H _].
  apply in_map_iff in H. destruct H as (h & <- & Hin).
  apply values_In in Hin. destruct Hin as [k Hin].
  destruct (replay_wellKeyed (sortTx parseDate engine txs)) as [Hnd Hk].
  rewrite Forall_forall in Hk. pose proof (Hk _ Hin) as Hs. simpl in Hs.
  exists h. split; [|reflexivity].
  simpl. rewrite Hs. now apply In_get.
Qed.

End HoldingsFacts.

(** *** Average cost of a BUY that leaves no share *)

(** C1.  The division [h.totalCost / h.shares] of the BUY branch is not
    guarded: a BUY that leaves the share count of its symbol at 0 gives
    [avgCost = 0 / 0 = NaN], and [fee / 0 = Infinity] when it carries a
    fee, where the specification asks for 0. *)
Theorem buy_leaving_zero_shares_gives_nan_avgCost (engine : Engine) :
  map (fun h => (h_symbol h, h_shares h, h_avgCost h))
      (calculateHoldings isoDate engine buyWithoutShares noPrices noPrices)
  = [("X"%string, 0%float, nan)]
  /\ map (fun h => (h_symbol h, h_shares h, h_avgCost h))
         (calculateHoldings isoDate engine buyZeroSharesWithFee noPrices noPrices)
     = [("X"%string, 0%float, infinity)].
Proof. split; reflexivity. Qed.

(** *** Stock splits *)

(** C4.  A SPLIT whose ratio [r] (the shares field) is greater than 0
    multiplies the share count of the symbol by [r], divides its [avgCost]
    by [r] and leaves its [totalCost] as it is; a SPLIT whose ratio is not
    greater than 0 leaves the accumulator as it is, and the whole map
    unchanged when the symbol is already in it. *)
Theorem split_scales_shares_and_avgCost
  (prices : PriceMap) (m : Obj.t Holding) (tx : Transaction) (sym : string) :
  tx_type tx = SPLIT ->
  tx_symbol tx = Some sym -> sym <> ""%string ->
  let r := Js.orNum (tx_shares tx) 0 in
  let h := holdingFor prices m sym tx in
  (Js.gtb r 0 = true ->
   exists h',
     Obj.get sym (replayTx prices m tx) = Some h'
     /\ h_shares h' = (h_shares h * r)%float
     /\ h_avgCost h' = (h_avgCost h / r)%float
     /\ h_totalCost h' = h_totalCost h)
  /\ (Js.gtb r 0 = false ->
      Obj.get sym (replayTx prices m tx) = Some h
      /\ (Obj.get sym m = Some h -> replayTx prices m tx = m)).
Proof.
  intros Ht Hs Hne r h.
  rewrite (replayTx_symbol prices m tx sym Hs Hne). fold h.
  unfold applyToHolding. rewrite Ht. fold r.
  split; intros Hr; rewrite Hr.
  - eexists. rewrite get_set_same. repeat split.
  - split; [apply get_set_same | apply set_get_id].
Qed.

Lemma split_scales_shares_and_avgCost_witness :
  map (fun h => (h_shares h, h_avgCost h, h_totalCost h))
      (calculateHoldings isoDate inPlace buyThenSplit noPrices noPrices)
  = [(20, 25, 500)%float]
  /\ exists h',
       Obj.get "X"
         (replayTx noPrices
            (replay noPrices (firstn 1 buyThenSplit))
            (mkTx "2024-02-01" SPLIT (Some "X"%string) (Some 2%float)
                  (Some 0%float) None))
       = Some h'
       /\ h_shares h' = (10 * 2)%float
       /\ h_avgCost h' = (50 / 2)%float
       /\ h_totalCost h' = 500%float.
Proof.
  split; [reflexivity|].
  refine (proj1 (split_scales_shares_and_avgCost noPrices
                   (replay noPrices (firstn 1 buyThenSplit))
                   (mkTx "2024-02-01" SPLIT (Some "X"%string) (Some 2%float)
                         (Some 0%float) None)
                   "X"%string eq_refl eq_refl _) eq_refl).
  discriminate.
Defined.

(** The product of the two rounded fields is another matter: after a
    49-for-1 split of one share bought at 1, [shares * avgCost] is
    [49 * (1 / 49) = 0.9999999999999999] while [totalCost] is still 1. *)
Remark split_product_is_rounded :
  map (fun h => (h_shares h * h_avgCost h, h_totalCost h)%float)
      (calculateHoldings isoDate inPlace
         [ mkTx "2024-01-02" BUY (Some "X"%string) (Some 1%float)
                (Some 1%float) None;
           mkTx "2024-02-01" SPLIT (Some "X"%string) (Some 49%float)
                (Some 0%float) None ]
         noPrices noPrices)
  = [(0.9999999999999999, 1)%float].
Proof. reflexivity. Qed.

(** *** Records without a symbol *)

Section Skipping.
Variable parseDate : string -> option JsDate.
Variable engine : Engine.
Variable prices : PriceMap.

Lemma replay_skips_from (l : list Transaction) (m : Obj.t Holding) :
  fold_left (replayTx prices) l m
  = fold_left (replayTx prices)
      (filter (fun t => Js.truthyStr (tx_symbol t)) l) m.
Proof.
  revert m. induction l as [|tx l IH]; intros m; simpl; [reflexivity|].
  destruct (Js.truthyStr (tx_symbol tx)) eqn:E; simpl.
  - apply IH.
  - now rewrite replayTx_no_symbol.
Qed.

Lemma replay_skips (l : list Transaction) :
  datesValid parseDate l = true ->
  replay prices (sortTx parseDate engine l)
  = replay prices
      (sortTx parseDate engine (filter (fun t => Js.truthyStr (tx_symbol t)) l)).
Proof.
  intros Hl. unfold replay.
  now rewrite replay_skips_from, filter_sortTx.
Qed.

End Skipping.

(** C8 (amended).  On a ledger whose dates all parse, a record whose
    symbol is missing (absent, or empty) contributes nothing to the
    holdings: whatever its type, [calculateHoldings] returns the same list
    with the record in the ledger as with the record removed. *)
Theorem record_without_symbol_is_skipped
  (parseDate : string -> option JsDate) (engine : Engine)
  (prices targets : PriceMap)
  (before after : list Transaction) (tx : Transaction) :
  datesValid parseDate (before ++ tx :: after) = true ->
  Js.truthyStr (tx_symbol tx) = false ->
  calculateHoldings parseDate engine (before ++ tx :: after) prices targets
  = calculateHoldings parseDate engine (before ++ after) prices targets.
Proof.
  intros Hd Hs. unfold calculateHoldings.
  assert (Hd' : datesValid parseDate (before ++ after) = true).
  { unfold datesValid in *. rewrite forallb_app in *. simpl in Hd.
    apply andb_true_iff in Hd as [Hb Ha].
    apply andb_true_iff in Ha as [_ Ha]. now rewrite Hb, Ha. }
  rewrite (replay_skips parseDate engine prices (before ++ tx :: after) Hd).
  rewrite (replay_skips parseDate engine prices (before ++ after) Hd').
  rewrite !filter_app. simpl. now rewrite Hs.
Qed.

Lemma record_without_symbol_is_skipped_witness :
  calculateHoldings isoDate inPlace
    (firstn 1 buyThenSplit
     ++ mkTx "2024-01-15" BUY None (Some 3%float) (Some 7%float) None
     :: skipn 1 buyThenSplit) noPrices noPrices
  = calculateHoldings isoDate inPlace
      (firstn 1 buyThenSplit ++ skipn 1 buyThenSplit) noPrices noPrices.
Proof.
  apply (record_without_symbol_is_skipped isoDate inPlace noPrices noPrices).
  - reflexivity.
  - reflexivity.
Defined.

(** C8, as stated, fails when the record carries no date either.  The
    comparator is then [NaN] against every other record; V8 leaves the
    three records of [undatedInBetween] in the order of entry, so that the
    sale is replayed before the purchase (5 shares left, 60 realised),
    whereas the ledger without the record is sorted by date (no share
    left, 10 realised). *)
Lemma undated_record_without_symbol_is_not_skipped :
  shortArraySort (byDate (txDate isoDate)) undatedInBetween = undatedInBetween
  /\ map (fun h => (h_symbol h, h_shares h, h_realizedPL h))
         (calculateHoldings isoDate inPlace undatedInBetween noPrices noPrices)
     = [("X"%string, 5, 60)%float]
  /\ (forall engine : Engine,
        map (fun h => (h_symbol h, h_shares h, h_realizedPL h))
            (calculateHoldings isoDate engine saleBeforePurchase
               noPrices noPrices)
        = [("X"%string, 0, 10)%float])
  /\ calculateHoldings isoDate inPlace undatedInBetween noPrices noPrices
     <> calculateHoldings isoDate inPlace saleBeforePurchase noPrices noPrices.
Proof.
  split; [reflexivity|]. split; [reflexivity|]. split; [reflexivity|].
  intros E.
  apply (f_equal (map (fun h => Prim2SF (h_shares h)))) in E.
  vm_compute in E. discriminate.
Qed.

(** *** The clamp of SELL *)

Lemma applyToHolding_sell (tx : Transaction) (h : Holding) :
  tx_type tx = SELL ->
  let sold := Js.orNum (tx_shares tx) 0 in
  let h' := applyToHolding tx h in
  if (h_shares h - sold <? 0.000001)%float
  then h_shares h' = 0%float /\ h_totalCost h' = 0%float
  else h_shares h' = (h_shares h - sold)%float.
Proof.
  intros Ht. unfold applyToHolding. rewrite Ht. simpl.
  now destruct (_ <? _)%float.
Qed.

Lemma finalize_position (prices targets : PriceMap) (h : Holding) :
  h_symbol (finalize prices targets h) = h_symbol h
  /\ h_shares (finalize prices targets h) = h_shares h
  /\ h_totalCost (finalize prices targets h) = h_totalCost h
  /\ h_avgCost (finalize prices targets h) = h_avgCost h.
Proof. now repeat split. Qed.

(** C3 (amended).  Replaying a SELL that brings the running share count
    of its symbol below the epsilon 1e-6 leaves an accumulator whose
    [shares] and [totalCost] are exactly 0; this is the case of every SELL
    of exactly the number of shares held when that number is finite.  When
    no later record touches the symbol, the Holding returned for it, if
    any, has [shares] and [totalCost] exactly 0 as well. *)
Theorem sell_below_epsilon_leaves_exact_zero
  (parseDate : string -> option JsDate) (engine : Engine) (prices targets : PriceMap)
  (txs before after : list Transaction) (tx : Transaction) (sym : string) :
  sortTx parseDate engine txs = before ++ tx :: after ->
  tx_type tx = SELL ->
  tx_symbol tx = Some sym -> sym <> ""%string ->
  let held := h_shares (holdingFor prices (replay prices before) sym tx) in
  let sold := Js.orNum (tx_shares tx) 0 in
  (held - sold <? 0.000001)%float = true
  \/ ((sold =? held)%float = true /\ is_finite held = true) ->
  (exists h',
      Obj.get sym (replay prices (before ++ [tx])) = Some h'
      /\ h_shares h' = 0%float /\ h_totalCost h' = 0%float)
  /\ (Forall (fun t => tx_symbol t <> Some sym) after ->
      forall out,
        In out (calculateHoldings parseDate engine txs prices targets) ->
        h_symbol out = sym ->
        h_shares out = 0%float /\ h_totalCost out = 0%float).
Proof.
  intros Hsort Ht Hs Hne held sold Hsell.
  assert (Hlt : (held - sold <? 0.000001)%float = true).
  { destruct Hsell as [H|[He Hf]]; [exact H|].
    apply sub_equal_below_epsilon; [|exact Hf].
    rewrite eqb_spec in *. unfold SFeqb in *.
    destruct (Prim2SF sold) as [s1|s1| |s1 m1 e1] eqn:E1;
      destruct (Prim2SF held) as [s2|s2| |s2 m2 e2] eqn:E2;
      simpl in *; try discriminate; try reflexivity;
      try (destruct s1; discriminate); try (destruct s2; discriminate).
    - now destruct s1, s2.
    - change (Pos.compare_cont Eq m1 m2) with (Pos.compare m1 m2) in He.
      change (Pos.compare_cont Eq m2 m1) with (Pos.compare m2 m1).
      rewrite (Z.compare_antisym e1 e2), (Pos.compare_antisym m1 m2).
      destruct s1, s2; try discriminate;
        destruct (e1 ?= e2); try discriminate;
        destruct (m1 ?= m2)%positive; try discriminate; reflexivity. }
  assert (Hacc : exists h',
             Obj.get sym (replay prices (before ++ [tx])) = Some h'
             /\ h_shares h' = 0%float /\ h_totalCost h' = 0%float).
  { rewrite replay_snoc, (replayTx_symbol prices _ tx sym Hs Hne).
    eexists. rewrite get_set_same. split; [reflexivity|].
    pose proof (applyToHolding_sell tx
                  (holdingFor prices (replay prices before) sym tx) Ht) as H.
    simpl in H. fold held sold in H. now rewrite Hlt in H. }
  split; [exact Hacc|].
  intros Hafter out Hin Hsym.
  destruct (calculateHoldings_In parseDate engine prices targets txs out Hin)
    as (h & Hget & ->).
  destruct (finalize_position prices targets h) as (Es & Esh & Etc & _).
  rewrite Es in Hget, Hsym. subst sym.
  rewrite Hsort in Hget.
  change (before ++ tx :: after) with (before ++ [tx] ++ after) in Hget.
  rewrite app_assoc, replay_app, replay_others in Hget by exact Hafter.
  destruct Hacc as (h' & Hget' & H0 & H1).
  rewrite Hget' in Hget. injection Hget as <-.
  now rewrite Esh, Etc.
Qed.

Lemma sell_below_epsilon_leaves_exact_zero_witness :
  map (fun h => (h_symbol h, h_shares h, h_totalCost h, h_realizedPL h))
      (calculateHoldings isoDate inPlace buySellAll noPrices noPrices)
  = [("AAPL"%string, 0, 0, 200)%float]
  /\ Forall (fun out => h_symbol out = "AAPL"%string ->
                        h_shares out = 0%float /\ h_totalCost out = 0%float)
            (calculateHoldings isoDate inPlace buySellAll noPrices noPrices).
Proof.
  split; [reflexivity|].
  apply Forall_forall. intros out.
  refine (proj2 (sell_below_epsilon_leaves_exact_zero isoDate inPlace noPrices noPrices
                   buySellAll (firstn 3 buySellAll) []
                   (mkTx "2024-01-04" SELL (Some "AAPL"%string) (Some 5%float)
                         (Some 120%float) (Some 0%float))
                   "AAPL"%string eq_refl eq_refl eq_refl _ _) _ out).
  - discriminate.
  - right. split; reflexivity.
  - constructor.
Defined.

(** C3, as stated, fails when the number of shares held is infinite, as
    after a purchase of [Infinity] shares, a share count the CSV import
    reads: the sale of exactly all of them leaves
    [Infinity - Infinity = NaN] shares, which is not below the epsilon, and
    the position is returned with [NaN] for [shares] and for
    [totalCost]. *)
Lemma sale_of_an_infinite_holding_leaves_nan :
  map (fun kv => (fst kv, h_shares (snd kv)))
      (replay noPrices (firstn 1 infiniteShares))
  = [("X"%string, infinity)]
  /\ map (fun tx => (tx_type tx, Js.orNum (tx_shares tx) 0))
         (skipn 1 infiniteShares)
     = [(SELL, infinity)]
  /\ (infinity =? infinity)%float = true
  /\ (infinity - infinity <? 0.000001)%float = false
  /\ (forall engine : Engine,
        map (fun h => (h_symbol h, h_shares h, h_totalCost h))
            (calculateHoldings isoDate engine infiniteShares noPrices noPrices)
        = [("X"%string, nan, nan)])
  /\ (nan =? 0)%float = false.
Proof. repeat split. Qed.

(** *** Share counts are never negative *)







(** ** Monthly returns *)

Section MonthlyFacts.
Variable parseDate : string -> option JsDate.
Variable now : JsDate.
Variable engine : Engine.










Lemma filter_all {A : Type} (f : A -> bool) (l : list A) :
  Forall (fun x => f x = true) l -> filter f l = l.
Proof.
  induction 1 as [|x l Hx _ IH]; simpl; [reflexivity|]. now rewrite Hx, IH.
Qed.














End MonthlyFacts.






(** ** Maximum drawdown *)

Lemma drawdownStep_max_nonneg (s : Drawdown) (point : ChartDataPoint) :
  (0 <=? dd_max s)%float = true ->
  (0 <=? dd_max (drawdownStep s point))%float = true.
Proof.
  intros Hs. unfold drawdownStep, Js.gtb.
  destruct (0 <? _)%float; simpl; [|exact Hs].
  destruct (dd_max s <? _)%float eqn:E; [|exact Hs].
  exact (ltb_nonneg_trans _ _ Hs E).
Qed.

Lemma drawdownStep_max_le_one (s : Drawdown) (point : ChartDataPoint) :
  (p_value point <? 0)%float = false ->
  (dd_max s <=? 1)%float = true ->
  (dd_max (drawdownStep s point) <=? 1)%float = true.
Proof.
  intros Hv Hs. unfold drawdownStep, Js.gtb.
  set (peak := if (dd_peak s <? p_value point)%float
               then p_value point else dd_peak s).
  assert (Hpv : (peak <? p_value point)%float = false).
  { unfold peak. destruct (dd_peak s <? p_value point)%float eqn:E;
      [apply ltb_irrefl | exact E]. }
  destruct (0 <? peak)%float eqn:Hp; simpl; [|exact Hs].
  destruct (dd_max s <? _)%float eqn:E; [|exact Hs].
  destruct (drawdown_ratio_bounds peak (p_value point) Hp Hv Hpv)
    as [Hnan|[_ Hle]]; [|exact Hle].
  rewrite (is_nan_ltb_r _ _ Hnan) in E. discriminate.
Qed.

Lemma drawdown_fold_nonneg (chartData : list ChartDataPoint) (s : Drawdown) :
  (0 <=? dd_max s)%float = true ->
  (0 <=? dd_max (fold_left drawdownStep chartData s))%float = true.
Proof.
  revert s. induction chartData as [|p l IH]; intros s Hs; simpl; [exact Hs|].
  apply IH. now apply drawdownStep_max_nonneg.
Qed.

Lemma drawdown_fold_le_one (chartData : list ChartDataPoint) (s : Drawdown) :
  noNegativeValue chartData ->
  (dd_max s <=? 1)%float = true ->
  (dd_max (fold_left drawdownStep chartData s) <=? 1)%float = true.
Proof.
  intros Hc. revert s. induction Hc as [|p l Hp _ IH]; intros s Hs; simpl.
  - exact Hs.
  - apply IH. now apply drawdownStep_max_le_one.
Qed.

(** C2 (amended).  For every list of valuation points the output of
    [calculateMaxDrawdown] is a number not below 0; when no point has a
    negative value it is not above 100 either. *)
Theorem max_drawdown_bounds (chartData : list ChartDataPoint) :
  Js.geb (calculateMaxDrawdown chartData) 0 = true
  /\ (noNegativeValue chartData ->
      (calculateMaxDrawdown chartData <=? 100)%float = true).
Proof.
  unfold calculateMaxDrawdown, Js.geb. split.
  - apply mul_nonneg; [|reflexivity|reflexivity].
    now apply drawdown_fold_nonneg.
  - intros Hc. apply percent_bounds.
    + now apply drawdown_fold_nonneg.
    + now apply drawdown_fold_le_one.
Qed.

Lemma max_drawdown_bounds_witness :
  calculateMaxDrawdown peakThenTrough = 40%float
  /\ (calculateMaxDrawdown peakThenTrough <=? 100)%float = true.
Proof.
  split; [reflexivity|].
  apply (proj2 (max_drawdown_bounds peakThenTrough)).
  repeat constructor.
Defined.

(** C2, as stated, fails on a timeline whose value goes negative: from a
    peak of 100 down to -50 the drawdown is [(100 + 50) / 100 = 150%].
    The timeline of a ledger with an overdraft is of that kind. *)
Lemma max_drawdown_above_hundred :
  calculateMaxDrawdown peakThenOverdraft = 150%float
  /\ (calculateMaxDrawdown peakThenOverdraft <=? 100)%float = false
  /\ (forall engine : Engine,
        map p_value
            (calculatePortfolioHistory isoDate engine overdraftLedger noPrices)
        = [100; -50; -50]%float)
  /\ (forall engine : Engine,
        calculateMaxDrawdown
          (calculatePortfolioHistory isoDate engine overdraftLedger noPrices)
        = 150%float).
Proof. repeat split. Qed.

(** * Further properties of the derivation engine *)

(** ** The ledger is read in date order *)

Section SortedArrangement.
Context {A : Type}.
Variable le : A -> A -> bool.

(** Two sorted arrangements of the same elements coincide when no two
    distinct elements are tied. *)
Lemma sorted_perm_unique (l l' : list A) :
  StronglySorted (fun x y => le x y = true) l ->
  StronglySorted (fun x y => le x y = true) l' ->
  Permutation l l' ->
  (forall a b, In a l -> In b l -> le a b = true -> le b a = true -> a = b) ->
  l = l'.
Proof.
  intros Hl. revert l'.
  induction Hl as [|a l Hs IH Ha]; intros l' Hl' Hp Hanti.
  - now apply Permutation_nil in Hp.
  - destruct Hl' as [|b l' Hs' Hb].
    + apply Permutation_sym, Permutation_nil in Hp. discriminate.
    + assert (Eab : a = b).
      { assert (Ia : In a (b :: l')).
        { apply (Permutation_in _ Hp). now left. }
        assert (Ib : In b (a :: l)).
        { apply (Permutation_in _ (Permutation_sym Hp)). now left. }
        destruct Ia as [Ia|Ia]; [now symmetry|].
        destruct Ib as [Ib|Ib]; [assumption|].
        rewrite Forall_forall in Ha, Hb.
        apply Hanti; [now left|now right|now apply Ha|now apply Hb]. }
      subst b. f_equal.
      apply IH; [assumption|now apply Permutation_cons_inv in Hp|].
      intros x y Hx Hy. apply Hanti; now right.
Qed.

End SortedArrangement.

Lemma dateLeb_antisym (a b : JsDate) :
  dateLeb a b = true -> dateLeb b a = true -> a = b.
Proof.
  destruct a as [ma sa], b as [mb sb]. unfold dateLeb. simpl.
  rewrite !orb_true_iff, !andb_true_iff, !Z.ltb_lt, !Z.eqb_eq, !N.leb_le.
  intros H1 H2.
  assert (ma = mb) by lia. assert (sa = sb) by lia. now subst.
Qed.

Lemma NoDup_map_injective {A B : Type} (f : A -> B) (l : list A) (a b : A) :
  NoDup (map f l) -> In a l -> In b l -> f a = f b -> a = b.
Proof.
  induction l as [|x l IH]; simpl; [easy|].
  intros Hnd Ha Hb Hf. inversion Hnd as [|? ? Hx Hl]; subst.
  destruct Ha as [->|Ha], Hb as [->|Hb].
  - reflexivity.
  - exfalso. apply Hx. rewrite Hf. now apply in_map.
  - exfalso. apply Hx. rewrite <- Hf. now apply in_map.
  - now apply IH.
Qed.

(** A ledger whose records are all dated, at different instants, has one
    date order only. *)
Lemma sortTx_of_permutation (parseDate : string -> option JsDate)
  (engine : Engine) (l l' : list Transaction) :
  Permutation l l' ->
  datesValid parseDate l = true ->
  NoDup (map (txDate parseDate) l) ->
  sortTx parseDate engine l = sortTx parseDate engine l'.
Proof.
  intros Hp Hd Hnd.
  assert (Hd' : datesValid parseDate l' = true)
    by exact (dated_perm (txDate parseDate) l l' Hp Hd).
  apply (sorted_perm_unique (notLater (txDate parseDate))).
  - now apply sortTx_sorted.
  - now apply sortTx_sorted.
  - rewrite (sortTx_perm parseDate engine l), Hp. symmetry. apply sortTx_perm.
  - intros a b Ha Hb Hab Hba.
    apply (Permutation_in _ (sortTx_perm parseDate engine l)) in Ha, Hb.
    apply (NoDup_map_injective _ l a b Hnd Ha Hb).
    unfold datesValid in Hd. rewrite forallb_forall in Hd.
    rewrite (dated_instant (txDate parseDate) a (Hd a Ha)).
    rewrite (dated_instant (txDate parseDate) b (Hd b Hb)).
    f_equal. now apply dateLeb_antisym.
Qed.

(** X1.  The order in which the records were entered does not matter when
    every date parses and no two records carry the same instant: two
    ledgers made of the same records give the same holdings and the same
    timeline. *)
Theorem ledger_order_is_irrelevant (parseDate : string -> option JsDate)
  (engine : Engine) (l l' : list Transaction) (prices targets : PriceMap) :
  Permutation l l' ->
  datesValid parseDate l = true ->
  NoDup (map (txDate parseDate) l) ->
  calculateHoldings parseDate engine l prices targets
  = calculateHoldings parseDate engine l' prices targets
  /\ calculatePortfolioHistory parseDate engine l prices
     = calculatePortfolioHistory parseDate engine l' prices.
Proof.
  intros Hp Hd Hnd. unfold calculateHoldings, calculatePortfolioHistory.
  rewrite (sortTx_of_permutation parseDate engine l l' Hp Hd Hnd).
  split; [reflexivity|].
  destruct l as [|a l], l' as [|b l']; try reflexivity.
  - apply Permutation_nil in Hp. discriminate.
  - apply Permutation_sym, Permutation_nil in Hp. discriminate.
Qed.

Lemma ledger_order_is_irrelevant_witness :
  Permutation buySellAll (rev buySellAll)
  /\ datesValid isoDate buySellAll = true
  /\ NoDup (map (txDate isoDate) buySellAll)
  /\ calculateHoldings isoDate inPlace buySellAll noPrices noPrices
     = calculateHoldings isoDate inPlace (rev buySellAll) noPrices noPrices
  /\ calculatePortfolioHistory isoDate inPlace buySellAll noPrices
     = calculatePortfolioHistory isoDate inPlace (rev buySellAll) noPrices.
Proof.
  assert (Hp : Permutation buySellAll (rev buySellAll))
    by apply Permutation_rev.
  assert (Hd : datesValid isoDate buySellAll = true) by reflexivity.
  assert (Hnd : NoDup (map (txDate isoDate) buySellAll)).
  { repeat constructor; simpl; intuition discriminate. }
  split; [exact Hp|]. split; [exact Hd|]. split; [exact Hnd|].
  exact (ledger_order_is_irrelevant isoDate inPlace buySellAll (rev buySellAll)
           noPrices noPrices Hp Hd Hnd).
Defined.
(** ** One position per symbol *)

(** Filtering keeps the keys distinct. *)
Lemma filter_keeps_distinct {A K : Type} (key : A -> K) (keep : A -> bool)
  (xs : list A) (Hnd : NoDup (map key xs)) :
  NoDup (map key (filter keep xs)).
Proof.
  induction xs as [|x xs IH]; simpl; [constructor|].
  inversion Hnd as [|? ? Hx Hxs]; subst.
  destruct (keep x); simpl; [|now apply IH].
  constructor; [|now apply IH].
  intros Hin. apply Hx. apply in_map_iff in Hin as (y & Hy & Hin).
  apply filter_In in Hin as [Hin _]. rewrite <- Hy. now apply in_map.
Qed.

Lemma finalize_symbol (prices targets : PriceMap) (h : Holding) :
  h_symbol (finalize prices targets h) = h_symbol h.
Proof. reflexivity. Qed.

Section PositionsFacts.
Variable parseDate : string -> option JsDate.
Variable engine : Engine.
Variable prices : PriceMap.

Lemma wellKeyed_symbols (targets : PriceMap) (m : Obj.t Holding) :
  wellKeyed m ->
  map h_symbol (map (finalize prices targets) (Obj.values m))
  = map fst (Obj.entries m)
  /\ NoDup (map fst (Obj.entries m)).
Proof.
  intros [Hnd Hk]. split.
  - assert (He : Forall (fun kv => h_symbol (snd kv) = fst kv) (Obj.entries m)).
    { apply (Permutation_Forall (Permutation_sym (entries_perm m))), Hk. }
    unfold Obj.values. induction He as [|kv E Hkv _ IH]; simpl; [reflexivity|].
    now rewrite IH, Hkv.
  - apply (Permutation_NoDup (l := map fst m)); [|assumption].
    apply Permutation_map, Permutation_sym, entries_perm.
Qed.

(** A key of the map after one record is an earlier key or the symbol of
    the record. *)
Lemma replayTx_keys (m : Obj.t Holding) (tx : Transaction) (k : string) :
  In k (map fst (replayTx prices m tx)) ->
  In k (map fst m) \/ (tx_symbol tx = Some k /\ k <> ""%string).
Proof.
  unfold replayTx. destruct (tx_symbol tx) as [sym|]; [|now left].
  destruct (String.eqb sym "") eqn:E; [now left|].
  apply String.eqb_neq in E. rewrite set_keys.
  destruct (Obj.get sym m); [now left|].
  rewrite in_app_iff. simpl. intros [H|[H|[]]]; [now left|].
  subst k. now right.
Qed.

Lemma replay_keys_from (l : list Transaction) (m : Obj.t Holding) (k : string) :
  In k (map fst (fold_left (replayTx prices) l m)) ->
  In k (map fst m)
  \/ exists tx, In tx l /\ tx_symbol tx = Some k /\ k <> ""%string.
Proof.
  revert m. induction l as [|tx l IH]; intros m; simpl; [now left|].
  intros H. apply IH in H as [H|(tx' & Hin & Hs)].
  - apply replayTx_keys in H as [H|H]; [now left|].
    right. exists tx. split; [now left|assumption].
  - right. exists tx'. split; [now right|assumption].
Qed.

Lemma calculateHoldings_symbol_origin (targets : PriceMap)
  (txs : list Transaction) (h : Holding) :
  In h (calculateHoldings parseDate engine txs prices targets) ->
  exists tx, In tx txs /\ tx_symbol tx = Some (h_symbol h)
             /\ h_symbol h <> ""%string.
Proof.
  intros Hin. apply calculateHoldings_In in Hin as (h0 & Hget & _).
  apply get_In, (in_map fst) in Hget. simpl in Hget.
  apply replay_keys_from in Hget as [[]|(tx & Hin & Hs)].
  exists tx. split; [|assumption].
  now apply (Permutation_in _ (sortTx_perm parseDate engine txs)).
Qed.

(** The accumulator of a symbol only sees the records of the symbol. *)
Lemma replay_get_filter (sym : string) (l : list Transaction)
  (m m' : Obj.t Holding) :
  sym <> ""%string ->
  Obj.get sym m = Obj.get sym m' ->
  Obj.get sym (fold_left (replayTx prices) l m)
  = Obj.get sym (fold_left (replayTx prices) (filter (ofSymbol sym) l) m').
Proof.
  intros Hsym. revert m m'.
  induction l as [|tx l IH]; intros m m' Hm; simpl; [assumption|].
  unfold ofSymbol at 1. destruct (tx_symbol tx) as [s|] eqn:Es.
  - destruct (String.eqb s sym) eqn:E.
    + apply String.eqb_eq in E. subst s. simpl. apply IH.
      rewrite !(replayTx_symbol _ _ _ sym Es Hsym), !get_set_same.
      unfold holdingFor. now rewrite Hm.
    + apply IH. rewrite replayTx_other; [assumption|].
      rewrite Es. intros [= ->]. now rewrite String.eqb_refl in E.
  - apply IH. rewrite replayTx_other; [assumption|]. now rewrite Es.
Qed.

(** Replaying records of one symbol fills one key at most. *)
Lemma replay_one_symbol (sym : string) (l : list Transaction)
  (m : Obj.t Holding) :
  sym <> ""%string ->
  Forall (fun t => tx_symbol t = Some sym) l ->
  m = [] \/ (exists v, m = [(sym, v)]) ->
  fold_left (replayTx prices) l m = []
  \/ exists v, fold_left (replayTx prices) l m = [(sym, v)].
Proof.
  intros Hsym Hl. revert m.
  induction Hl as [|tx l Htx _ IH]; intros m Hm; simpl; [assumption|].
  apply IH. right. rewrite (replayTx_symbol _ _ _ sym Htx Hsym).
  destruct Hm as [->|[v ->]]; simpl.
  - eauto.
  - rewrite String.eqb_refl. eauto.
Qed.

Lemma values_single {T : Type} (k : string) (v : T) :
  Obj.values [(k, v)] = [v].
Proof.
  unfold Obj.values, Obj.entries, Obj.indexEntries, Obj.namedEntries. simpl.
  now destruct (Obj.arrayIndex k).
Qed.

End PositionsFacts.

(** X2.  [calculateHoldings] returns at most one position per symbol, and
    only for symbols that a record of the ledger names. *)
Theorem holdings_one_per_symbol (parseDate : string -> option JsDate) (engine : Engine)
  (txs : list Transaction) (prices targets : PriceMap) :
  NoDup (map h_symbol (calculateHoldings parseDate engine txs prices targets))
  /\ Forall (fun h => exists tx, In tx txs
                                 /\ tx_symbol tx = Some (h_symbol h)
                                 /\ h_symbol h <> ""%string)
            (calculateHoldings parseDate engine txs prices targets).
Proof.
  split.
  - unfold calculateHoldings. apply filter_keeps_distinct.
    destruct (wellKeyed_symbols prices targets _
                (replay_wellKeyed prices (sortTx parseDate engine txs))) as [-> H].
    exact H.
  - apply Forall_forall. intros h Hin.
    now apply (calculateHoldings_symbol_origin parseDate engine prices targets).
Qed.

(** X3.  On a ledger whose dates all parse, a position is computed from
    the records of its own symbol only: on the ledger reduced to these
    records, [calculateHoldings] returns that position and nothing else. *)
Theorem holding_depends_on_own_records (parseDate : string -> option JsDate)
  (engine : Engine) (txs : list Transaction) (prices targets : PriceMap)
  (h : Holding) :
  datesValid parseDate txs = true ->
  In h (calculateHoldings parseDate engine txs prices targets) ->
  calculateHoldings parseDate engine (filter (ofSymbol (h_symbol h)) txs)
    prices targets = [h].
Proof.
  intros Hd Hin.
  destruct (calculateHoldings_symbol_origin parseDate engine prices targets txs h Hin)
    as (_ & _ & _ & Hsym).
  assert (Hkept : kept h = true).
  { unfold calculateHoldings in Hin. now apply filter_In in Hin. }
  apply calculateHoldings_In in Hin as (h0 & Hget & Eh).
  unfold calculateHoldings. rewrite <- filter_sortTx by exact Hd.
  set (own := filter (ofSymbol (h_symbol h)) (sortTx parseDate engine txs)).
  assert (Hown : Obj.get (h_symbol h) (replay prices own) = Some h0).
  { rewrite <- Hget. symmetry. now apply replay_get_filter. }
  assert (Hall : Forall (fun t => tx_symbol t = Some (h_symbol h)) own).
  { apply Forall_forall. intros t Ht. apply filter_In in Ht as [_ Ht].
    unfold ofSymbol in Ht. destruct (tx_symbol t) as [s|]; [|discriminate].
    apply String.eqb_eq in Ht. now subst. }
  destruct (replay_one_symbol prices (h_symbol h) own [] Hsym Hall
              (or_introl eq_refl)) as [E|[v E]];
    fold (replay prices own) in E; rewrite E in Hown; simpl in Hown.
  - discriminate.
  - rewrite String.eqb_refl in Hown. injection Hown as ->.
    rewrite E, values_single. simpl. rewrite <- Eh, Hkept. reflexivity.
Qed.

Lemma holding_depends_on_own_records_witness :
  exists h,
    datesValid isoDate buySellAll = true
    /\ h_symbol h = "AAPL"%string
    /\ In h (calculateHoldings isoDate inPlace buySellAll noPrices noPrices)
    /\ calculateHoldings isoDate inPlace (filter (ofSymbol (h_symbol h)) buySellAll)
         noPrices noPrices = [h].
Proof.
  destruct (calculateHoldings isoDate inPlace buySellAll noPrices noPrices)
    as [|h rest] eqn:E.
  - exfalso. revert E. vm_compute. discriminate.
  - assert (Hin : In h (calculateHoldings isoDate inPlace buySellAll noPrices noPrices))
      by (rewrite E; now left).
    exists h. split; [reflexivity|].
    split; [revert E; vm_compute; now intros [= <- _]|].
    split; [now left|].
    exact (holding_depends_on_own_records isoDate inPlace buySellAll noPrices
             noPrices h eq_refl Hin).
Defined.

(** ** The figures of the dashboard and of the funding report *)

Lemma investedAmount_netContributed (l : list Transaction) :
  App.investedAmount l = netContributed l.
Proof.
  unfold App.investedAmount, netContributed.
  set (step := fun (sum : float) (t : Transaction) => _).
  assert (H : forall acc, fold_left step l acc = fold_left investedAfter l acc).
  { induction l as [|tx l IH]; intros acc; simpl; [reflexivity|].
    rewrite IH. f_equal. unfold step, investedAfter.
    now destruct (tx_type tx). }
  apply H.
Qed.

Lemma filter_idem {A : Type} (p : A -> bool) (l : list A) :
  filter p (filter p l) = filter p l.
Proof.
  induction l as [|x l IH]; simpl; [reflexivity|].
  destruct (p x) eqn:E; simpl; [|assumption]. now rewrite E, IH.
Qed.

(** X4.  The funding report, which hands [calculateFundingStats] the
    deposits and withdrawals only, gets the statistics of the whole
    ledger; and the invested amount of the dashboard is their
    [netFundingUSD], to the bit. *)
Theorem invested_amount_is_net_funding (txs : list Transaction) :
  FundingView.stats txs = calculateFundingStats txs
  /\ App.investedAmount txs = netFundingUSD (calculateFundingStats txs).
Proof.
  split.
  - unfold FundingView.stats, FundingView.fundingTxs, calculateFundingStats.
    change (fun t : Transaction =>
              isType (tx_type t) DEPOSIT || isType (tx_type t) WITHDRAW)
      with isFunding.
    now rewrite filter_idem.
  - rewrite investedAmount_netContributed, netFundingUSD_netContributed.
    apply netContributed_funding_only.
Qed.

Lemma combine_app_r {A B : Type} (l : list A) (p q : list B) :
  List.length p = List.length l -> combine l (p ++ q) = combine l p.
Proof.
  revert p. induction l as [|x l IH]; intros [|y p]; simpl; try easy.
  intros [= H]. now rewrite IH.
Qed.

(** The running total of the funding chart, started from the invested
    capital of a timeline, follows the timeline at every deposit and
    withdrawal. *)
Lemma cumulate_follows_timeline (l : list Transaction) (st : Timeline) :
  exists pts,
    tl_points (fold_left historyStep l st) = tl_points st ++ pts
    /\ List.length pts = List.length l
    /\ map (fun fp => (fp_date fp, fp_netInvested fp))
           (FundingView.cumulate (tl_invested st) (filter isFunding l))
       = map (fun tp => (p_date (snd tp), p_invested (snd tp)))
             (filter (fun tp => isFunding (fst tp)) (combine l pts)).
Proof.
  revert st. induction l as [|tx l IH]; intros st; simpl.
  - exists []. now rewrite app_nil_r.
  - destruct (IH (historyStep st tx)) as (pts & Hp & Hlen & Hc).
    destruct (historyStep_points st tx) as (pt & Ept & Hd & Hi & _).
    exists (pt :: pts). rewrite Hp, Ept, <- app_assoc. simpl.
    split; [reflexivity|]. split; [now rewrite Hlen|].
    rewrite historyStep_invested in Hc.
    destruct (isFunding tx) eqn:Ef; simpl.
    + rewrite Hd, Hi, <- Hc.
      replace (if isType (tx_type tx) DEPOSIT
               then (tl_invested st + Js.orNum (tx_price tx) 0)%float
               else (tl_invested st - Js.orNum (tx_price tx) 0)%float)
        with (investedAfter (tl_invested st) tx); [reflexivity|].
      unfold isFunding in Ef. unfold investedAfter.
      now destruct (tx_type tx).
    + now rewrite investedAfter_not_funding in Hc.
Qed.

(** X5.  On a ledger whose dates all parse, the cumulative net funding
    charted by the funding report is, at every deposit and withdrawal, the
    invested capital that the valuation timeline records at the point of
    the same record. *)
Theorem funding_chart_follows_timeline (parseDate : string -> option JsDate)
  (engine : Engine) (txs : list Transaction) (prices : PriceMap) :
  datesValid parseDate txs = true ->
  map (fun fp => (fp_date fp, fp_netInvested fp))
      (FundingView.cumulativeFundingData parseDate engine txs)
  = timelineAtFunding parseDate engine txs prices.
Proof.
  intros Hd.
  unfold FundingView.cumulativeFundingData, FundingView.fundingTxs,
    timelineAtFunding.
  change (fun t : Transaction =>
            isType (tx_type t) DEPOSIT || isType (tx_type t) WITHDRAW)
    with isFunding.
  rewrite <- filter_sortTx by exact Hd.
  destruct (cumulate_follows_timeline (sortTx parseDate engine txs)
              timelineStart)
    as (pts & Hp & Hlen & Hc). simpl in Hp, Hc. rewrite Hc.
  unfold calculatePortfolioHistory.
  destruct txs as [|t txs]; [reflexivity|].
  unfold replayHistory. rewrite Hp, combine_app_r by assumption.
  reflexivity.
Qed.

Lemma funding_chart_follows_timeline_witness :
  datesValid isoDate (rev depositsNewestFirst ++ rev buySellAll) = true
  /\ map (fun fp => (fp_date fp, fp_netInvested fp))
         (FundingView.cumulativeFundingData isoDate inPlace
            (rev depositsNewestFirst ++ rev buySellAll))
     = [ ("2024-01-01", 0.1); ("2024-01-01", 2000.1);
         ("2024-01-02", 2000.3); ("2024-01-03", 2000.6) ]%float
  /\ map (fun fp => (fp_date fp, fp_netInvested fp))
         (FundingView.cumulativeFundingData isoDate inPlace
            (rev depositsNewestFirst ++ rev buySellAll))
     = timelineAtFunding isoDate inPlace
         (rev depositsNewestFirst ++ rev buySellAll) noPrices.
Proof.
  split; [reflexivity|]. split; [reflexivity|].
  apply (funding_chart_follows_timeline isoDate inPlace
           (rev depositsNewestFirst ++ rev buySellAll) noPrices).
  reflexivity.
Defined.

(** ** Cash *)

Lemma historyStep_cash (st : Timeline) (tx : Transaction) :
  completeTrade tx ->
  tl_cash (historyStep st tx) = App.cashStep (tl_cash st) tx.
Proof.
  unfold completeTrade, historyStep, App.cashStep, cashAfterFunding, tradeStep,
    Js.truthyStr.
  destruct (tx_type tx); simpl; intros H;
    destruct (tx_symbol tx) as [sym|]; simpl;
    try destruct (String.eqb sym ""); simpl in *;
    try reflexivity;
    try (destruct H as (H & _); discriminate H);
    destruct H as (_ & -> & ->); reflexivity.
Qed.

Lemma replayHistory_cash (l : list Transaction) :
  Forall completeTrade l ->
  tl_cash (replayHistory l) = App.cashBalance l.
Proof.
  unfold replayHistory, App.cashBalance.
  change 0%float with (tl_cash timelineStart).
  generalize timelineStart.
  induction l as [|tx l IH]; intros st Hl; simpl; [reflexivity|].
  inversion Hl as [|? ? Htx Hl']; subst.
  now rewrite IH, historyStep_cash.
Qed.

(** X6.  On a non-empty ledger kept in date order whose trades are
    complete, the trailing point of the timeline shows the invested amount
    of the dashboard, and its value is the cash balance of the dashboard
    plus, position by position, the shares times the current price of the
    symbol, or times the price of the last trade of the position when no
    current price other than 0 is supplied. *)
Theorem now_point_shows_dashboard_figures (parseDate : string -> option JsDate)
  (engine : Engine) (txs : list Transaction) (prices : PriceMap) :
  txs <> [] ->
  chronological parseDate txs ->
  Forall completeTrade txs ->
  calculatePortfolioHistory parseDate engine txs prices
  = tl_points (replayHistory txs)
    ++ [{| p_date := "Now";
           p_invested := App.investedAmount txs;
           p_value :=
             (App.cashBalance txs
              + sumOf (positionValues prices
                         (tl_holdings (replayHistory txs))))%float |}].
Proof.
  intros Hne Hs Hc. unfold calculatePortfolioHistory.
  destruct txs as [|t txs]; [congruence|].
  rewrite (sortTx_chronological parseDate engine _ Hs).
  unfold nowPoint.
  now rewrite replayHistory_cash, replayHistory_netContributed,
    investedAmount_netContributed, currentStockValue_quotes.
Qed.

Lemma now_point_shows_dashboard_figures_witness :
  depositThenPurchase <> []
  /\ chronological isoDate depositThenPurchase
  /\ Forall completeTrade depositThenPurchase
  /\ App.investedAmount depositThenPurchase = 1000%float
  /\ App.cashBalance depositThenPurchase = 500%float
  /\ positionValues xAtTwenty
       (tl_holdings (replayHistory depositThenPurchase))
     = [200%float]
  /\ positionValues xReportedAtZero
       (tl_holdings (replayHistory depositThenPurchase))
     = [500%float]
  /\ calculatePortfolioHistory isoDate inPlace depositThenPurchase xAtTwenty
     = [ mkPoint "2024-01-01" 1000 1000; mkPoint "2024-01-02" 1000 1000;
         mkPoint "Now" 1000 700 ]
  /\ calculatePortfolioHistory isoDate inPlace depositThenPurchase xAtTwenty
     = tl_points (replayHistory depositThenPurchase)
       ++ [{| p_date := "Now";
              p_invested := App.investedAmount depositThenPurchase;
              p_value :=
                (App.cashBalance depositThenPurchase
                 + sumOf (positionValues xAtTwenty
                            (tl_holdings
                               (replayHistory depositThenPurchase))))%float |}].
Proof.
  assert (Hne : depositThenPurchase <> []) by discriminate.
  assert (Hs : chronological isoDate depositThenPurchase)
    by (split; [reflexivity | repeat constructor]).
  assert (Hc : Forall completeTrade depositThenPurchase)
    by (repeat constructor).
  split; [exact Hne|]. split; [exact Hs|]. split; [exact Hc|].
  do 5 (split; [reflexivity|]).
  exact (now_point_shows_dashboard_figures isoDate inPlace depositThenPurchase
           xAtTwenty Hne Hs Hc).
Defined.
(** ** CSV: what is exported can be read back *)

Lemma string_app_nil_r (s : string) : (s ++ "")%string = s.
Proof. induction s as [|c s IH]; simpl; [reflexivity|now rewrite IH]. Qed.

Lemma string_app_assoc (a b c : string) :
  ((a ++ b) ++ c)%string = (a ++ (b ++ c))%string.
Proof. induction a as [|x a IH]; simpl; [reflexivity|now rewrite IH]. Qed.

Lemma includes_cons (c x : ascii) (s : string) :
  includes c (String x s) = false ->
  Ascii.eqb x c = false /\ includes c s = false.
Proof. simpl. now intros H%orb_false_iff. Qed.

(** Outside quotes, a text without comma or quote is taken as it is. *)
Lemma parse_plain (s rest : string) (result : list string) (cur : string) :
  includes comma s = false -> includes dquote s = false ->
  parseFrom (s ++ rest) result cur false
  = parseFrom rest result (cur ++ s) false.
Proof.
  revert cur. induction s as [|c s IH]; intros cur Hc Hq.
  - now rewrite string_app_nil_r.
  - apply includes_cons in Hc as [Hc Hc'], Hq as [Hq Hq'].
    simpl. rewrite Hq, Hc, IH by assumption.
    now rewrite string_app_assoc.
Qed.

(** Inside quotes, the doubled text is read back up to the closing quote,
    provided no quote follows it. *)
Lemma parse_quoted (s rest : string) (result : list string) (cur : string) :
  (forall r, rest <> String dquote r) ->
  parseFrom (doubleQuotes s ++ String dquote rest) result cur true
  = parseFrom rest result (cur ++ s) false.
Proof.
  intros Hrest. revert cur. induction s as [|c s IH]; intros cur.
  - rewrite string_app_nil_r. simpl.
    destruct rest as [|next r]; [reflexivity|].
    destruct (Ascii.eqb next dquote) eqn:E; [|reflexivity].
    apply Ascii.eqb_eq in E. subst next. now destruct (Hrest r).
  - simpl. destruct (Ascii.eqb c dquote) eqn:E.
    + apply Ascii.eqb_eq in E. subst c. simpl.
      rewrite IH. now rewrite string_app_assoc.
    + simpl. rewrite E, IH. now rewrite string_app_assoc.
Qed.

(** One escaped cell, followed by the end of the line or by a comma. *)
Lemma parse_escaped (c : option string) (rest : string)
  (result : list string) (cur : string) :
  (forall r, rest <> String dquote r) ->
  parseFrom (escapeCSV c ++ rest) result cur false
  = parseFrom rest result (cur ++ cellText c) false.
Proof.
  intros Hrest. destruct c as [s|]; simpl.
  - destruct (includes comma s) eqn:Ec; simpl.
    + rewrite string_app_assoc. simpl. now apply parse_quoted.
    + destruct (includes dquote s) eqn:Eq; simpl.
      * rewrite string_app_assoc. simpl. now apply parse_quoted.
      * destruct (includes newline s); simpl.
        -- rewrite string_app_assoc. simpl. now apply parse_quoted.
        -- now apply parse_plain.
  - now rewrite string_app_nil_r.
Qed.

(** A line of escaped cells joined by commas splits into the cells. *)
Lemma parse_joined (c : option string) (cells : list (option string))
  (result : list string) :
  parseFrom (join "," (map escapeCSV (c :: cells))) result "" false
  = result ++ map cellText (c :: cells).
Proof.
  revert c result. induction cells as [|c' cells IH]; intros c result.
  - simpl. rewrite <- (string_app_nil_r (escapeCSV c)).
    rewrite parse_escaped by discriminate. reflexivity.
  - change (join "," (map escapeCSV (c :: c' :: cells)))
      with (escapeCSV c ++ "," ++ join "," (map escapeCSV (c' :: cells)))%string.
    rewrite parse_escaped by discriminate.
    change (parseFrom ("," ++ join "," (map escapeCSV (c' :: cells)))
              result ("" ++ cellText c) false)
      with (parseFrom (join "," (map escapeCSV (c' :: cells)))
              (result ++ [cellText c]) "" false).
    rewrite IH, <- app_assoc. reflexivity.
Qed.

(** X7.  Cells written with [escapeCSV] and joined by commas are read back
    by [parseCSVLine] as they were, whatever commas, quotes or line feeds
    they contain; an absent cell reads back as the empty text. *)
Theorem csv_cells_round_trip (cells : list (option string)) :
  cells <> [] ->
  parseCSVLine (join "," (map escapeCSV cells)) = map cellText cells.
Proof.
  destruct cells as [|c cells]; [congruence|]. intros _.
  unfold parseCSVLine. now rewrite parse_joined.
Qed.

Lemma csv_cells_round_trip_witness :
  [Some "a,b"; None; Some "plain"] <> []
  /\ parseCSVLine (join "," (map escapeCSV [Some "a,b"; None; Some "plain"]))
     = map cellText [Some "a,b"; None; Some "plain"].
Proof.
  assert (H : [Some "a,b"; None; Some "plain"] <> []) by discriminate.
  split; [exact H|].
  exact (csv_cells_round_trip [Some "a,b"; None; Some "plain"] H).
Defined.

(** X8.  Every data row written by [transactionsToCSV] is read back by
    [parseCSVLine] as the eleven cells of its record, one per column of
    the header. *)
Theorem exported_row_reads_back (showNumber : float -> string)
  (t : Transaction) :
  parseCSVLine (csvRow showNumber t) = map cellText (csvCells showNumber t)
  /\ List.length (parseCSVLine (csvRow showNumber t))
     = List.length csvHeaders.
Proof.
  assert (H : parseCSVLine (csvRow showNumber t)
              = map cellText (csvCells showNumber t)).
  { unfold parseCSVLine, csvRow, csvCells. now rewrite parse_joined. }
  split; [exact H|]. rewrite H. reflexivity.
Qed.

(** ** Grouping by year and by month *)

Section GroupingFacts.
Context {T V : Type}.
Variable skip : T -> bool.
Variable key : T -> string.
Variable update : string -> option V -> T -> V.

Lemma groupStep_skip (m : Obj.t V) (t : T) :
  skip t = true -> groupStep skip key update m t = m.
Proof. unfold groupStep. now intros ->. Qed.

Lemma groupStep_set (m : Obj.t V) (t : T) :
  skip t = false ->
  groupStep skip key update m t
  = Obj.set (key t) (update (key t) (Obj.get (key t) m) t) m.
Proof. unfold groupStep. now intros ->. Qed.

(** The entry of a key only sees the records filed under the key. *)
Lemma group_get_filter (p : T -> bool) (k : string) (l : list T)
  (m m' : Obj.t V) :
  (forall t, skip t = false -> p t = String.eqb (key t) k) ->
  Obj.get k m = Obj.get k m' ->
  Obj.get k (fold_left (groupStep skip key update) l m)
  = Obj.get k (fold_left (groupStep skip key update) (filter p l) m').
Proof.
  intros Hp. revert m m'.
  induction l as [|t l IH]; intros m m' Hm; simpl; [assumption|].
  destruct (skip t) eqn:Es.
  - rewrite (groupStep_skip m t Es).
    destruct (p t); simpl; [|now apply IH].
    rewrite (groupStep_skip m' t Es). now apply IH.
  - rewrite (groupStep_set m t Es), (Hp t Es).
    destruct (String.eqb (key t) k) eqn:Ek; simpl.
    + apply String.eqb_eq in Ek. rewrite (groupStep_set m' t Es), Ek.
      apply IH. now rewrite !get_set_same, Hm.
    + apply String.eqb_neq in Ek. apply IH.
      now rewrite get_set_other.
Qed.

Lemma group_NoDup (l : list T) (m : Obj.t V) :
  NoDup (map fst m) ->
  NoDup (map fst (fold_left (groupStep skip key update) l m)).
Proof.
  revert m. induction l as [|t l IH]; intros m Hm; simpl; [assumption|].
  apply IH. unfold groupStep. destruct (skip t); [assumption|].
  now apply set_NoDup.
Qed.

Lemma set_keys_In (k k' : string) (v : V) (m : Obj.t V) :
  In k' (map fst (Obj.set k v m)) <-> In k' (map fst m) \/ k' = k.
Proof.
  rewrite set_keys. destruct (Obj.get k m) as [v0|] eqn:E.
  - split; [now left|]. intros [H| ->]; [assumption|].
    apply get_In in E. now apply (in_map fst) in E.
  - rewrite in_app_iff. simpl. intuition.
Qed.

(** The keys are those of the records that are not skipped. *)
Lemma group_keys (l : list T) (m : Obj.t V) (k : string) :
  In k (map fst (fold_left (groupStep skip key update) l m))
  <-> In k (map fst m) \/ exists t, In t l /\ skip t = false /\ key t = k.
Proof.
  revert m. induction l as [|t l IH]; intros m; simpl.
  - split; [now left|]. now intros [H|(t & [] & _)].
  - rewrite IH. unfold groupStep. destruct (skip t) eqn:Es.
    + split.
      * intros [H|(t' & Hin & H)]; [now left|].
        right. exists t'. now split; [right|].
      * intros [H|(t' & [->|Hin] & Hs & Hk)]; [now left|congruence|].
        right. now exists t'.
    + rewrite set_keys_In. split.
      * intros [[H|H]|(t' & Hin & H)]; [now left| |].
        -- right. exists t. now split; [left|].
        -- right. exists t'. now split; [right|].
      * intros [H|(t' & [->|Hin] & Hs & Hk)].
        -- now left; left.
        -- left. now right.
        -- right. now exists t'.
Qed.

(** Records of one key fill one entry at most. *)
Lemma group_one_key (k : string) (l : list T) (m : Obj.t V) :
  Forall (fun t => skip t = false -> key t = k) l ->
  m = [] \/ (exists v, m = [(k, v)]) ->
  fold_left (groupStep skip key update) l m = []
  \/ exists v, fold_left (groupStep skip key update) l m = [(k, v)].
Proof.
  intros Hl. revert m.
  induction Hl as [|t l Ht _ IH]; intros m Hm; simpl; [assumption|].
  apply IH. unfold groupStep. destruct (skip t); [assumption|].
  rewrite (Ht eq_refl). right.
  destruct Hm as [->|[v ->]]; simpl.
  - eauto.
  - rewrite String.eqb_refl. eauto.
Qed.

Lemma entries_single (k : string) (v : V) : Obj.entries [(k, v)] = [(k, v)].
Proof.
  unfold Obj.entries, Obj.indexEntries, Obj.namedEntries. simpl.
  now destruct (Obj.arrayIndex k).
Qed.

(** What the map holds under a key is what the records of the key alone
    produce, and nothing else is produced by them. *)
Lemma group_alone (p : T -> bool) (k : string) (v : V) (l : list T) :
  (forall t, skip t = false -> p t = String.eqb (key t) k) ->
  In (k, v) (fold_left (groupStep skip key update) l []) ->
  fold_left (groupStep skip key update) (filter p l) [] = [(k, v)].
Proof.
  intros Hp Hin.
  assert (Hget : Obj.get k (fold_left (groupStep skip key update) l [])
                 = Some v).
  { apply In_get; [|assumption]. apply group_NoDup. constructor. }
  rewrite (group_get_filter p k l [] [] Hp eq_refl) in Hget.
  destruct (group_one_key k (filter p l) []) as [E|[v' E]].
  - apply Forall_forall. intros t Ht Hs. apply filter_In in Ht as [_ Ht].
    rewrite (Hp t Hs) in Ht. now apply String.eqb_eq.
  - now left.
  - rewrite E in Hget. discriminate.
  - rewrite E in Hget |- *. simpl in Hget.
    rewrite String.eqb_refl in Hget. now injection Hget as ->.
Qed.

End GroupingFacts.

Lemma filter_comm {A : Type} (p q : A -> bool) (l : list A) :
  filter p (filter q l) = filter q (filter p l).
Proof.
  induction l as [|x l IH]; simpl; [reflexivity|].
  destruct (p x) eqn:Ep, (q x) eqn:Eq; simpl;
    rewrite ?Ep, ?Eq, IH; reflexivity.
Qed.

Lemma In_sortBy {A : Type} (le : A -> A -> bool) (x : A) (l : list A) :
  In x (sortBy le l) <-> In x l.
Proof.
  split; apply Permutation_in;
    [apply sortBy_perm|apply Permutation_sym, sortBy_perm].
Qed.

(** *** Dividends *)

Section DividendsFacts.
Variable localeLeb : string -> string -> bool.

Lemma dividend_keys (key : Transaction -> string) (txs : list Transaction) :
  let grouped := fold_left (dividendStep key) (filter isDividend txs) [] in
  NoDup (map fst (Obj.entries grouped))
  /\ forall k, In k (map fst (Obj.entries grouped))
               <-> exists t, In t txs /\ isDividend t = true /\ key t = k.
Proof.
  intros grouped. unfold dividendStep in grouped.
  assert (Hp : Permutation (map fst (Obj.entries grouped)) (map fst grouped))
    by apply Permutation_map, entries_perm.
  split.
  - apply (Permutation_NoDup (Permutation_sym Hp)).
    apply group_NoDup. constructor.
  - intros k. split.
    + intros Hin. apply (Permutation_in _ Hp) in Hin.
      apply group_keys in Hin as [[]|(t & Hin & _ & Hk)].
      apply filter_In in Hin as [Hin Hd]. now exists t.
    + intros (t & Hin & Hd & Hk).
      apply (Permutation_in _ (Permutation_sym Hp)).
      apply group_keys. right. exists t.
      split; [now apply filter_In|now split].
Qed.

Lemma dividend_alone (key : Transaction -> string) (txs : list Transaction)
  (k : string) (v : float) :
  In (k, v)
     (Obj.entries (fold_left (dividendStep key) (filter isDividend txs) [])) ->
  Obj.entries
    (fold_left (dividendStep key)
       (filter isDividend (filter (fun t => String.eqb (key t) k) txs)) [])
  = [(k, v)].
Proof.
  intros Hin. apply (Permutation_in _ (entries_perm _)) in Hin.
  rewrite filter_comm. unfold dividendStep in *.
  rewrite (group_alone _ key _ (fun t => String.eqb (key t) k) k v
             (filter isDividend txs)); [apply entries_single|easy|assumption].
Qed.

(** X9.  The dividend reports have one entry per year, and one per month,
    in which the ledger records a dividend, and no other entry. *)
Theorem dividends_one_entry_per_period (txs : list Transaction) :
  (NoDup (map yd_year (getYearlyDividends localeLeb txs))
   /\ forall y, In y (map yd_year (getYearlyDividends localeLeb txs))
                <-> exists t, In t txs /\ isDividend t = true /\ txYear t = y)
  /\ (NoDup (map md_date (getMonthlyDividends localeLeb txs))
      /\ forall d, In d (map md_date (getMonthlyDividends localeLeb txs))
                   <-> exists t, In t txs /\ isDividend t = true
                                 /\ txMonth t = d).
Proof.
  split.
  - destruct (dividend_keys txYear txs) as [Hnd Hk].
    unfold getYearlyDividends.
    change (fold_left addYearly) with (fold_left (dividendStep txYear)).
    set (entries := Obj.entries _) in *.
    assert (Hp : Permutation
                   (map yd_year
                      (sortBy (fun a b => localeLeb (yd_year a) (yd_year b))
                         (map (fun kv => {| yd_year := fst kv;
                                            yd_value := snd kv |}) entries)))
                   (map fst entries)).
    { rewrite sortBy_perm, map_map. simpl. reflexivity. }
    split.
    + now apply (Permutation_NoDup (Permutation_sym Hp)).
    + intros y. rewrite <- Hk. split; apply Permutation_in;
        [assumption|now apply Permutation_sym].
  - destruct (dividend_keys txMonth txs) as [Hnd Hk].
    unfold getMonthlyDividends.
    change (fold_left addMonthly) with (fold_left (dividendStep txMonth)).
    set (entries := Obj.entries _) in *.
    assert (Hp : Permutation
                   (map md_date
                      (sortBy (fun a b => localeLeb (md_date a) (md_date b))
                         (map (fun kv => {| md_date := fst kv;
                                            md_value := snd kv |}) entries)))
                   (map fst entries)).
    { rewrite sortBy_perm, map_map. simpl. reflexivity. }
    split.
    + now apply (Permutation_NoDup (Permutation_sym Hp)).
    + intros d. rewrite <- Hk. split; apply Permutation_in;
        [assumption|now apply Permutation_sym].
Qed.

(** X10.  The amount reported for a year, or for a month, comes from the
    dividends of that period alone: on the ledger reduced to the records
    of the period, the report is that one entry. *)
Theorem dividends_of_a_period_alone (txs : list Transaction) :
  Forall (fun e =>
            getYearlyDividends localeLeb
              (filter (fun t => String.eqb (txYear t) (yd_year e)) txs) = [e])
         (getYearlyDividends localeLeb txs)
  /\ Forall (fun e =>
               getMonthlyDividends localeLeb
                 (filter (fun t => String.eqb (txMonth t) (md_date e)) txs)
               = [e])
            (getMonthlyDividends localeLeb txs).
Proof.
  split; apply Forall_forall; intros e Hin.
  - unfold getYearlyDividends in Hin. apply In_sortBy in Hin.
    apply in_map_iff in Hin as ([k v] & <- & Hin). simpl.
    change (fold_left addYearly) with (fold_left (dividendStep txYear)) in Hin.
    unfold getYearlyDividends.
    change (fold_left addYearly) with (fold_left (dividendStep txYear)).
    now rewrite (dividend_alone txYear txs k v Hin).
  - unfold getMonthlyDividends in Hin. apply In_sortBy in Hin.
    apply in_map_iff in Hin as ([k v] & <- & Hin). simpl.
    change (fold_left addMonthly) with (fold_left (dividendStep txMonth)) in Hin.
    unfold getMonthlyDividends.
    change (fold_left addMonthly) with (fold_left (dividendStep txMonth)).
    now rewrite (dividend_alone txMonth txs k v Hin).
Qed.

End DividendsFacts.

(** *** Monthly activity *)

Lemma set_keyed {T : Type} (f : T -> string) (k : string) (v : T)
  (m : Obj.t T) :
  Forall (fun kv => f (snd kv) = fst kv) m -> f v = k ->
  Forall (fun kv => f (snd kv) = fst kv) (Obj.set k v m).
Proof.
  intros Hm Hv. induction Hm as [|[k' v'] m Hkv Hm IH]; simpl.
  - now repeat constructor.
  - destruct (String.eqb k k') eqn:E.
    + apply String.eqb_eq in E. subst k'. now constructor.
    + now constructor.
Qed.

(** Every entry of the map is stored under its own [yearMonth]. *)
Lemma activity_keyed (l : list Transaction) (m : Obj.t MonthlyActivity) :
  Forall (fun kv => ma_yearMonth (snd kv) = fst kv) m ->
  Forall (fun kv => ma_yearMonth (snd kv) = fst kv)
         (fold_left activityStep l m).
Proof.
  revert m. induction l as [|t l IH]; intros m Hm; simpl; [assumption|].
  apply IH. unfold activityStep. destruct (undated t); [assumption|].
  apply set_keyed; [assumption|].
  destruct (Obj.get _ m) as [g|] eqn:E; simpl; [|reflexivity].
  apply get_In in E. rewrite Forall_forall in Hm. exact (Hm _ E).
Qed.

Lemma activity_entries (l : list Transaction) :
  let groups := fold_left activityStep l [] in
  map ma_yearMonth (Obj.values groups) = map fst (Obj.entries groups)
  /\ Permutation (map fst (Obj.entries groups)) (map fst groups).
Proof.
  intros groups. split.
  - assert (He : Forall (fun kv => ma_yearMonth (snd kv) = fst kv)
                        (Obj.entries groups)).
    { apply (Permutation_Forall (Permutation_sym (entries_perm groups))).
      now apply activity_keyed. }
    unfold Obj.values. induction He as [|kv E Hkv _ IH]; simpl; [reflexivity|].
    now rewrite IH, Hkv.
  - apply Permutation_map, entries_perm.
Qed.

(** An entry of the report is stored in the map under its month. *)
Lemma activity_In (localeLeb : string -> string -> bool)
  (txs : list Transaction) (g : MonthlyActivity) :
  In g (calculateMonthlyActivity localeLeb txs) ->
  In (ma_yearMonth g, g) (fold_left activityStep txs []).
Proof.
  unfold calculateMonthlyActivity. intros Hin. apply In_sortBy in Hin.
  apply values_In in Hin as [k Hin].
  assert (Hk := activity_keyed txs [] (Forall_nil _)).
  rewrite Forall_forall in Hk. specialize (Hk _ Hin). simpl in Hk.
  now rewrite Hk.
Qed.

(** X11.  The activity report has one entry per month in which the ledger
    has a record with a full date, and no other entry; the entry of a
    month comes from the records of that month alone. *)
Theorem monthly_activity_one_entry_per_month
  (localeLeb : string -> string -> bool) (txs : list Transaction) :
  NoDup (map ma_yearMonth (calculateMonthlyActivity localeLeb txs))
  /\ (forall ym, In ym (map ma_yearMonth (calculateMonthlyActivity localeLeb txs))
                 <-> exists t, In t txs /\ undated t = false /\ txMonth t = ym)
  /\ Forall (fun g =>
               calculateMonthlyActivity localeLeb
                 (filter (fun t => String.eqb (txMonth t) (ma_yearMonth g)) txs)
               = [g])
            (calculateMonthlyActivity localeLeb txs).
Proof.
  destruct (activity_entries txs) as [Hv Hp].
  assert (Hout : Permutation
                   (map ma_yearMonth (calculateMonthlyActivity localeLeb txs))
                   (map fst (fold_left activityStep txs []))).
  { unfold calculateMonthlyActivity. now rewrite sortBy_perm, Hv. }
  split; [|split].
  - apply (Permutation_NoDup (Permutation_sym Hout)).
    apply (group_NoDup undated txMonth activityUpdate). constructor.
  - intros ym. split.
    + intros Hin. apply (Permutation_in _ Hout) in Hin.
      apply (group_keys undated txMonth activityUpdate) in Hin
        as [[]|(t & Hin & Hs & Hk)].
      now exists t.
    + intros (t & Hin & Hs & Hk).
      apply (Permutation_in _ (Permutation_sym Hout)).
      apply (group_keys undated txMonth activityUpdate). right. now exists t.
  - apply Forall_forall. intros g Hin. apply activity_In in Hin.
    unfold calculateMonthlyActivity.
    change (fold_left activityStep)
      with (fold_left (groupStep undated txMonth activityUpdate)) in Hin |- *.
    rewrite (group_alone undated txMonth activityUpdate
               (fun t => String.eqb (txMonth t) (ma_yearMonth g))
               (ma_yearMonth g) g txs); [|easy|assumption].
    now rewrite values_single.
Qed.

(** *** Counting the records *)

Lemma activity_count_from (k : string) (l : list Transaction)
  (m : Obj.t MonthlyActivity) :
  Forall (fun t => inMonth k t = true) l ->
  match Obj.get k (fold_left activityStep l m) with
  | Some g => ma_transactionCount g
  | None => 0%N
  end
  = (match Obj.get k m with
     | Some g => ma_transactionCount g
     | None => 0%N
     end + N.of_nat (List.length l))%N.
Proof.
  intros Hl. revert m.
  induction Hl as [|t l Ht _ IH]; intros m; cbn [fold_left List.length].
  - now rewrite N.add_0_r.
  - rewrite IH. unfold inMonth in Ht.
    apply andb_true_iff in Ht as [Hd Hk].
    apply negb_true_iff in Hd. apply String.eqb_eq in Hk.
    unfold activityStep. rewrite Hd. fold (txMonth t). rewrite Hk.
    rewrite get_set_same.
    destruct (Obj.get k m);
      cbn [ma_transactionCount addActivity emptyActivity]; lia.
Qed.

Lemma totalCount_perm (a b : list MonthlyActivity) :
  Permutation a b -> totalCount a = totalCount b.
Proof.
  induction 1; simpl; try lia; congruence.
Qed.

Lemma totalCount_set (k : string) (v : MonthlyActivity)
  (m : Obj.t MonthlyActivity) :
  (totalCount (map snd (Obj.set k v m))
   + match Obj.get k m with
     | Some g => ma_transactionCount g
     | None => 0
     end
   = totalCount (map snd m) + ma_transactionCount v)%N.
Proof.
  induction m as [|[k' v'] m IH]; simpl; [lia|].
  destruct (String.eqb k k'); simpl; lia.
Qed.

Lemma activity_total_from (l : list Transaction) (m : Obj.t MonthlyActivity) :
  totalCount (map snd (fold_left activityStep l m))
  = (totalCount (map snd m)
     + N.of_nat (List.length (filter (fun t => negb (undated t)) l)))%N.
Proof.
  revert m. induction l as [|t l IH]; intros m; cbn [fold_left filter].
  { simpl. lia. }
  rewrite IH. unfold activityStep.
  destruct (undated t); cbn [negb List.length]; [reflexivity|].
  pose proof (totalCount_set (String.substring 0 7 (tx_date t))
                (addActivity
                   match Obj.get (String.substring 0 7 (tx_date t)) m with
                   | Some g => g
                   | None => emptyActivity (String.substring 0 7 (tx_date t))
                   end t) m) as H.
  destruct (Obj.get _ m);
    cbn [ma_transactionCount addActivity emptyActivity] in H; lia.
Qed.

(** X12.  Every record with a full date is counted once: the
    [transactionCount] of a month is the number of records dated in that
    month, and the counts of the report add up to the number of records
    that have a full date. *)
Theorem monthly_activity_counts (localeLeb : string -> string -> bool)
  (txs : list Transaction) :
  Forall (fun g =>
            ma_transactionCount g
            = N.of_nat (List.length (filter (inMonth (ma_yearMonth g)) txs)))
         (calculateMonthlyActivity localeLeb txs)
  /\ totalCount (calculateMonthlyActivity localeLeb txs)
     = N.of_nat (List.length (filter (fun t => negb (undated t)) txs)).
Proof.
  split.
  - apply Forall_forall. intros g Hin. apply activity_In in Hin.
    set (k := ma_yearMonth g) in *.
    assert (Hget : Obj.get k (fold_left activityStep txs []) = Some g).
    { apply In_get; [|assumption].
      apply (group_NoDup undated txMonth activityUpdate). constructor. }
    change (fold_left activityStep)
      with (fold_left (groupStep undated txMonth activityUpdate)) in Hget.
    rewrite (group_get_filter undated txMonth activityUpdate (inMonth k) k
               txs [] [] ) in Hget; [| |reflexivity].
    + pose proof (activity_count_from k (filter (inMonth k) txs) []) as H.
      change (fold_left activityStep)
        with (fold_left (groupStep undated txMonth activityUpdate)) in H.
      rewrite Hget in H. simpl in H. apply H.
      apply Forall_forall. intros t Ht. now apply filter_In in Ht.
    + intros t Hs. unfold inMonth. now rewrite Hs.
  - unfold calculateMonthlyActivity.
    rewrite (totalCount_perm _ _ (sortBy_perm _ _)).
    unfold Obj.values.
    rewrite (totalCount_perm _ _ (Permutation_map snd (entries_perm _))).
    now rewrite activity_total_from.
Qed.

(** ** A timeline that never falls has no drawdown *)

Lemma leb_not_gt (a b : float) :
  (a <=? b)%float = true -> (b <? a)%float = false.
Proof.
  rewrite leb_spec, ltb_spec. unfold SFleb, SFltb.
  destruct (Prim2SF a) as [sa|sa| |sa ma ea], (Prim2SF b) as [sb|sb| |sb mb eb];
    simpl; try easy;
    try (destruct sa; easy); try (destruct sb; easy);
    try (destruct sa, sb; easy).
  change (Pos.compare_cont Eq ma mb) with (Pos.compare ma mb).
  change (Pos.compare_cont Eq mb ma) with (Pos.compare mb ma).
  rewrite (Z.compare_antisym ea eb), (Pos.compare_antisym ma mb).
  destruct sa, sb; try easy;
    destruct (ea ?= eb); simpl; try easy;
    destruct (ma ?= mb)%positive; simpl; easy.
Qed.

(** The ratio [(peak - v) / peak] is not positive when [v] is neither
    below nor above a positive [peak]: it is a zero, or [NaN] when [v] is
    [NaN] or both are infinite. *)
Lemma level_ratio_not_positive (peak v : float) :
  (0 <? peak)%float = true ->
  (peak <? v)%float = false -> (v <? peak)%float = false ->
  (0 <? (peak - v) / peak)%float = false.
Proof.
  rewrite ltb_zero_spec, !ltb_spec, div_spec, sub_spec, Prim2SF_zero.
  unfold SF64div, SF64sub.
  set (P := Prim2SF peak). set (V := Prim2SF v).
  intros Hp Hpv Hvp.
  assert (HV : V = S754_nan \/ V = P).
  { unfold SFltb in Hpv, Hvp. clearbody P V.
    destruct P as [sp|sp| |sp mp ep]; try easy;
      destruct sp; try easy;
      destruct V as [sv|sv| |sv mv ev]; simpl in *; auto;
      try (destruct sv; auto; easy).
    destruct sv; [easy|]. right.
    change (Pos.compare_cont Eq mp mv) with (Pos.compare mp mv) in Hpv.
    change (Pos.compare_cont Eq mv mp) with (Pos.compare mv mp) in Hvp.
    rewrite (Z.compare_antisym ep ev), (Pos.compare_antisym mp mv) in Hvp.
    destruct (Z.compare_spec ep ev) as [->| |]; simpl in *; try easy.
    destruct (Pos.compare_spec mp mv) as [->| |]; simpl in *; easy. }
  clearbody P V. destruct HV as [-> | ->].
  - destruct P as [sp|sp| |sp mp ep]; reflexivity.
  - destruct P as [sp|sp| |sp mp ep]; try easy; destruct sp; try easy.
    destruct (SFsub_equal prec emax (S754_finite false mp ep)
                (S754_finite false mp ep)) as [s Hs]; [|exact I|].
    { unfold SFeqb. now rewrite SFcompare_refl. }
    rewrite Hs. reflexivity.
Qed.

Lemma drawdownStep_level (s : Drawdown) (point : ChartDataPoint) :
  dd_max s = 0%float ->
  (p_value point <? dd_peak s)%float = false ->
  dd_max (drawdownStep s point) = 0%float
  /\ (dd_peak (drawdownStep s point) = p_value point
      \/ dd_peak (drawdownStep s point) = dd_peak s).
Proof.
  intros Hmax Hlow. unfold drawdownStep, Js.gtb. rewrite Hmax.
  set (peak := if (dd_peak s <? p_value point)%float
               then p_value point else dd_peak s).
  assert (Hpeak : peak = p_value point \/ peak = dd_peak s).
  { unfold peak. destruct (dd_peak s <? p_value point)%float; auto. }
  assert (Hup : (peak <? p_value point)%float = false).
  { unfold peak. destruct (dd_peak s <? p_value point)%float eqn:E;
      [apply ltb_irrefl|exact E]. }
  assert (Hdown : (p_value point <? peak)%float = false).
  { unfold peak. destruct (dd_peak s <? p_value point)%float;
      [apply ltb_irrefl|exact Hlow]. }
  destruct (0 <? peak)%float eqn:Hpos; simpl; [|now split].
  rewrite (level_ratio_not_positive peak (p_value point) Hpos Hup Hdown).
  now split.
Qed.

Lemma drawdown_fold_level (chartData : list ChartDataPoint) (s : Drawdown) :
  neverFalls chartData ->
  dd_max s = 0%float ->
  Forall (fun p => (p_value p <? dd_peak s)%float = false) chartData ->
  dd_max (fold_left drawdownStep chartData s) = 0%float.
Proof.
  intros Hs. revert s.
  induction Hs as [|p l _ IH Hp]; intros s Hmax Hlow; simpl; [exact Hmax|].
  inversion Hlow as [|? ? Hlp Hll]; subst.
  destruct (drawdownStep_level s p Hmax Hlp) as [Hmax' Hpeak].
  apply IH; [exact Hmax'|].
  destruct Hpeak as [-> | ->]; [|exact Hll].
  apply Forall_forall. intros q Hq. rewrite Forall_forall in Hp.
  apply leb_not_gt. now apply Hp.
Qed.

(** X13.  When no point of the timeline is valued below an earlier one,
    the maximum drawdown is 0. *)
Theorem no_fall_no_drawdown (chartData : list ChartDataPoint) :
  neverFalls chartData -> calculateMaxDrawdown chartData = 0%float.
Proof.
  intros Hs. unfold calculateMaxDrawdown.
  rewrite (drawdown_fold_level chartData drawdownStart Hs eq_refl);
    [reflexivity|].
  apply Forall_forall. intros p _. simpl.
  rewrite ltb_spec. unfold SFltb.
  change (Prim2SF neg_infinity) with (S754_infinity true).
  destruct (Prim2SF (p_value p)) as [[]|[]| |[] m e]; reflexivity.
Qed.

Lemma no_fall_no_drawdown_witness :
  neverFalls risingTimeline /\ calculateMaxDrawdown risingTimeline = 0%float.
Proof.
  assert (H : neverFalls risingTimeline) by (repeat constructor).
  split; [exact H|]. exact (no_fall_no_drawdown risingTimeline H).
Defined.

(** ** Operations that are exact *)

Lemma shr_1_even (m : Z) :
  0 <= m ->
  shr_1 {| shr_m := 2 * m; shr_r := false; shr_s := false |}
  = {| shr_m := m; shr_r := false; shr_s := false |}.
Proof. destruct m as [|p|p]; [reflexivity|reflexivity|lia]. Qed.

(** Shifting out [k] zero bits loses nothing. *)
Lemma shr_iter_exact (k : nat) (m : Z) :
  0 <= m ->
  Nat.iter k shr_1
    {| shr_m := m * 2 ^ Z.of_nat k; shr_r := false; shr_s := false |}
  = {| shr_m := m; shr_r := false; shr_s := false |}.
Proof.
  revert m. induction k as [|k IH]; intros m Hm.
  - simpl. now rewrite Z.mul_1_r.
  - rewrite Nat.iter_succ_r.
    replace (m * 2 ^ Z.of_nat (S k)) with (2 * (m * 2 ^ Z.of_nat k)).
    + rewrite shr_1_even; [now apply IH|].
      apply Z.mul_nonneg_nonneg; [assumption|]. apply Z.pow_nonneg. lia.
    + rewrite Nat2Z.inj_succ, Z.pow_succ_r by lia. ring.
Qed.

Section ExactRounding.
Variables prec emax : Z.
Hypothesis Hprec : 0 < prec.
Hypothesis Hemax : prec < emax.

(** A canonical number written with [k] more zero bits rounds to
    itself. *)
Lemma binary_round_aux_exact (s : bool) (m : positive) (e k : Z) :
  0 <= k ->
  bounded prec emax m e = true ->
  binary_round_aux prec emax s (Z.pos m * 2 ^ k) (e - k) loc_Exact
  = S754_finite s m e.
Proof.
  intros Hk Hb. destruct (bounded_spec _ _ _ _ Hb) as [Hc He].
  assert (Hd : Zdigits2 (Z.pos m * 2 ^ k) = Zdigits2 (Z.pos m) + k).
  { apply Zdigits2_shift; try lia;
      assert (0 < 2 ^ k) by (apply Z.pow_pos_nonneg; lia); nia. }
  assert (Hshr : shr_fexp prec emax (Z.pos m * 2 ^ k) (e - k) loc_Exact
                 = ({| shr_m := Z.pos m; shr_r := false; shr_s := false |}, e)).
  { unfold shr_fexp. rewrite Hd.
    replace (Zdigits2 (Z.pos m) + k + (e - k)) with (Zdigits2 (Z.pos m) + e)
      by lia.
    rewrite Hc. replace (e - (e - k)) with k by lia.
    cbn [shr_record_of_loc].
    destruct k as [|p|p]; [|clear Hd|lia].
    - unfold shr. rewrite Z.pow_0_r, Z.mul_1_r, Z.sub_0_r. reflexivity.
    - unfold shr. rewrite iter_pos_nat.
      rewrite <- (positive_nat_Z p) at 1.
      rewrite shr_iter_exact by lia.
      f_equal. lia. }
  unfold binary_round_aux. rewrite Hshr.
  cbn [shr_m loc_of_shr_record round_nearest_even].
  unfold shr_fexp. rewrite Hc, Z.sub_diag.
  cbn [shr_record_of_loc shr shr_m fst snd].
  destruct (Z.leb_spec e (emax - prec)); [reflexivity|lia].
Qed.

(** An integer with at most [prec] digits is represented exactly. *)
Lemma binary_round_integer (p : positive) :
  Zdigits2 (Z.pos p) <= prec ->
  exists m e,
    binary_round prec emax false p 0 = S754_finite false m e
    /\ F2R (Z.pos m) e = IZR (Z.pos p).
Proof.
  intros Hd. unfold binary_round.
  change (Z.pos (digits2_pos p)) with (Zdigits2 (Z.pos p)).
  set (e' := fexp prec emax (Zdigits2 (Z.pos p) + 0)).
  assert (He' : e' = fexp prec emax (Zdigits2 (Z.pos p)))
    by (unfold e'; now rewrite Z.add_0_r).
  assert (Hneg : e' <= 0).
  { rewrite He'. unfold fexp, emin. lia. }
  pose proof (shl_align_spec p 0 e') as Hs.
  pose proof (F2R_shl_align p 0 e' Hneg) as [_ Hv].
  destruct (shl_align p 0 e') as [mz ez]. destruct Hs as [-> Hmz].
  rewrite Z.min_r in * by lia. simpl fst in Hv.
  exists mz, e'. split.
  - replace (Z.pos mz) with (Z.pos mz * 2 ^ 0) by (rewrite Z.pow_0_r; lia).
    replace e' with (e' - 0) at 1 by lia.
    apply binary_round_aux_exact; [lia|].
    unfold bounded, canonical_mantissa.
    change (Z.pos (digits2_pos mz)) with (Zdigits2 (Z.pos mz)).
    assert (Hdz : Zdigits2 (Z.pos mz) = Zdigits2 (Z.pos p) + (0 - e')).
    { apply Zdigits2_shift; try lia;
        assert (0 < 2 ^ (0 - e')) by (apply Z.pow_pos_nonneg; lia); nia. }
    rewrite Hdz.
    replace (Zdigits2 (Z.pos p) + (0 - e') + e') with (Zdigits2 (Z.pos p))
      by lia.
    rewrite <- He', Z.eqb_refl. simpl.
    apply Z.leb_le. lia.
  - rewrite Hv. unfold F2R, bpow. simpl. ring.
Qed.

End ExactRounding.

(** *** The length of an array *)

Lemma arrayLength_spec {A : Type} (a : list A) :
  Z.of_nat (List.length a) < 2 ^ 53 ->
  validNonneg prec emax (Prim2SF (arrayLength a))
  /\ SF2R (Prim2SF (arrayLength a)) = IZR (Z.of_nat (List.length a))
  /\ (a <> [] ->
      exists m e, Prim2SF (arrayLength a) = S754_finite false m e).
Proof.
  intros Hn. pose proof (Prim2SF_valid (arrayLength a)) as Hv.
  unfold arrayLength in *. rewrite of_uint63_spec in *.
  rewrite Uint63.of_Z_spec, Z.mod_small in *
    by (split; [lia|]; change Uint63Axioms.wB with (2 ^ 63); lia).
  destruct a as [|x a]; [repeat split; easy|].
  set (n := List.length (x :: a)) in *.
  destruct (Z.of_nat n) as [|p|p] eqn:Ep; [simpl in n; lia| |lia].
  assert (Hd : Zdigits2 (Z.pos p) <= 53).
  { pose proof (Zdigits2_bounds (Z.pos p) ltac:(lia)) as [Hlo _].
    assert (Hlt : 2 ^ (Zdigits2 (Z.pos p) - 1) < 2 ^ 53) by lia.
    apply Z.pow_lt_mono_r_iff in Hlt; lia. }
  destruct (binary_round_integer prec emax prec_pos prec_lt_emax p Hd)
    as (m & e & Hr & Hval).
  cbn [binary_normalize] in *. rewrite Hr in *.
  repeat split; [exact Hv|exact Hval|]. intros _. now exists m, e.
Qed.

Lemma below_one_bounds (r : float) :
  belowSF (Prim2SF r) (S754_finite false 4503599627370496 (-52)) ->
  (0 <=? r)%float = true /\ (r <=? 1)%float = true.
Proof.
  intros [Hf Hle]. pose proof (Prim2SF_valid r) as Hv.
  rewrite leb_zero_spec, leb_spec, Prim2SF_one. split.
  - destruct (Prim2SF r) as [[]|[]| |[] m e]; easy.
  - apply (SFleb_nonneg prec emax);
      [split; assumption | split; [reflexivity | exact I] | exact Hle].
Qed.

(** X14.  The win rate lies between 0 and 100. *)
Theorem win_rate_within_bounds (monthlyReturns : list MonthlyReturnData) :
  Z.of_nat (List.length monthlyReturns) < 2 ^ 53 ->
  (0 <=? calculateWinRate monthlyReturns)%float = true
  /\ (calculateWinRate monthlyReturns <=? 100)%float = true.
Proof.
  intros Hn. unfold calculateWinRate.
  destruct monthlyReturns as [|r0 l]; [now split|].
  set (all := r0 :: l) in *.
  set (wins := filter (fun m => Js.gtb (r_value m) 0) all).
  assert (Hw : (List.length wins <= List.length all)%nat)
    by apply filter_length_le.
  destruct (arrayLength_spec all Hn) as (_ & Hall & Hfin).
  destruct (Hfin ltac:(discriminate)) as (ma & ea & Ea).
  destruct (arrayLength_spec wins ltac:(lia)) as (Vw & Hwins & _).
  rewrite Ea in Hall. cbn [SF2R] in Hall.
  assert (Hb : belowSF (Prim2SF (arrayLength wins / arrayLength all))
                 (S754_finite false 4503599627370496 (-52))).
  { rewrite div_spec, Ea.
    apply (SFdiv_below prec emax prec_pos prec_lt_emax);
      [reflexivity | exact F2R_one | exact Vw |].
    rewrite Hwins, Hall. apply IZR_le. lia. }
  apply below_one_bounds in Hb as [H0 H1]. split.
  - now apply mul_nonneg.
  - now apply percent_bounds.
Qed.

Lemma win_rate_within_bounds_witness :
  Z.of_nat (List.length twoWinsOneLoss) < 2 ^ 53
  /\ (0 <=? calculateWinRate twoWinsOneLoss)%float = true
  /\ (calculateWinRate twoWinsOneLoss <=? 100)%float = true.
Proof.
  assert (H : Z.of_nat (List.length twoWinsOneLoss) < 2 ^ 53)
    by (vm_compute; reflexivity).
  split; [exact H|]. exact (win_rate_within_bounds twoWinsOneLoss H).
Defined.

(** ** Funding without exchange rates *)

(** Multiplying by 1 changes nothing. *)
Lemma mul_one_r (x : float) : (x * 1)%float = x.
Proof.
  apply Prim2SF_inj. rewrite mul_spec, Prim2SF_one.
  pose proof (Prim2SF_valid x) as Hv.
  destruct (Prim2SF x) as [s|s| |s m e]; unfold SF64mul; cbn [SFmul];
    rewrite ?xorb_false_r; try reflexivity.
  rewrite Pos2Z.inj_mul.
  change (Z.pos 4503599627370496) with (2 ^ 52).
  change (e + -52) with (e - 52).
  apply binary_round_aux_exact; [lia|exact Hv].
Qed.

Lemma SFdiv_core_self (m : positive) (e : Z) :
  SFdiv_core_binary prec emax (Z.pos m) e (Z.pos m) e
  = (2 ^ 53, -53, loc_Exact).
Proof.
  unfold SFdiv_core_binary. cbv zeta. rewrite !Z.sub_diag.
  change (Z.min (fexp prec emax 0) 0) with (-53).
  change (0 - -53) with 53. cbv iota beta.
  rewrite Z.shiftl_mul_pow2 by lia. rewrite (Z.mul_comm (Z.pos m)).
  pose proof (Z.div_mul (2 ^ 53) (Z.pos m) ltac:(lia)) as Hq.
  pose proof (Z.mod_mul (2 ^ 53) (Z.pos m) ltac:(lia)) as Hr.
  unfold Z.div, Z.modulo in Hq, Hr.
  destruct (Z.div_eucl (2 ^ 53 * Z.pos m) (Z.pos m)) as [q r].
  simpl in Hq, Hr. subst q r.
  unfold new_location, new_location_even, new_location_odd.
  now destruct (Z.even (Z.pos m)).
Qed.

(** A positive number divided by itself is 1, or NaN when it is
    infinite. *)
Lemma div_self (x : float) :
  (0 <? x)%float = true ->
  (x / x)%float = 1%float \/ is_nan (x / x)%float = true.
Proof.
  rewrite ltb_zero_spec, is_nan_spec. intros Hx.
  destruct (Prim2SF x) as [s|[]| |[] m e] eqn:E; try discriminate.
  - right. rewrite div_spec, E. reflexivity.
  - left. apply Prim2SF_inj. rewrite div_spec, E, Prim2SF_one.
    unfold SF64div. cbn [SFdiv]. rewrite SFdiv_core_self. reflexivity.
Qed.

Lemma fundingStep_without_rate (a : FundingAcc) (tx : Transaction) :
  noExchangeRate tx ->
  fa_netLocal a = fa_netUSD a -> fa_depLocal a = fa_depUSD a ->
  fa_netLocal (fundingStep a tx) = fa_netUSD (fundingStep a tx)
  /\ fa_depLocal (fundingStep a tx) = fa_depUSD (fundingStep a tx).
Proof.
  unfold noExchangeRate, fundingStep. intros -> Hn Hd.
  rewrite mul_one_r. destruct (isType (tx_type tx) DEPOSIT); simpl;
    now rewrite Hn, ?Hd.
Qed.

Lemma funding_without_rate_from (l : list Transaction) (a : FundingAcc) :
  Forall noExchangeRate l ->
  fa_netLocal a = fa_netUSD a -> fa_depLocal a = fa_depUSD a ->
  fa_netLocal (fold_left fundingStep l a)
  = fa_netUSD (fold_left fundingStep l a)
  /\ fa_depLocal (fold_left fundingStep l a)
     = fa_depUSD (fold_left fundingStep l a).
Proof.
  intros Hl. revert a.
  induction Hl as [|tx l Htx _ IH]; intros a Hn Hd; simpl; [now split|].
  destruct (fundingStep_without_rate a tx Htx Hn Hd) as [Hn' Hd'].
  now apply IH.
Qed.

(** The deposits of the loop are the deposits of the ledger. *)
Lemma funding_deposits_total_from (l : list Transaction) (a : FundingAcc) :
  fa_depUSD (fold_left fundingStep (filter isFunding l) a)
  = fold_left (fun sum t => (sum + Js.orNum (tx_price t) 0)%float)
              (filter isDeposit l) (fa_depUSD a).
Proof.
  revert a. induction l as [|tx l IH]; intros a; [reflexivity|].
  cbn [filter]. unfold isFunding at 1, isDeposit at 1.
  destruct (isType (tx_type tx) DEPOSIT) eqn:Ed; cbn [orb fold_left].
  - rewrite IH. unfold fundingStep. rewrite Ed. reflexivity.
  - destruct (isType (tx_type tx) WITHDRAW); [|apply IH].
    cbn [fold_left]. rewrite IH. unfold fundingStep. rewrite Ed. reflexivity.
Qed.

Lemma div_self_finite (x : float) :
  (0 <? x)%float = true -> is_finite x = true -> (x / x)%float = 1%float.
Proof.
  intros Hx Hf. destruct (div_self x Hx) as [H|H]; [exact H|].
  exfalso. rewrite is_nan_spec, div_spec in H.
  rewrite ltb_zero_spec in Hx. rewrite is_finite_spec in Hf.
  destruct (Prim2SF x) as [s|[]| |[] m e]; try discriminate.
  unfold SF64div in H. cbn [SFdiv] in H. rewrite SFdiv_core_self in H.
  discriminate H.
Qed.

(** A positive number that is not finite is [Infinity], which divided by
    itself is NaN. *)
Lemma div_self_infinite (x : float) :
  (0 <? x)%float = true -> is_finite x = false -> (x / x)%float = nan.
Proof.
  rewrite ltb_zero_spec, is_finite_spec.
  intros Hx Hf. apply Prim2SF_inj. rewrite div_spec.
  destruct (Prim2SF x) as [s|[]| |[] m e]; try discriminate; reflexivity.
Qed.

(** X15.  When no deposit or withdrawal carries an exchange rate other
    than 1, the net funding in local currency is the net funding in USD,
    to the bit, and the average FX cost is 1 as soon as the deposits add
    up to a positive finite amount; it is 0 when they add up to nothing
    positive, and NaN when they add up to Infinity. *)
Theorem funding_without_exchange_rates (txs : list Transaction) :
  Forall noExchangeRate txs ->
  netFundingLocal (calculateFundingStats txs)
  = netFundingUSD (calculateFundingStats txs)
  /\ avgFxCost (calculateFundingStats txs)
     = if (0 <? depositsTotal txs)%float
       then if is_finite (depositsTotal txs) then 1%float else nan
       else 0%float.
Proof.
  intros Hl. unfold calculateFundingStats. cbn [netFundingLocal netFundingUSD avgFxCost].
  assert (Hf : Forall noExchangeRate (filter isFunding txs)).
  { apply Forall_forall. intros tx Htx. apply filter_In in Htx as [Htx _].
    rewrite Forall_forall in Hl. now apply Hl. }
  destruct (funding_without_rate_from (filter isFunding txs) fundingStart Hf
              eq_refl eq_refl) as [Hn Hd].
  split; [exact Hn|]. rewrite Hd. unfold Js.gtb.
  rewrite funding_deposits_total_from.
  change (fold_left _ (filter isDeposit txs) (fa_depUSD fundingStart))
    with (depositsTotal txs).
  destruct (0 <? depositsTotal txs)%float eqn:Hpos; [|reflexivity].
  destruct (is_finite (depositsTotal txs)) eqn:Hfin.
  - now apply div_self_finite.
  - now apply div_self_infinite.
Qed.

Lemma funding_without_exchange_rates_witness :
  Forall noExchangeRate fundingWithoutRates
  /\ avgFxCost (calculateFundingStats fundingWithoutRates) = 1%float
  /\ avgFxCost (calculateFundingStats withdrawalOnly) = 0%float
  /\ avgFxCost (calculateFundingStats hugeDeposits) = nan
  /\ netFundingLocal (calculateFundingStats fundingWithoutRates)
     = netFundingUSD (calculateFundingStats fundingWithoutRates)
  /\ avgFxCost (calculateFundingStats fundingWithoutRates)
     = if (0 <? depositsTotal fundingWithoutRates)%float
       then if is_finite (depositsTotal fundingWithoutRates)
            then 1%float else nan
       else 0%float.
Proof.
  assert (H : Forall noExchangeRate fundingWithoutRates)
    by (repeat constructor).
  split; [exact H|]. do 3 (split; [reflexivity|]).
  exact (funding_without_exchange_rates _ H).
Defined.
(** ** A loss is at most 100% *)

Section Negation.
Variables prec emax : Z.

Lemma binary_round_aux_opp (s : bool) (m e : Z) (l : location) :
  binary_round_aux prec emax (negb s) m e l
  = SFopp (binary_round_aux prec emax s m e l).
Proof.
  unfold binary_round_aux.
  destruct (shr_fexp prec emax m e l) as [mrs e'].
  destruct (shr_fexp prec emax _ e' loc_Exact) as [mrs'' e''].
  destruct (shr_m mrs''); [reflexivity| |reflexivity].
  now destruct (e'' <=? emax - prec).
Qed.

Lemma binary_round_opp (m : positive) (e : Z) :
  binary_round prec emax true m e = SFopp (binary_round prec emax false m e).
Proof.
  unfold binary_round. destruct (shl_align m e _) as [mz ez].
  exact (binary_round_aux_opp false (Z.pos mz) ez loc_Exact).
Qed.

Lemma SFdiv_opp_l (x y : spec_float) :
  SFdiv prec emax (SFopp x) y = SFopp (SFdiv prec emax x y).
Proof.
  destruct x as [sx|sx| |sx mx ex], y as [sy|sy| |sy my ey];
    cbn [SFdiv SFopp]; try reflexivity;
    try (destruct sx, sy; reflexivity).
  destruct (SFdiv_core_binary prec emax (Z.pos mx) ex (Z.pos my) ey)
    as [[mz ez] lz].
  replace (xorb (negb sx) sy) with (negb (xorb sx sy))
    by (destruct sx, sy; reflexivity).
  apply binary_round_aux_opp.
Qed.

Lemma SFmul_opp_l (x y : spec_float) :
  SFmul prec emax (SFopp x) y = SFopp (SFmul prec emax x y).
Proof.
  destruct x as [sx|sx| |sx mx ex], y as [sy|sy| |sy my ey];
    cbn [SFmul SFopp]; try reflexivity;
    try (destruct sx, sy; reflexivity).
  replace (xorb (negb sx) sy) with (negb (xorb sx sy))
    by (destruct sx, sy; reflexivity).
  apply binary_round_aux_opp.
Qed.

(** [v - c] is the opposite of [c - v] when [v] is below [c]. *)
Lemma SFsub_swap (v : spec_float) (mc : positive) (ec : Z) :
  finNonneg v ->
  (SF2R v < F2R (Z.pos mc) ec)%R ->
  SFsub prec emax v (S754_finite false mc ec)
  = SFopp (SFsub prec emax (S754_finite false mc ec) v).
Proof.
  intros Hv Hlt. destruct v as [sv|sv| |[] mv ev]; try easy.
  cbn [SFsub cond_Zopp SF2R] in *.
  rewrite (Z.min_comm ec ev). set (ez := Z.min ev ec).
  destruct (F2R_shl_align mv ev ez ltac:(lia)) as [_ Ev].
  destruct (F2R_shl_align mc ec ez ltac:(lia)) as [_ Ec].
  set (mv' := fst (shl_align mv ev ez)) in *.
  set (mc' := fst (shl_align mc ec ez)) in *.
  assert (H : Z.pos mv' < Z.pos mc') by (apply (F2R_lt_inv _ _ ez); lra).
  destruct (Z.pos mc' - Z.pos mv') as [|d|d] eqn:Ed; try lia.
  replace (Z.pos mv' - Z.pos mc') with (Z.neg d) by lia.
  cbn [binary_normalize]. apply binary_round_opp.
Qed.

End Negation.

Lemma SFleb_opp (a b : spec_float) :
  SFleb a b = true -> SFleb (SFopp b) (SFopp a) = true.
Proof.
  unfold SFleb.
  destruct a as [sa|sa| |sa ma ea], b as [sb|sb| |sb mb eb];
    cbn [SFopp SFcompare]; try easy;
    try (destruct sa; easy); try (destruct sb; easy);
    try (destruct sa, sb; easy).
  change (Pos.compare_cont Eq ma mb) with (Pos.compare ma mb).
  change (Pos.compare_cont Eq mb ma) with (Pos.compare mb ma).
  rewrite (Z.compare_antisym ea eb), (Pos.compare_antisym ma mb).
  destruct sa, sb; cbn [negb]; try easy;
    destruct (ea ?= eb); cbn [CompOpp]; try easy;
    destruct (ma ?= mb)%positive; cbn [CompOpp]; easy.
Qed.

Lemma div_nonneg (x y : float) :
  (0 <=? x)%float = true -> (0 <? y)%float = true -> is_finite y = true ->
  (0 <=? x / y)%float = true.
Proof.
  rewrite !leb_zero_spec, ltb_zero_spec, is_finite_spec, div_spec.
  unfold SF64div.
  destruct (Prim2SF x) as [sx|[]| |[] mx ex]; try discriminate;
    destruct (Prim2SF y) as [sy|[]| |[] my ey]; try discriminate;
    intros _ _ _; try reflexivity.
  cbn [SFdiv xorb].
  pose proof (SFdiv_core_spec prec emax prec_pos prec_lt_emax mx ex my ey) as H.
  destruct (SFdiv_core_binary prec emax (Z.pos mx) ex (Z.pos my) ey)
    as [[q e'] l].
  destruct H as (Hq & _).
  pose proof (binary_round_aux_sign prec emax false q e' l Hq) as Hs.
  destruct (binary_round_aux prec emax false q e' l) as [[]|[]| |[] m e];
    simpl in Hs; try discriminate; try reflexivity; contradiction.
Qed.

Lemma leb_minus_hundred (x : float) :
  (0 <=? x)%float = true -> (-100 <=? x)%float = true.
Proof.
  rewrite leb_zero_spec, leb_spec.
  change (Prim2SF (-100)) with (S754_finite true 7036874417766400 (-46)).
  now destruct (Prim2SF x) as [[]|[]| |[] m e].
Qed.

(** The change from a positive finite base [c] to a value [v] that is not
    negative, as a percentage of [c], is not below -100. *)
Lemma percent_change_floor (v c : float) :
  (0 <? c)%float = true -> is_finite c = true -> (0 <=? v)%float = true ->
  (-100 <=? (v - c) / c * 100)%float = true.
Proof.
  intros Hc Hfc Hv.
  assert (Hcase : (0 <=? v - c)%float = true
                  \/ (Prim2SF (v - c) = SFopp (Prim2SF (c - v))
                      /\ belowSF (Prim2SF (c - v)) (Prim2SF c))).
  { pose proof (Prim2SF_valid c) as Vc. pose proof (Prim2SF_valid v) as Vv.
    rewrite leb_zero_spec, !sub_spec. unfold SF64sub.
    rewrite ltb_zero_spec in Hc. rewrite is_finite_spec in Hfc.
    rewrite leb_zero_spec in Hv.
    destruct (Prim2SF c) as [sc|sc| |[] mc ec]; try discriminate.
    destruct (Prim2SF v) as [sv|[]| |[] mv ev] eqn:Ev; try discriminate.
    - right. split; [reflexivity|]. split; [exact I|]. apply Rle_refl.
    - left. reflexivity.
    - destruct (Rle_or_lt (F2R (Z.pos mc) ec) (F2R (Z.pos mv) ev)) as [Hle|Hlt].
      + left.
        destruct (SFsub_below prec emax prec_pos prec_lt_emax mv ev
                    (S754_finite false mc ec) Vv (conj Vc I) Hle) as [Hf _].
        now destruct (SFsub prec emax _ _) as [[]|[]| |[] m e].
      + right. split.
        * now apply SFsub_swap.
        * apply (SFsub_below prec emax prec_pos prec_lt_emax);
            [exact Vc|split; [exact Vv|exact I]|]. simpl. lra. }
  destruct Hcase as [Hpos|[Hswap Hbelow]].
  - apply leb_minus_hundred. apply mul_nonneg; [|reflexivity|reflexivity].
    now apply div_nonneg.
  - assert (Hr : ((c - v) / c * 100 <=? 100)%float = true).
    { assert (Hb : belowSF (Prim2SF ((c - v) / c))
                     (S754_finite false 4503599627370496 (-52))).
      { rewrite div_spec. rewrite ltb_zero_spec in Hc.
        rewrite is_finite_spec in Hfc.
        destruct (Prim2SF c) as [sc|sc| |[] mc ec]; try discriminate.
        apply (SFdiv_below prec emax prec_pos prec_lt_emax);
          [reflexivity | exact F2R_one | | ].
        - split; [apply Prim2SF_valid|apply Hbelow].
        - apply Hbelow. }
      apply below_one_bounds in Hb as [H0 H1].
      now apply percent_bounds. }
    rewrite leb_spec in Hr |- *.
    rewrite mul_spec, div_spec, Hswap.
    unfold SF64mul, SF64div. rewrite SFdiv_opp_l, SFmul_opp_l.
    rewrite mul_spec, div_spec in Hr.
    change (Prim2SF (-100)) with (SFopp (Prim2SF 100)).
    now apply SFleb_opp.
Qed.

(** X16.  A position returned by [calculateHoldings] whose total cost is
    finite and whose market value is not negative shows an unrealized
    loss of 100% at most. *)
Theorem unrealized_loss_at_most_100_percent (parseDate : string -> option JsDate) (engine : Engine)
  (txs : list Transaction) (prices targets : PriceMap) (out : Holding) :
  In out (calculateHoldings parseDate engine txs prices targets) ->
  is_finite (h_totalCost out) = true ->
  (0 <=? h_marketValue out)%float = true ->
  (-100 <=? h_unrealizedPLPercent out)%float = true.
Proof.
  intros Hin. apply calculateHoldings_In in Hin as (h & _ & ->).
  unfold finalize, Js.gtb. cbn [h_totalCost h_marketValue h_unrealizedPLPercent].
  intros Hf Hm.
  destruct (0 <? h_totalCost h)%float eqn:Hc; [|reflexivity].
  now apply percent_change_floor.
Qed.

Lemma unrealized_loss_at_most_100_percent_witness :
  exists out,
    In out (calculateHoldings isoDate inPlace buyThenSplit xAtTwenty noPrices)
    /\ is_finite (h_totalCost out) = true
    /\ (0 <=? h_marketValue out)%float = true
    /\ h_unrealizedPLPercent out = (-20)%float
    /\ (-100 <=? h_unrealizedPLPercent out)%float = true.
Proof.
  destruct (calculateHoldings isoDate inPlace buyThenSplit xAtTwenty noPrices)
    as [|out rest] eqn:E.
  - exfalso. revert E. vm_compute. discriminate.
  - assert (Hin : In out (calculateHoldings isoDate inPlace buyThenSplit xAtTwenty
                            noPrices)) by (rewrite E; now left).
    assert (Hout : is_finite (h_totalCost out) = true
                   /\ (0 <=? h_marketValue out)%float = true
                   /\ h_unrealizedPLPercent out = (-20)%float).
    { revert E. vm_compute. intros [= <- _]. repeat split. }
    destruct Hout as (Hf & Hm & Hp).
    exists out. split; [now left|]. split; [exact Hf|]. split; [exact Hm|].
    split; [exact Hp|].
    exact (unrealized_loss_at_most_100_percent isoDate inPlace buyThenSplit xAtTwenty
             noPrices out Hin Hf Hm).
Defined.

(** X17.  The total return on the net funding shown by the growth report
    is not below -100% when the net funding is finite and the portfolio
    value is not negative. *)
Theorem total_roi_at_least_minus_100 (netFunding currentPortfolioValue : float) :
  is_finite netFunding = true ->
  (0 <=? currentPortfolioValue)%float = true ->
  (-100 <=? totalROI netFunding currentPortfolioValue)%float = true.
Proof.
  intros Hf Hv. unfold totalROI, Js.gtb.
  destruct (0 <? netFunding)%float eqn:Hc; [|reflexivity].
  now apply percent_change_floor.
Qed.

Lemma total_roi_at_least_minus_100_witness :
  is_finite 1000 = true
  /\ (0 <=? 250)%float = true
  /\ totalROI 1000 250 = (-75)%float
  /\ (-100 <=? totalROI 1000 250)%float = true.
Proof.
  assert (Hf : is_finite 1000 = true) by reflexivity.
  assert (Hv : (0 <=? 250)%float = true) by reflexivity.
  split; [exact Hf|]. split; [exact Hv|]. split; [reflexivity|].
  exact (total_roi_at_least_minus_100 1000 250 Hf Hv).
Defined.

(** ** Monthly returns come in calendar order *)





Section ReturnsOrder.
Variable parseDate : string -> option JsDate.
Variable now : JsDate.
Variable engine : Engine.




End ReturnsOrder.
(** ** The average FX cost is a matter of deposits *)

Lemma funding_deposits_from (l : list Transaction) (a a' : FundingAcc) :
  fa_depUSD a = fa_depUSD a' -> fa_depLocal a = fa_depLocal a' ->
  fa_depUSD (fold_left fundingStep (filter isFunding l) a)
  = fa_depUSD (fold_left fundingStep (filter isFunding (filter isDeposit l)) a')
  /\ fa_depLocal (fold_left fundingStep (filter isFunding l) a)
     = fa_depLocal
         (fold_left fundingStep (filter isFunding (filter isDeposit l)) a').
Proof.
  revert a a'. induction l as [|tx l IH]; intros a a' Hu Hl.
  - now split.
  - cbn [filter].
    destruct (isDeposit tx) eqn:Ed.
    + assert (Ef : isFunding tx = true)
        by (unfold isFunding; unfold isDeposit in Ed; now rewrite Ed).
      cbn [filter]. rewrite Ef. cbn [fold_left].
      apply IH; unfold fundingStep; unfold isDeposit in Ed; rewrite Ed;
        simpl; congruence.
    + destruct (isFunding tx) eqn:Ef; [|now apply IH].
      cbn [fold_left].
      apply IH; unfold fundingStep; unfold isDeposit in Ed; rewrite Ed;
        simpl; assumption.
Qed.

(** X19.  The average FX cost depends on the deposits only: withdrawals,
    and every other record, leave it unchanged. *)
Theorem avg_fx_cost_from_deposits (txs : list Transaction) :
  avgFxCost (calculateFundingStats txs)
  = avgFxCost (calculateFundingStats (filter isDeposit txs)).
Proof.
  unfold calculateFundingStats. cbn [avgFxCost].
  destruct (funding_deposits_from txs fundingStart fundingStart
              eq_refl eq_refl) as [-> ->].
  reflexivity.
Qed.

(** ** Prices only change the valuation *)

Section MappedObjects.
Context {T U : Type}.
Variable g : T -> U.

Lemma get_map_values (k : string) (m : Obj.t T) :
  Obj.get k (map (fun kv => (fst kv, g (snd kv))) m)
  = option_map g (Obj.get k m).
Proof.
  induction m as [|[k' v] m IH]; simpl; [reflexivity|].
  now destruct (String.eqb k k').
Qed.

Lemma set_map_values (k : string) (v : T) (m : Obj.t T) :
  map (fun kv => (fst kv, g (snd kv))) (Obj.set k v m)
  = Obj.set k (g v) (map (fun kv => (fst kv, g (snd kv))) m).
Proof.
  induction m as [|[k' v'] m IH]; simpl; [reflexivity|].
  destruct (String.eqb k k'); simpl; [reflexivity|now rewrite IH].
Qed.

Lemma insertBy_map_values {A B : Type} (f : A -> B) (le : A -> A -> bool)
  (le' : B -> B -> bool) (x : A) (l : list A) :
  (forall a b, le' (f a) (f b) = le a b) ->
  insertBy le' (f x) (map f l) = map f (insertBy le x l).
Proof.
  intros Hle. induction l as [|y l IH]; simpl; [reflexivity|].
  rewrite Hle. destruct (le x y); simpl; [reflexivity|now rewrite IH].
Qed.

Lemma sortBy_map_values {A B : Type} (f : A -> B) (le : A -> A -> bool)
  (le' : B -> B -> bool) (l : list A) :
  (forall a b, le' (f a) (f b) = le a b) ->
  sortBy le' (map f l) = map f (sortBy le l).
Proof.
  intros Hle. induction l as [|x l IH]; [reflexivity|].
  change (sortBy le' (map f (x :: l)))
    with (insertBy le' (f x) (sortBy le' (map f l))).
  change (sortBy le (x :: l)) with (insertBy le x (sortBy le l)).
  rewrite IH. now apply insertBy_map_values.
Qed.

(** The enumeration order depends on the keys only. *)
Lemma values_map_values (m : Obj.t T) :
  Obj.values (map (fun kv => (fst kv, g (snd kv))) m) = map g (Obj.values m).
Proof.
  unfold Obj.values, Obj.entries. rewrite !map_app, !map_map. f_equal.
  - unfold Obj.indexEntries.
    assert (E : flat_map
                  (fun kv : string * U =>
                     match Obj.arrayIndex (fst kv) with
                     | Some n => [(n, kv)]
                     | None => []
                     end)
                  (map (fun kv => (fst kv, g (snd kv))) m)
                = map (fun nkv => (fst nkv, (fst (snd nkv), g (snd (snd nkv)))))
                    (flat_map
                       (fun kv : string * T =>
                          match Obj.arrayIndex (fst kv) with
                          | Some n => [(n, kv)]
                          | None => []
                          end) m)).
    { induction m as [|[k v] m IH]; simpl; [reflexivity|].
      rewrite IH. now destruct (Obj.arrayIndex k). }
    rewrite E.
    rewrite (sortBy_map_values
               (fun nkv : N * (string * T) =>
                  (fst nkv, (fst (snd nkv), g (snd (snd nkv)))))
               (fun a b => (fst a <=? fst b)%N)) by reflexivity.
    rewrite map_map. reflexivity.
  - unfold Obj.namedEntries. induction m as [|[k v] m IH]; simpl; [reflexivity|].
    destruct (Obj.arrayIndex k); simpl; now rewrite IH.
Qed.

End MappedObjects.

Lemma applyToHolding_ledgerPart (tx : Transaction) (h h' : Holding) :
  ledgerPart h = ledgerPart h' ->
  ledgerPart (applyToHolding tx h) = ledgerPart (applyToHolding tx h').
Proof.
  destruct h, h'. unfold ledgerPart. simpl. intros [= -> -> -> -> -> -> -> -> ->].
  unfold applyToHolding. simpl.
  destruct (tx_type tx); simpl; try reflexivity.
  - now destruct (_ <? _)%float.
  - now destruct (Js.gtb _ _).
Qed.

Lemma replayTx_ledgerParts (prices prices' : PriceMap)
  (m m' : Obj.t Holding) (tx : Transaction) :
  ledgerParts m = ledgerParts m' ->
  ledgerParts (replayTx prices m tx) = ledgerParts (replayTx prices' m' tx).
Proof.
  intros Hm. unfold replayTx.
  destruct (tx_symbol tx) as [sym|]; [|assumption].
  destruct (String.eqb sym ""); [assumption|].
  unfold ledgerParts in *. rewrite !set_map_values, Hm. f_equal.
  apply applyToHolding_ledgerPart. unfold holdingFor.
  pose proof (get_map_values ledgerPart sym m) as G.
  pose proof (get_map_values ledgerPart sym m') as G'.
  rewrite Hm in G. rewrite G' in G.
  destruct (Obj.get sym m), (Obj.get sym m'); simpl in G;
    try discriminate; [congruence|reflexivity].
Qed.

Lemma replay_ledgerParts (prices prices' : PriceMap) (l : list Transaction) :
  ledgerParts (replay prices l) = ledgerParts (replay prices' l).
Proof.
  unfold replay.
  assert (H : forall m m', ledgerParts m = ledgerParts m' ->
              ledgerParts (fold_left (replayTx prices) l m)
              = ledgerParts (fold_left (replayTx prices') l m')).
  { induction l as [|tx l IH]; intros m m' Hm; simpl; [assumption|].
    apply IH. now apply replayTx_ledgerParts. }
  now apply H.
Qed.

Lemma ledgerPart_of_final (prices targets : PriceMap) (vs : list Holding) :
  map ledgerPart (filter kept (map (finalize prices targets) vs))
  = filter kept (map ledgerPart vs).
Proof.
  induction vs as [|h vs IH]; simpl; [reflexivity|].
  change (kept (finalize prices targets h)) with (kept h).
  change (kept (ledgerPart h)) with (kept h).
  destruct (kept h); simpl; now rewrite IH.
Qed.

(** X20.  The current prices and the targets only change the valuation:
    whatever they are, [calculateHoldings] returns the same positions in
    the same order, with the same name, class, sector, shares, average
    cost, total cost, realized P/L and dividends. *)
Theorem prices_only_change_the_valuation (parseDate : string -> option JsDate) (engine : Engine)
  (txs : list Transaction) (prices targets prices' targets' : PriceMap) :
  map ledgerPart (calculateHoldings parseDate engine txs prices targets)
  = map ledgerPart (calculateHoldings parseDate engine txs prices' targets').
Proof.
  unfold calculateHoldings. rewrite !ledgerPart_of_final.
  rewrite <- !(values_map_values ledgerPart).
  fold (ledgerParts (replay prices (sortTx parseDate engine txs))).
  fold (ledgerParts (replay prices' (sortTx parseDate engine txs))).
  now rewrite (replay_ledgerParts prices prices').
Qed.

(** ** The dividend report and the activity report agree *)

Lemma orNum_zero_or_truthy (p : option float) :
  Js.orNum p 0 = 0%float \/ Js.truthy (Js.orNum p 0) = true.
Proof.
  unfold Js.orNum. destruct p as [v|]; [|now left].
  destruct (Js.truthy v) eqn:E; [now right|now left].
Qed.

(** Adding to a zero of either sign gives the same sum. *)
Lemma add_to_zero (v a : float) :
  Js.truthy v = false -> is_nan v = false ->
  a = 0%float \/ Js.truthy a = true ->
  (0 + a)%float = (v + a)%float.
Proof.
  unfold Js.truthy. rewrite is_nan_false_spec, !eqb_spec. intros Hv Hn Ha.
  apply Prim2SF_inj. rewrite !add_spec, Prim2SF_zero. unfold SF64add.
  assert (Hz : exists s, Prim2SF v = S754_zero s).
  { rewrite Prim2SF_zero in Hv.
    assert (Hself : SFeqb (Prim2SF v) (Prim2SF v) = true)
      by (unfold SFeqb; now rewrite SFcompare_refl).
    rewrite Hself in Hv. unfold SFeqb in Hv.
    destruct (Prim2SF v) as [s|[]| |[] m e]; simpl in Hv;
      try discriminate; try contradiction; eauto. }
  destruct Hz as [s ->].
  destruct Ha as [->|Ha].
  - rewrite Prim2SF_zero. now destruct s.
  - rewrite Prim2SF_zero in Ha. unfold SFeqb in Ha.
    destruct (Prim2SF a) as [sa|sa| |sa ma ea]; simpl in Ha;
      try discriminate; reflexivity.
Qed.

Lemma orNum_some_nonneg (v : float) :
  (0 <=? v)%float = true -> (0 <=? Js.orNum (Some v) 0)%float = true.
Proof. unfold Js.orNum. now destruct (Js.truthy v). Qed.

Lemma addActivity_dividendIncome (g : MonthlyActivity) (t : Transaction) :
  ma_dividendIncome (addActivity g t)
  = if isDividend t
    then (ma_dividendIncome g + Js.orNum (tx_price t) 0)%float
    else ma_dividendIncome g.
Proof. reflexivity. Qed.

Lemma incomeAgrees_step (d : string) (t : Transaction)
  (grouped : Obj.t float) (groups : Obj.t MonthlyActivity) :
  txMonth t = d -> soundDividend t ->
  incomeAgrees d grouped groups ->
  incomeAgrees d
    (if isDividend t then addMonthly grouped t else grouped)
    (activityStep groups t).
Proof.
  intros Hd Hs Hinv. unfold incomeAgrees in *.
  destruct (isDividend t) eqn:Ediv.
  - destruct (Hs Ediv) as [Hdated Hamt].
    unfold addMonthly, activityStep. rewrite Hdated.
    fold (txMonth t). rewrite Hd, !get_set_same.
    destruct (Obj.get d grouped) as [v|].
    + destruct Hinv as (Hv & g & -> & Hg). split.
      * apply add_nonneg; [now apply orNum_some_nonneg|exact Hamt].
      * eexists. split; [reflexivity|].
        rewrite addActivity_dividendIncome, Ediv, Hg.
        change (Js.orNum (Some v) 0) with (if Js.truthy v then v else 0%float).
        destruct (Js.truthy v) eqn:Et; [reflexivity|].
        symmetry. apply add_to_zero;
          [exact Et|now apply leb_zero_not_nan|apply orNum_zero_or_truthy].
    + split; [now apply add_nonneg|].
      eexists. split; [reflexivity|].
      rewrite addActivity_dividendIncome, Ediv.
      destruct (Obj.get d groups) as [g|]; [now rewrite Hinv|reflexivity].
  - unfold activityStep. destruct (undated t); [exact Hinv|].
    fold (txMonth t). rewrite Hd, get_set_same.
    destruct (Obj.get d grouped) as [v|].
    + destruct Hinv as (Hv & g & -> & Hg). split; [exact Hv|].
      eexists. split; [reflexivity|].
      now rewrite addActivity_dividendIncome, Ediv.
    + rewrite addActivity_dividendIncome, Ediv.
      destruct (Obj.get d groups) as [g|]; [exact Hinv|reflexivity].
Qed.

Lemma incomeAgrees_fold (d : string) (l : list Transaction)
  (grouped : Obj.t float) (groups : Obj.t MonthlyActivity) :
  Forall (fun t => txMonth t = d) l -> Forall soundDividend l ->
  incomeAgrees d grouped groups ->
  incomeAgrees d
    (fold_left addMonthly (filter isDividend l) grouped)
    (fold_left activityStep l groups).
Proof.
  intros Hl. revert grouped groups.
  induction Hl as [|t l Ht _ IH]; intros grouped groups Hs Hinv; [exact Hinv|].
  inversion Hs as [|? ? Hst Hsl]; subst.
  pose proof (incomeAgrees_step (txMonth t) t grouped groups eq_refl Hst Hinv)
    as Hstep.
  cbn [filter fold_left]. destruct (isDividend t); cbn [fold_left];
    now apply IH.
Qed.

Lemma In_values {T : Type} (k : string) (v : T) (m : Obj.t T) :
  In (k, v) m -> In v (Obj.values m).
Proof.
  intros Hin. unfold Obj.values.
  apply (Permutation_in _ (Permutation_sym (entries_perm m))) in Hin.
  now apply (in_map snd) in Hin.
Qed.

(** X21.  When every dividend record has a full date and an amount that
    is not negative, the two reports agree: the activity report has an
    entry for every month of the monthly dividend report, with the same
    dividend income, to the bit. *)
Theorem activity_agrees_with_dividend_report
  (localeLeb : string -> string -> bool) (txs : list Transaction) :
  Forall soundDividend txs ->
  Forall (fun e =>
            exists g,
              In g (calculateMonthlyActivity localeLeb txs)
              /\ ma_yearMonth g = md_date e
              /\ ma_dividendIncome g = md_value e)
         (getMonthlyDividends localeLeb txs).
Proof.
  intros Hs. apply Forall_forall. intros e Hin.
  unfold getMonthlyDividends in Hin. apply In_sortBy in Hin.
  apply in_map_iff in Hin as ([d v] & <- & Hin). cbn [md_date md_value fst snd].
  apply (Permutation_in _ (entries_perm _)) in Hin.
  change (fold_left addMonthly) with (fold_left (dividendStep txMonth)) in Hin.
  unfold dividendStep in Hin.
  apply In_get in Hin; [|apply group_NoDup; constructor].
  set (own := fun t : Transaction => String.eqb (txMonth t) d).
  rewrite (group_get_filter _ _ _ own d _ [] []) in Hin; [|easy|reflexivity].
  rewrite filter_comm in Hin.
  assert (Hown : Forall (fun t => txMonth t = d) (filter own txs)).
  { apply Forall_forall. intros t Ht. apply filter_In in Ht as [_ Ht].
    now apply String.eqb_eq. }
  assert (Hsown : Forall soundDividend (filter own txs)).
  { apply Forall_forall. intros t Ht. apply filter_In in Ht as [Ht _].
    rewrite Forall_forall in Hs. now apply Hs. }
  pose proof (incomeAgrees_fold d (filter own txs) [] [] Hown Hsown I) as Hinv.
  unfold incomeAgrees in Hinv.
  change (fold_left addMonthly) with
    (fold_left (groupStep (fun _ : Transaction => false) txMonth
                  (fun (_ : string) (o : option float) (t : Transaction) =>
                     (Js.orNum o 0 + Js.orNum (tx_price t) 0)%float))) in Hinv.
  rewrite Hin in Hinv. destruct Hinv as (_ & g & Hg & Hv).
  change (fold_left activityStep)
    with (fold_left (groupStep undated txMonth activityUpdate)) in Hg.
  rewrite <- (group_get_filter undated txMonth activityUpdate own d txs [] [])
    in Hg; [|easy|reflexivity].
  change (fold_left (groupStep undated txMonth activityUpdate))
    with (fold_left activityStep) in Hg.
  apply get_In in Hg.
  assert (Hk := activity_keyed txs [] (Forall_nil _)).
  rewrite Forall_forall in Hk. specialize (Hk _ Hg). simpl in Hk.
  exists g. split; [|now split].
  unfold calculateMonthlyActivity. apply In_sortBy.
  now apply (In_values d).
Qed.

Lemma activity_agrees_with_dividend_report_witness :
  Forall soundDividend dividendsOfTwoMonths
  /\ List.length (getMonthlyDividends String.leb dividendsOfTwoMonths) = 2%nat
  /\ Forall (fun e =>
               exists g,
                 In g (calculateMonthlyActivity String.leb dividendsOfTwoMonths)
                 /\ ma_yearMonth g = md_date e
                 /\ ma_dividendIncome g = md_value e)
            (getMonthlyDividends String.leb dividendsOfTwoMonths).
Proof.
  assert (H : Forall soundDividend dividendsOfTwoMonths).
  { repeat constructor; intros _; split; reflexivity. }
  split; [exact H|]. split; [reflexivity|].
  exact (activity_agrees_with_dividend_report String.leb dividendsOfTwoMonths H).
Defined.

(** ** The price a position is valued at *)

Lemma set_Forall_keyed {T : Type} (P : string -> T -> Prop) (k : string)
  (v : T) (m : Obj.t T) :
  Forall (fun kv => P (fst kv) (snd kv)) m -> P k v ->
  Forall (fun kv => P (fst kv) (snd kv)) (Obj.set k v m).
Proof.
  intros Hm Hv. induction Hm as [|[k' v'] m Hkv Hm IH]; simpl.
  - now repeat constructor.
  - destruct (String.eqb k k') eqn:E.
    + apply String.eqb_eq in E. subst k'. now constructor.
    + now constructor.
Qed.

Lemma applyToHolding_currentPrice (tx : Transaction) (h : Holding) :
  h_currentPrice (applyToHolding tx h) = h_currentPrice h.
Proof.
  unfold applyToHolding. destruct (tx_type tx); simpl; try reflexivity.
  - now destruct (_ <? _)%float.
  - now destruct (Js.gtb _ _).
Qed.

(** During the replay every accumulator keeps the price found for its
    symbol when it was created. *)
Lemma replay_currentPrice (prices : PriceMap) (l : list Transaction) :
  Forall (fun kv => h_currentPrice (snd kv) = Js.orNum (prices (fst kv)) 0)
         (replay prices l).
Proof.
  unfold replay.
  assert (H : forall m,
             Forall (fun kv => h_currentPrice (snd kv)
                               = Js.orNum (prices (fst kv)) 0) m ->
             Forall (fun kv => h_currentPrice (snd kv)
                               = Js.orNum (prices (fst kv)) 0)
                    (fold_left (replayTx prices) l m)).
  { induction l as [|tx l IH]; intros m Hm; simpl; [assumption|].
    apply IH. unfold replayTx.
    destruct (tx_symbol tx) as [sym|]; [|assumption].
    destruct (String.eqb sym ""); [assumption|].
    apply (set_Forall_keyed
             (fun k h => h_currentPrice h = Js.orNum (prices k) 0));
      [assumption|].
    rewrite applyToHolding_currentPrice. unfold holdingFor.
    destruct (Obj.get sym m) as [h|] eqn:E; [|reflexivity].
    apply get_In in E. rewrite Forall_forall in Hm. exact (Hm _ E). }
  apply H. constructor.
Qed.

Lemma calculateHoldings_currentPrice (parseDate : string -> option JsDate) (engine : Engine)
  (txs : list Transaction) (prices targets : PriceMap) (out : Holding) :
  In out (calculateHoldings parseDate engine txs prices targets) ->
  h_currentPrice out = Js.orNum (prices (h_symbol out)) 0
  /\ h_marketValue out
     = (h_shares out * Js.orNum (prices (h_symbol out)) 0)%float
  /\ h_unrealizedPL out = (h_marketValue out - h_totalCost out)%float
  /\ h_unrealizedPLPercent out
     = if Js.gtb (h_totalCost out) 0
       then (h_unrealizedPL out / h_totalCost out * 100)%float
       else 0%float.
Proof.
  intros Hin. apply calculateHoldings_In in Hin as (h & Hget & ->).
  rewrite finalize_symbol in *.
  apply get_In in Hget.
  pose proof (replay_currentPrice prices (sortTx parseDate engine txs)) as Hp.
  rewrite Forall_forall in Hp. specialize (Hp _ Hget). simpl in Hp.
  assert (Hc : h_currentPrice (finalize prices targets h)
               = Js.orNum (prices (h_symbol h)) 0).
  { unfold finalize. cbn [h_currentPrice]. rewrite Hp. unfold Js.orNum.
    destruct (prices (h_symbol h)) as [p|]; [|reflexivity].
    now destruct (Js.truthy p). }
  split; [exact Hc|]. split; [|split; reflexivity].
  rewrite <- Hc. reflexivity.
Qed.

(** X22.  Every position returned by [calculateHoldings] is valued at the
    current price of its symbol, and at the price 0 when the price map has
    none: its market value is its shares times that price. *)
Theorem position_is_valued_at_current_price (parseDate : string -> option JsDate) (engine : Engine)
  (txs : list Transaction) (prices targets : PriceMap) :
  Forall (fun out =>
            h_currentPrice out = Js.orNum (prices (h_symbol out)) 0
            /\ h_marketValue out
               = (h_shares out * Js.orNum (prices (h_symbol out)) 0)%float)
         (calculateHoldings parseDate engine txs prices targets).
Proof.
  apply Forall_forall. intros out Hin.
  destruct (calculateHoldings_currentPrice parseDate engine txs prices targets out Hin)
    as (Hc & Hm & _).
  now split.
Qed.

(** The loss of a worthless position of positive finite cost [c]. *)
Lemma total_loss_percent (z c : float) :
  (z =? 0)%float = true ->
  (0 <? c)%float = true -> is_finite c = true ->
  ((z - c) / c * 100)%float = (-100)%float.
Proof.
  rewrite eqb_spec, ltb_zero_spec, is_finite_spec, Prim2SF_zero.
  intros Hz Hc Hf. apply Prim2SF_inj.
  rewrite mul_spec, div_spec, sub_spec.
  unfold SF64mul, SF64div, SF64sub.
  destruct (Prim2SF c) as [sc|sc| |[] mc ec]; try discriminate.
  unfold SFeqb in Hz.
  destruct (Prim2SF z) as [sz|[]| |[] mz ez]; simpl in Hz; try discriminate.
  cbn [SFsub negb].
  change (S754_finite true mc ec) with (SFopp (S754_finite false mc ec)).
  rewrite SFdiv_opp_l. cbn [SFdiv xorb]. rewrite SFdiv_core_self.
  reflexivity.
Qed.

(** X23.  A position whose symbol has no current price is valued at 0:
    with a finite share count and a positive finite total cost, it shows
    an unrealized loss of exactly 100%. *)
Theorem position_without_price_shows_total_loss
  (parseDate : string -> option JsDate) (engine : Engine) (txs : list Transaction)
  (prices targets : PriceMap) (out : Holding) :
  In out (calculateHoldings parseDate engine txs prices targets) ->
  prices (h_symbol out) = None ->
  is_finite (h_shares out) = true ->
  (0 <? h_totalCost out)%float = true ->
  is_finite (h_totalCost out) = true ->
  h_currentPrice out = 0%float
  /\ h_unrealizedPLPercent out = (-100)%float.
Proof.
  intros Hin Hnone Hs Hc Hf.
  destruct (calculateHoldings_currentPrice parseDate engine txs prices targets out Hin)
    as (Hp & Hm & Hu & Hpct).
  rewrite Hnone in Hp, Hm. simpl in Hp, Hm.
  split; [exact Hp|].
  rewrite Hpct. unfold Js.gtb. rewrite Hc, Hu.
  apply total_loss_percent; [|exact Hc|exact Hf].
  rewrite Hm, eqb_spec, mul_spec, Prim2SF_zero. unfold SF64mul.
  rewrite is_finite_spec in Hs.
  destruct (Prim2SF (h_shares out)) as [s|s| |s m e]; try discriminate;
    reflexivity.
Qed.

Lemma position_without_price_shows_total_loss_witness :
  exists out,
    In out (calculateHoldings isoDate inPlace buyThenSplit noPrices noPrices)
    /\ noPrices (h_symbol out) = None
    /\ is_finite (h_shares out) = true
    /\ (0 <? h_totalCost out)%float = true
    /\ is_finite (h_totalCost out) = true
    /\ h_currentPrice out = 0%float
    /\ h_unrealizedPLPercent out = (-100)%float.
Proof.
  destruct (calculateHoldings isoDate inPlace buyThenSplit noPrices noPrices)
    as [|out rest] eqn:E.
  - exfalso. revert E. vm_compute. discriminate.
  - assert (Hin : In out (calculateHoldings isoDate inPlace buyThenSplit noPrices
                            noPrices)) by (rewrite E; now left).
    assert (Hout : is_finite (h_shares out) = true
                   /\ (0 <? h_totalCost out)%float = true
                   /\ is_finite (h_totalCost out) = true).
    { revert E. vm_compute. intros [= <- _]. repeat split. }
    destruct Hout as (Hs & Hc & Hf).
    exists out. split; [now left|]. split; [reflexivity|].
    split; [exact Hs|]. split; [exact Hc|]. split; [exact Hf|].
    exact (position_without_price_shows_total_loss isoDate inPlace buyThenSplit
             noPrices noPrices out Hin eq_refl Hs Hc Hf).
Defined.

(** ** Before the first trade *)

Lemma add_zero_same_number (x : float) :
  (x + 0 =? x)%float = true \/ is_nan x = true.
Proof.
  rewrite eqb_spec, add_spec, is_nan_spec, Prim2SF_zero. unfold SF64add, SFeqb.
  destruct (Prim2SF x) as [[]|s| |s m e]; cbn [SFadd]; auto;
    left; now rewrite SFcompare_refl.
Qed.

Lemma historyStep_plain (st : Timeline) (tx : Transaction) :
  plainFunding tx ->
  tl_cash st = tl_invested st -> tl_holdings st = [] ->
  tl_cash (historyStep st tx) = tl_invested (historyStep st tx)
  /\ tl_holdings (historyStep st tx) = []
  /\ exists pt,
       tl_points (historyStep st tx) = tl_points st ++ [pt]
       /\ p_value pt = (p_invested pt + 0)%float.
Proof.
  intros [Hf Hsym] Hc Hh. unfold historyStep.
  assert (Hcash : cashAfterFunding (tl_cash st) tx
                  = investedAfter (tl_invested st) tx).
  { unfold cashAfterFunding, investedAfter, isFunding in *. rewrite Hc.
    now destruct (tx_type tx). }
  unfold Js.truthyStr in Hsym.
  destruct (tx_symbol tx) as [sym|].
  - apply negb_false_iff in Hsym. rewrite Hsym, Hh, Hcash. simpl.
    repeat split. eexists. split; reflexivity.
  - rewrite Hh, Hcash. simpl. repeat split. eexists. split; reflexivity.
Qed.

Lemma replayHistory_plain (l : list Transaction) (st : Timeline) :
  Forall plainFunding l ->
  tl_cash st = tl_invested st -> tl_holdings st = [] ->
  Forall (fun p => p_value p = (p_invested p + 0)%float) (tl_points st) ->
  let st' := fold_left historyStep l st in
  tl_cash st' = tl_invested st' /\ tl_holdings st' = []
  /\ Forall (fun p => p_value p = (p_invested p + 0)%float) (tl_points st').
Proof.
  intros Hl. revert st.
  induction Hl as [|tx l Htx _ IH]; intros st Hc Hh Hp; simpl; [now split|].
  destruct (historyStep_plain st tx Htx Hc Hh) as (Hc' & Hh' & pt & Ept & Hpt).
  apply IH; try assumption.
  rewrite Ept. apply Forall_app. split; [assumption|now constructor].
Qed.

(** X24.  As long as the ledger holds deposits and withdrawals only, every
    point of the timeline is valued at the invested capital: the value is
    the invested capital plus zero, the same number. *)
Theorem funding_only_value_is_invested (parseDate : string -> option JsDate) (engine : Engine)
  (txs : list Transaction) (prices : PriceMap) :
  Forall plainFunding txs ->
  Forall (fun p =>
            p_value p = (p_invested p + 0)%float
            /\ ((p_value p =? p_invested p)%float = true
                \/ is_nan (p_invested p) = true))
         (calculatePortfolioHistory parseDate engine txs prices).
Proof.
  intros Hl.
  assert (Hex : Forall (fun p => p_value p = (p_invested p + 0)%float)
                       (calculatePortfolioHistory parseDate engine txs prices)).
  { unfold calculatePortfolioHistory. destruct txs as [|t txs]; [constructor|].
    assert (Hs : Forall plainFunding (sortTx parseDate engine (t :: txs))).
    { apply (Permutation_Forall (Permutation_sym (sortTx_perm _ _ _))), Hl. }
    destruct (replayHistory_plain _ timelineStart Hs eq_refl eq_refl
                (Forall_nil _)) as (Hc & Hh & Hp).
    apply Forall_app. split; [exact Hp|].
    constructor; [|constructor]. unfold nowPoint. cbn [p_value p_invested].
    fold (replayHistory (sortTx parseDate engine (t :: txs))) in Hc, Hh.
    now rewrite Hh, Hc. }
  eapply Forall_impl; [|exact Hex]. cbv beta. intros p Hp.
  split; [exact Hp|]. rewrite Hp. apply add_zero_same_number.
Qed.

Lemma funding_only_value_is_invested_witness :
  Forall plainFunding fundingWithoutRates
  /\ map p_value (calculatePortfolioHistory isoDate inPlace fundingWithoutRates noPrices)
     = [1000; 1000.1; 749.6; 749.6]%float
  /\ Forall (fun p =>
               p_value p = (p_invested p + 0)%float
               /\ ((p_value p =? p_invested p)%float = true
                   \/ is_nan (p_invested p) = true))
            (calculatePortfolioHistory isoDate inPlace fundingWithoutRates noPrices).
Proof.
  assert (H : Forall plainFunding fundingWithoutRates)
    by (repeat constructor).
  split; [exact H|]. split; [reflexivity|].
  exact (funding_only_value_is_invested isoDate inPlace fundingWithoutRates noPrices H).
Defined.

(** ** The win rate at its ends *)

Lemma filter_none {A : Type} (f : A -> bool) (l : list A) :
  Forall (fun x => f x = false) l -> filter f l = [].
Proof.
  induction 1 as [|x l Hx _ IH]; simpl; [reflexivity|]. now rewrite Hx.
Qed.

Lemma arrayLength_positive {A : Type} (a : list A) :
  a <> [] -> Z.of_nat (List.length a) < 2 ^ 53 ->
  (0 <? arrayLength a)%float = true /\ is_finite (arrayLength a) = true.
Proof.
  intros Hne Hn. destruct (arrayLength_spec a Hn) as (_ & _ & Hfin).
  destruct (Hfin Hne) as (m & e & E).
  now rewrite ltb_zero_spec, is_finite_spec, E.
Qed.

(** X25.  The win rate is exactly 100 when every month has a positive
    return, and exactly 0 when no month has one. *)
Theorem win_rate_at_its_ends (monthlyReturns : list MonthlyReturnData) :
  monthlyReturns <> [] ->
  Z.of_nat (List.length monthlyReturns) < 2 ^ 53 ->
  (Forall (fun m => Js.gtb (r_value m) 0 = true) monthlyReturns ->
   calculateWinRate monthlyReturns = 100%float)
  /\ (Forall (fun m => Js.gtb (r_value m) 0 = false) monthlyReturns ->
      calculateWinRate monthlyReturns = 0%float).
Proof.
  intros Hne Hn.
  destruct (arrayLength_positive monthlyReturns Hne Hn) as [Hpos Hfin].
  unfold calculateWinRate.
  destruct monthlyReturns as [|r0 l]; [congruence|].
  set (all := r0 :: l) in *. split; intros Hall.
  - rewrite (filter_all _ all Hall), (div_self_finite _ Hpos Hfin).
    reflexivity.
  - rewrite (filter_none _ all Hall). apply Prim2SF_inj. rewrite mul_spec, div_spec.
    rewrite ltb_zero_spec in Hpos.
    change (Prim2SF (arrayLength [])) with (S754_zero false).
    destruct (Prim2SF (arrayLength all)) as [s|[]| |[] m e];
      try discriminate; reflexivity.
Qed.

Lemma win_rate_at_its_ends_witness :
  calculateWinRate allGains = 100%float
  /\ calculateWinRate allLosses = 0%float.
Proof.
  assert (Hg : allGains <> []) by discriminate.
  assert (Hl : allLosses <> []) by discriminate.
  assert (Hng : Z.of_nat (List.length allGains) < 2 ^ 53)
    by (vm_compute; reflexivity).
  assert (Hnl : Z.of_nat (List.length allLosses) < 2 ^ 53)
    by (vm_compute; reflexivity).
  split.
  - apply (proj1 (win_rate_at_its_ends allGains Hg Hng)).
    repeat constructor.
  - apply (proj2 (win_rate_at_its_ends allLosses Hl Hnl)).
    repeat constructor.
Defined.

